(** * A shallow embedding of the request-lifecycle core of the LLM proxy

    The development follows the TypeScript sources:
    - [shared/models.ts]: model-family registry;
    - [proxy/middleware/request/preprocessors/validate-context-size.ts];
    - [shared/key-management/moonshot/provider.ts] and
      [shared/key-management/key-pool.ts]: the key pool;
    - [proxy/middleware/response/index.ts]: upstream error handlers;
    - [proxy/middleware/response/streaming/sse-message-transformer.ts];
    - [service-info.ts]: the cached info document and the queue estimate;
    - [proxy/google-ai.ts] and [proxy/qwen.ts] with
      [shared/api-schemas/qwen.ts]: model lists and request preprocessors;
    - [proxy/middleware/request/preprocessors/count-prompt-tokens.ts];
    - [shared/file-storage/mirror-generated-image.ts];
    - the geoblock middleware and the origin block.

    JavaScript numbers that hold token counts and millisecond timestamps are
    integers far below 2^53, so they are modelled by [Z].  JavaScript strings
    are modelled by [string] (model identifiers, hashes and error texts are
    ASCII in practice). *)

From Stdlib Require Import ZArith QArith Qround Lia Lqa Ascii String Bool.
From stdpp Require Import base list strings gmap pretty.

Open Scope string_scope.

(* ===================================================================== *)
(** * JavaScript strings and regular expressions *)
(* ===================================================================== *)

Module Js.

(** [s.startsWith(p)] *)
Definition startsWith (s p : string) : bool := String.prefix p s.

(** [s.includes(p)]: [p] occurs somewhere in [s]. *)
Fixpoint includes (s p : string) : bool :=
  String.prefix p s ||
  match s with
  | EmptyString => false
  | String _ s' => includes s' p
  end.

Definition is_upper (c : ascii) : bool :=
  (65 <=? nat_of_ascii c)%nat && (nat_of_ascii c <=? 90)%nat.
Definition is_lower (c : ascii) : bool :=
  (97 <=? nat_of_ascii c)%nat && (nat_of_ascii c <=? 122)%nat.
Definition is_digit (c : ascii) : bool :=
  (48 <=? nat_of_ascii c)%nat && (nat_of_ascii c <=? 57)%nat.

Definition lower (c : ascii) : ascii :=
  if is_upper c then ascii_of_nat (nat_of_ascii c + 32) else c.


(** [s.slice(n)] *)
Fixpoint drop (n : nat) (s : string) : string :=
  match n, s with
  | O, _ => s
  | S n', String _ s' => drop n' s'
  | S _, EmptyString => EmptyString
  end.

(** [s.replace(pat, rep)] with a string pattern: only the first occurrence
    is replaced. *)
Fixpoint replace (s pat rep : string) : string :=
  if String.prefix pat s then rep ++ drop (String.length pat) s
  else match s with
       | EmptyString => EmptyString
       | String c s' => String c (replace s' pat rep)
       end.

(** ** Character sets of the regular expressions in the sources *)

Inductive cset : Type :=
| COne (c : ascii)            (* a literal character *)
| CFold (c : ascii)           (* a literal character under the [i] flag *)
| CAny                        (* [.]: anything but a line terminator *)
| CDigit                      (* [\d] and [[0-9]] *)
| CWord                       (* [\w] *)
| CUnion (a b : cset).        (* [[ab]] *)

Fixpoint cset_mem (p : cset) (c : ascii) : bool :=
  match p with
  | COne a => Ascii.eqb a c
  | CFold a => Ascii.eqb (lower a) (lower c)
  | CAny => negb (Ascii.eqb c "010" || Ascii.eqb c "013")
  | CDigit => is_digit c
  | CWord => is_digit c || is_upper c || is_lower c || Ascii.eqb c "_"
  | CUnion a b => cset_mem a c || cset_mem b c
  end.

(** ** Regular expressions without anchors *)

Inductive regex : Type :=
| Void
| Eps
| Cls (p : cset)
| Seq (r1 r2 : regex)
| Alt (r1 r2 : regex)
| Star (r : regex).

(** The language of a regular expression. *)
Inductive lang : regex -> string -> Prop :=
| lang_eps : lang Eps ""
| lang_cls p c : cset_mem p c = true -> lang (Cls p) (String c "")
| lang_seq r1 r2 s1 s2 : lang r1 s1 -> lang r2 s2 -> lang (Seq r1 r2) (s1 ++ s2)
| lang_alt_l r1 r2 s : lang r1 s -> lang (Alt r1 r2) s
| lang_alt_r r1 r2 s : lang r2 s -> lang (Alt r1 r2) s
| lang_star_nil r : lang (Star r) ""
| lang_star_cons r c s1 s2 :
    lang r (String c s1) -> lang (Star r) s2 -> lang (Star r) (String c s1 ++ s2).

Fixpoint nullable (r : regex) : bool :=
  match r with
  | Void => false
  | Eps => true
  | Cls _ => false
  | Seq r1 r2 => nullable r1 && nullable r2
  | Alt r1 r2 => nullable r1 || nullable r2
  | Star _ => true
  end.

(** Constructors that absorb [Void], so that a dead expression is
    syntactically [Void]. *)
Definition mkSeq (r1 r2 : regex) : regex :=
  match r1, r2 with
  | Void, _ => Void
  | _, Void => Void
  | Eps, _ => r2
  | _, _ => Seq r1 r2
  end.

Definition mkAlt (r1 r2 : regex) : regex :=
  match r1, r2 with
  | Void, _ => r2
  | _, Void => r1
  | _, _ => Alt r1 r2
  end.

(** Brzozowski derivative. *)
Fixpoint deriv (c : ascii) (r : regex) : regex :=
  match r with
  | Void => Void
  | Eps => Void
  | Cls p => if cset_mem p c then Eps else Void
  | Seq r1 r2 =>
      mkAlt (mkSeq (deriv c r1) r2) (if nullable r1 then deriv c r2 else Void)
  | Alt r1 r2 => mkAlt (deriv c r1) (deriv c r2)
  | Star r1 => mkSeq (deriv c r1) (Star r1)
  end.

(** The whole of [s] is in the language. *)
Fixpoint accepts (r : regex) (s : string) : bool :=
  match s with
  | EmptyString => nullable r
  | String c s' => accepts (deriv c r) s'
  end.

(** Some prefix of [s] is in the language. *)
Fixpoint accepts_prefix (r : regex) (s : string) : bool :=
  nullable r ||
  match s with
  | EmptyString => false
  | String c s' => accepts_prefix (deriv c r) s'
  end.

(** [somewhere f s]: [f] holds of some suffix of [s] (a match may start at
    any position). *)
Fixpoint somewhere (f : string -> bool) (s : string) : bool :=
  f s ||
  match s with
  | EmptyString => false
  | String _ s' => somewhere f s'
  end.

(** A JavaScript pattern: a body with optional [^] and [$] at its two ends
    (every anchored pattern of the sources has this shape). *)
Record pattern : Type := Pattern { bol : bool; body : regex; eol : bool }.

(** [re.test(s)], equivalently the truthiness of [s.match(re)]. *)
Definition test (p : pattern) (s : string) : bool :=
  match bol p, eol p with
  | true, true => accepts (body p) s
  | true, false => accepts_prefix (body p) s
  | false, true => somewhere (accepts (body p)) s
  | false, false => somewhere (accepts_prefix (body p)) s
  end.

(** ** Notation-free builders for the patterns of the sources *)

Fixpoint lit (s : string) : regex :=
  match s with
  | EmptyString => Eps
  | String c s' => Seq (Cls (COne c)) (lit s')
  end.

(** A literal under the [i] flag. *)
Fixpoint liti (s : string) : regex :=
  match s with
  | EmptyString => Eps
  | String c s' => Seq (Cls (CFold c)) (liti s')
  end.

Definition opt (r : regex) : regex := Alt r Eps.
Definition plus (r : regex) : regex := Seq r (Star r).
Definition dot : regex := Cls CAny.
Definition digit : regex := Cls CDigit.

Fixpoint rep (n : nat) (r : regex) : regex :=
  match n with
  | O => Eps
  | S n' => Seq r (rep n' r)
  end.

Fixpoint seqs (rs : list regex) : regex :=
  match rs with
  | [] => Eps
  | r :: rs' => Seq r (seqs rs')
  end.

(** [-\d{4}-\d{2}-\d{2}], the date suffix of many model identifiers. *)
Definition dash_date : regex :=
  seqs [lit "-"; rep 4 digit; lit "-"; rep 2 digit; lit "-"; rep 2 digit].

Definition anywhere (r : regex) : pattern := Pattern false r false.
Definition at_start (r : regex) : pattern := Pattern true r false.
Definition at_end (r : regex) : pattern := Pattern false r true.
Definition whole (r : regex) : pattern := Pattern true r true.

(** ** Facts about the matcher *)

Lemma accepts_Void (s : string) : accepts Void s = false.
Proof. induction s as [|c s IH]; simpl; auto. Qed.

Lemma accepts_prefix_Void (s : string) : accepts_prefix Void s = false.
Proof. induction s as [|c s IH]; simpl; auto. Qed.

(** A pattern anchored at the start is decided by the derivatives of its
    body along the subject. *)
Lemma test_bol_cons (p : pattern) (c : ascii) (s : string) :
  bol p = true ->
  nullable (body p) = false ->
  test p (String c s) = test (Pattern true (deriv c (body p)) (eol p)) s.
Proof.
  intros Hb Hn. unfold test. rewrite Hb. simpl.
  destruct (eol p); simpl; [reflexivity|]. now rewrite Hn.
Qed.

Lemma test_bol_Void (e : bool) (s : string) : test (Pattern true Void e) s = false.
Proof.
  unfold test; destruct e; simpl; auto using accepts_Void, accepts_prefix_Void.
Qed.

Lemma prefix_split (p s : string) :
  String.prefix p s = true -> exists t, s = p ++ t.
Proof.
  revert s. induction p as [|a p IH]; intros s H.
  - exists s. reflexivity.
  - destruct s as [|b s]; simpl in H; [discriminate|].
    destruct (ascii_dec a b) as [->|]; [|discriminate].
    destruct (IH s H) as [t ->]. exists t. reflexivity.
Qed.

Lemma startsWith_split (s p : string) :
  startsWith s p = true -> exists t, s = p ++ t.
Proof. apply prefix_split. Qed.

Lemma append_cons (c : ascii) (s1 s2 : string) :
  String c s1 ++ s2 = String c (s1 ++ s2).
Proof. reflexivity. Qed.

Lemma append_nil_l (s : string) : "" ++ s = s.
Proof. reflexivity. Qed.

Lemma append_nil_r (s : string) : s ++ "" = s.
Proof.
  induction s as [|c s IH]; [reflexivity|]. rewrite append_cons. congruence.
Qed.

Lemma append_eq_nil (s1 s2 : string) : s1 ++ s2 = "" -> s1 = "" /\ s2 = "".
Proof.
  destruct s1; [rewrite append_nil_l; auto|rewrite append_cons; discriminate].
Qed.

Lemma lang_Void_inv s : ~ lang Void s.
Proof. intros H. inversion H. Qed.

Lemma lang_Eps_inv s : lang Eps s -> s = "".
Proof. intros H. inversion H. reflexivity. Qed.

Lemma lang_Cls_inv p s :
  lang (Cls p) s -> exists c, s = String c "" /\ cset_mem p c = true.
Proof. intros H. inversion H; subst. eauto. Qed.

Lemma lang_Seq_inv r1 r2 s :
  lang (Seq r1 r2) s -> exists s1 s2, s = s1 ++ s2 /\ lang r1 s1 /\ lang r2 s2.
Proof. intros H. inversion H; subst. eauto. Qed.

Lemma lang_Alt_inv r1 r2 s : lang (Alt r1 r2) s -> lang r1 s \/ lang r2 s.
Proof. intros H. inversion H; subst; auto. Qed.

Lemma lang_Star_inv r c s :
  lang (Star r) (String c s) ->
  exists s1 s2, s = s1 ++ s2 /\ lang r (String c s1) /\ lang (Star r) s2.
Proof.
  intros H. inversion H; subst. eauto.
Qed.

Lemma nullable_lang r : nullable r = true <-> lang r "".
Proof.
  induction r as [| |p|r1 IH1 r2 IH2|r1 IH1 r2 IH2|r IH]; simpl.
  - split; [discriminate|]. intros H. destruct (lang_Void_inv _ H).
  - split; [constructor|reflexivity].
  - split; [discriminate|]. intros H.
    apply lang_Cls_inv in H as (c & E & _). discriminate.
  - rewrite andb_true_iff, IH1, IH2. split.
    + intros [H1 H2]. change "" with ("" ++ ""). now constructor.
    + intros H. apply lang_Seq_inv in H as (s1 & s2 & E & H1 & H2).
      symmetry in E. apply append_eq_nil in E as [-> ->]. auto.
  - rewrite orb_true_iff, IH1, IH2. split.
    + intros [H|H]; [now apply lang_alt_l|now apply lang_alt_r].
    + apply lang_Alt_inv.
  - split; [constructor|reflexivity].
Qed.

Lemma lang_mkSeq r1 r2 s : lang (mkSeq r1 r2) s <-> lang (Seq r1 r2) s.
Proof.
  assert (HV1 : forall r, lang (Seq Void r) s -> False).
  { intros r H. apply lang_Seq_inv in H as (? & ? & _ & H & _).
    now apply lang_Void_inv in H. }
  assert (HV2 : forall r, lang (Seq r Void) s -> False).
  { intros r H. apply lang_Seq_inv in H as (? & ? & _ & _ & H).
    now apply lang_Void_inv in H. }
  assert (HE : forall r, lang r s <-> lang (Seq Eps r) s).
  { intros r. split.
    - intros H. change s with ("" ++ s). constructor; [constructor|exact H].
    - intros H. apply lang_Seq_inv in H as (s1 & s2 & -> & H1 & H2).
      apply lang_Eps_inv in H1 as ->. exact H2. }
  destruct r1, r2; simpl; try tauto; try apply HE;
    (split; intros H; [destruct (lang_Void_inv _ H) | exfalso; eauto]).
Qed.

Lemma lang_mkAlt r1 r2 s : lang (mkAlt r1 r2) s <-> lang (Alt r1 r2) s.
Proof.
  assert (HL : forall r, lang r s <-> lang (Alt Void r) s).
  { intros r. split; [apply lang_alt_r|].
    intros H. apply lang_Alt_inv in H as [H|H];
      [destruct (lang_Void_inv _ H)|exact H]. }
  assert (HR : forall r, lang r s <-> lang (Alt r Void) s).
  { intros r. split; [apply lang_alt_l|].
    intros H. apply lang_Alt_inv in H as [H|H];
      [exact H|destruct (lang_Void_inv _ H)]. }
  destruct r1, r2; simpl; try tauto; try apply HL; try apply HR.
Qed.

Lemma deriv_lang c r : forall s, lang (deriv c r) s <-> lang r (String c s).
Proof.
  induction r as [| |p|r1 IH1 r2 IH2|r1 IH1 r2 IH2|r IH]; intros s; simpl.
  - split; intros H; destruct (lang_Void_inv _ H).
  - split; intros H; [destruct (lang_Void_inv _ H)|].
    apply lang_Eps_inv in H. discriminate.
  - destruct (cset_mem p c) eqn:E; split; intros H.
    + apply lang_Eps_inv in H as ->. now constructor.
    + apply lang_Cls_inv in H as (c' & E' & _). injection E' as <- ->.
      constructor.
    + destruct (lang_Void_inv _ H).
    + apply lang_Cls_inv in H as (c' & E' & Hm). injection E' as <- ->.
      congruence.
  - rewrite lang_mkAlt. split; intros H.
    + apply lang_Alt_inv in H as [H|H].
      * apply lang_mkSeq in H.
        apply lang_Seq_inv in H as (s1 & s2 & -> & H1 & H2).
        apply IH1 in H1. change (String c (s1 ++ s2)) with (String c s1 ++ s2).
        now constructor.
      * destruct (nullable r1) eqn:N; [|destruct (lang_Void_inv _ H)].
        apply nullable_lang in N. apply IH2 in H.
        change (String c s) with ("" ++ String c s). now constructor.
    + apply lang_Seq_inv in H as (s1 & s2 & E & H1 & H2).
      destruct s1 as [|c1 s1];
        [rewrite append_nil_l in E|rewrite append_cons in E].
      * subst s2. apply lang_alt_r. apply nullable_lang in H1. rewrite H1.
        now apply IH2.
      * injection E as <- ->. apply lang_alt_l. apply lang_mkSeq.
        constructor; [now apply IH1|exact H2].
  - rewrite lang_mkAlt. split; intros H.
    + apply lang_Alt_inv in H as [H|H];
        [apply lang_alt_l; now apply IH1 | apply lang_alt_r; now apply IH2].
    + apply lang_Alt_inv in H as [H|H];
        [apply lang_alt_l; now apply IH1 | apply lang_alt_r; now apply IH2].
  - rewrite lang_mkSeq. split; intros H.
    + apply lang_Seq_inv in H as (s1 & s2 & -> & H1 & H2).
      apply IH in H1. change (String c (s1 ++ s2)) with (String c s1 ++ s2).
      now constructor.
    + apply lang_Star_inv in H as (s1 & s2 & -> & H1 & H2).
      constructor; [now apply IH|exact H2].
Qed.

Lemma accepts_lang s : forall r, accepts r s = true <-> lang r s.
Proof.
  induction s as [|c s IH]; intros r; simpl.
  - apply nullable_lang.
  - rewrite IH. apply deriv_lang.
Qed.

Lemma accepts_prefix_lang s : forall r,
  accepts_prefix r s = true <-> exists s1 s2, s = s1 ++ s2 /\ lang r s1.
Proof.
  induction s as [|c s IH]; intros r; simpl.
  - rewrite orb_false_r, nullable_lang. split.
    + intros H. exists "", "". auto.
    + intros (s1 & s2 & E & H). symmetry in E.
      apply append_eq_nil in E as [-> _]. exact H.
  - rewrite orb_true_iff, nullable_lang, IH. split.
    + intros [H|(s1 & s2 & -> & H)].
      * exists "", (String c s). auto.
      * exists (String c s1), s2. split; [reflexivity|now apply deriv_lang].
    + intros (s1 & s2 & E & H).
      destruct s1 as [|c1 s1];
        [rewrite append_nil_l in E|rewrite append_cons in E].
      * now left.
      * injection E as <- ->. right. exists s1, s2.
        split; [reflexivity|now apply deriv_lang].
Qed.

Lemma somewhere_spec f s :
  somewhere f s = true <-> exists s1 s2, s = s1 ++ s2 /\ f s2 = true.
Proof.
  induction s as [|c s IH]; simpl.
  - rewrite orb_false_r. split.
    + intros H. exists "", "". auto.
    + intros (s1 & s2 & E & H). symmetry in E.
      apply append_eq_nil in E as [_ ->]. exact H.
  - rewrite orb_true_iff, IH. split.
    + intros [H|(s1 & s2 & -> & H)].
      * exists "", (String c s). auto.
      * exists (String c s1), s2. auto.
    + intros (s1 & s2 & E & H).
      destruct s1 as [|c1 s1];
        [rewrite append_nil_l in E|rewrite append_cons in E].
      * subst s2. now left.
      * injection E as <- ->. right. eauto.
Qed.

Theorem test_spec p s :
  test p s = true <->
  exists pre mid post,
    s = pre ++ (mid ++ post) /\ lang (body p) mid
    /\ (bol p = true -> pre = "") /\ (eol p = true -> post = "").
Proof.
  unfold test. destruct (bol p), (eol p).
  - rewrite accepts_lang. split.
    + intros H. exists "", s, "". rewrite append_nil_r. auto.
    + intros (pre & mid & post & -> & H & Hb & He).
      rewrite (Hb eq_refl), (He eq_refl), append_nil_r. exact H.
  - rewrite accepts_prefix_lang. split.
    + intros (s1 & s2 & -> & H). exists "", s1, s2.
      repeat split; auto. discriminate.
    + intros (pre & mid & post & -> & H & Hb & _). rewrite (Hb eq_refl).
      exists mid, post. split; [reflexivity|exact H].
  - rewrite somewhere_spec. split.
    + intros (s1 & s2 & -> & H). apply accepts_lang in H.
      exists s1, s2, "". rewrite append_nil_r. repeat split; auto. discriminate.
    + intros (pre & mid & post & -> & H & _ & He).
      rewrite (He eq_refl), append_nil_r.
      exists pre, mid. split; [reflexivity|now apply accepts_lang].
  - rewrite somewhere_spec. split.
    + intros (s1 & s2 & -> & H).
      apply accepts_prefix_lang in H as (m & t & -> & H).
      exists s1, m, t. repeat split; auto; discriminate.
    + intros (pre & mid & post & -> & H & _ & _).
      exists pre, (mid ++ post). split; [reflexivity|].
      apply accepts_prefix_lang. eauto.
Qed.

(** A literal pattern denotes its text, and searching for it is
    [includes]. *)
Lemma lit_lang (p t : string) : lang (lit p) t <-> t = p.
Proof.
  revert t. induction p as [|c p IH]; intros t; simpl.
  - split; [apply lang_Eps_inv | intros ->; constructor].
  - split.
    + intros H. apply lang_Seq_inv in H as (s1 & s2 & -> & H1 & H2).
      apply lang_Cls_inv in H1 as (c' & -> & Hc). simpl in Hc.
      apply Ascii.eqb_eq in Hc as <-. apply IH in H2 as ->. reflexivity.
    + intros ->. change (String c p) with (String c "" ++ p).
      constructor; [constructor; simpl; apply Ascii.eqb_refl | now apply IH].
Qed.

Lemma prefix_iff (p s : string) :
  String.prefix p s = true <-> exists t, s = p ++ t.
Proof.
  split; [apply prefix_split|]. intros [t ->].
  induction p as [|c p IH]; [destruct t; reflexivity|].
  rewrite append_cons. simpl. destruct (ascii_dec c c); [exact IH|congruence].
Qed.

Lemma includes_iff (s p : string) :
  includes s p = true <-> exists s1 s2, s = s1 ++ (p ++ s2).
Proof.
  induction s as [|c s IH].
  - change (includes "" p) with (String.prefix p "" || false).
    rewrite orb_false_r, prefix_iff. split.
    + intros [t E]. exists "", t. exact E.
    + intros (s1 & s2 & E). symmetry in E.
      apply append_eq_nil in E as [_ E]. exists s2. now rewrite E.
  - change (includes (String c s) p)
      with (String.prefix p (String c s) || includes s p).
    rewrite orb_true_iff, prefix_iff, IH. split.
    + intros [[t E]|(s1 & s2 & ->)].
      * exists "", t. exact E.
      * exists (String c s1), s2. reflexivity.
    + intros (s1 & s2 & E). destruct s1 as [|c1 s1];
        [rewrite append_nil_l in E|rewrite append_cons in E].
      * left. eauto.
      * injection E as <- ->. right. eauto.
Qed.

Lemma test_anywhere_lit (p s : string) :
  test (anywhere (lit p)) s = includes s p.
Proof.
  apply eq_true_iff_eq. rewrite test_spec, includes_iff. simpl. split.
  - intros (pre & mid & post & -> & H & _ & _).
    apply lit_lang in H as ->. eauto.
  - intros (s1 & s2 & ->). exists s1, p, s2.
    repeat split; try discriminate. now apply lit_lang.
Qed.

End Js.

(* ===================================================================== *)
(** * The model-family registry ([shared/models.ts]) *)
(* ===================================================================== *)

Module Models.
Import Js.

(** [LLMService].  The key pool and the info page also know ["moonshot"]. *)
Inductive LLMService : Type :=
| openai | anthropic | google_ai | mistral_ai | aws | gcp | azure
| deepseek | xai | cohere | qwen | moonshot.

(** [APIFormat]: the wire dialects. *)
Inductive APIFormat : Type :=
| api_openai | api_openai_text | api_openai_image | api_openai_responses
| api_anthropic_chat | api_anthropic_text
| api_google_ai
| api_mistral_ai | api_mistral_text.

(** [ModelFamily] is a union of string literals; the Bedrock and Azure
    families are built by string concatenation, so families are strings. *)
Definition ModelFamily : Type := string.

(** [OPENAI_MODEL_FAMILY_MAP], in insertion order.  The keys are JavaScript
    string literals handed to [String.prototype.match]; in the last one the
    source writes a single backslash before [d], which a string literal
    reads as the letter [d]. *)
Definition OPENAI_MODEL_FAMILY_MAP : list (pattern * ModelFamily) :=
  [ (whole (seqs [lit "gpt-image"; opt (Seq (lit "-") (plus digit));
                  opt (lit "-preview"); opt dash_date]), "gpt-image");
    (whole (seqs [lit "gpt-4.5"; opt (lit "-preview"); opt dash_date]), "gpt45");
    (whole (seqs [lit "gpt-4.1"; opt dash_date]), "gpt41");
    (whole (seqs [lit "gpt-4.1-mini"; opt dash_date]), "gpt41-mini");
    (whole (seqs [lit "gpt-4.1-nano"; opt dash_date]), "gpt41-nano");
    (whole (seqs [lit "gpt-4o"; opt dash_date]), "gpt4o");
    (at_start (lit "chatgpt-4o"), "gpt4o");
    (whole (seqs [lit "gpt-4o-mini"; opt dash_date]), "turbo");
    (whole (seqs [lit "gpt-4-turbo"; opt dash_date]), "gpt4-turbo");
    (whole (seqs [lit "gpt-4-turbo"; opt (lit "-preview")]), "gpt4-turbo");
    (whole (seqs [lit "gpt-4-"; Alt (lit "0125") (lit "1106");
                  opt (lit "-preview")]), "gpt4-turbo");
    (whole (seqs [lit "gpt-4"; opt (Seq (lit "-") (rep 4 digit));
                  lit "-vision"; opt (lit "-preview")]), "gpt4-turbo");
    (whole (seqs [lit "gpt-4-32k-"; rep 4 digit]), "gpt4-32k");
    (whole (lit "gpt-4-32k"), "gpt4-32k");
    (whole (seqs [lit "gpt-4-"; rep 4 digit]), "gpt4");
    (whole (lit "gpt-4"), "gpt4");
    (at_start (seqs [lit "gpt-3"; dot; lit "5-turbo"]), "turbo");
    (whole (lit "text-embedding-ada-002"), "turbo");
    (whole (seqs [lit "dall-e-"; rep 1 digit]), "dall-e");
    (whole (seqs [lit "o1-mini"; opt dash_date]), "o1-mini");
    (whole (seqs [lit "o1-pro"; opt dash_date]), "o1-pro");
    (whole (seqs [lit "o3-pro"; opt dash_date]), "o3-pro");
    (whole (seqs [lit "o1"; opt dash_date]), "o1");
    (whole (seqs [lit "o3-mini"; opt dash_date]), "o3-mini");
    (whole (seqs [lit "o3"; opt dash_date]), "o3");
    (whole (seqs [lit "o4-mini"; opt dash_date]), "o4-mini");
    (whole (seqs [lit "codex-mini";
                  opt (Alt (lit "-latest")
                           (seqs [lit "-"; rep 4 (lit "d"); lit "-";
                                  rep 2 (lit "d"); lit "-"; rep 2 (lit "d")]))]),
     "codex-mini") ].

(** The loop of [getOpenAIModelFamily] and [getAzureOpenAIModelFamily]:
    the family of the first pattern that matches. *)
Fixpoint first_match (table : list (pattern * ModelFamily)) (model : string)
  : option ModelFamily :=
  match table with
  | [] => None
  | (re, family) :: rest =>
      if test re model then Some family else first_match rest model
  end.

Definition getOpenAIModelFamily (model : string) (defaultFamily : ModelFamily)
  : ModelFamily :=
  match first_match OPENAI_MODEL_FAMILY_MAP model with
  | Some family => family
  | None => defaultFamily
  end.

Definition getClaudeModelFamily (model : string) : ModelFamily :=
  if includes model "opus" then "claude-opus" else "claude".

Definition getGoogleAIModelFamily (model : string) : ModelFamily :=
  if includes model "ultra" && negb (includes model "imagen") then "gemini-ultra"
  else if includes model "flash" then "gemini-flash"
  else "gemini-pro".

(** [s.replace(re, "")] for a pattern that ends in [$]: the leftmost suffix
    in the language is cut off. *)
Fixpoint strip_suffix (r : regex) (s : string) : string :=
  if accepts r s then EmptyString
  else match s with
       | EmptyString => EmptyString
       | String c s' => String c (strip_suffix r s')
       end.

(** [/-(latest|\d{4}(-\d{2}){0,2})$/] *)
Definition mistral_version_suffix : regex :=
  Seq (lit "-")
      (Alt (lit "latest")
           (Seq (rep 4 digit)
                (opt (Seq (Seq (lit "-") (rep 2 digit))
                          (opt (Seq (lit "-") (rep 2 digit))))))).

Definition one_of (s : string) (cases : list string) : bool :=
  existsb (String.eqb s) cases.

Definition getMistralAIModelFamily (model : string) : ModelFamily :=
  let prunedModel := strip_suffix mistral_version_suffix model in
  if one_of prunedModel
       ["mistral-tiny"; "mistral-small"; "mistral-medium"; "mistral-large"]
  then prunedModel
  else if one_of prunedModel ["mistral-large"; "pixtral-large"]
  then "mistral-large"
  else if one_of prunedModel ["mistral-medium-2505"; "magistral-medium-latest"]
  then "mistral-medium"
  else if one_of prunedModel
            ["codestral"; "ministral-8b"; "mistral-embed"; "pixtral-12b-2409";
             "magistral-small-latest"]
  then "mistral-small"
  else if one_of prunedModel ["ministral-3b"] then "mistral-tiny"
  else if one_of prunedModel ["open-mistral-7b"] then "mistral-tiny"
  else if one_of prunedModel
            ["mistral-small"; "pixtral"; "pixtral-12b"; "open-mistral-nemo";
             "open-mixtral-8x7b"; "open-codestral-mamba"; "mathstral"]
  then "mistral-small"
  else if one_of prunedModel ["open-mixtral-8x22b"] then "mistral-medium"
  else "mistral-small".

(** The maximal run of [\w] characters at the head of [s], and the rest. *)
Fixpoint span_word (s : string) : string * string :=
  match s with
  | EmptyString => (EmptyString, EmptyString)
  | String c s' =>
      if cset_mem CWord c
      then let '(w, rest) := span_word s' in (String c w, rest)
      else (EmptyString, s)
  end.

(** The lazy group [(.+?)] followed by [tail] and [$]: the shortest
    non-empty run of [.] after which the remainder is in [tail]. *)
Fixpoint lazy_dots (tail : regex) (s : string) : option string :=
  match s with
  | EmptyString => None
  | String c s' =>
      if cset_mem CAny c
      then if accepts tail s' then Some (String c EmptyString)
           else option_map (String c) (lazy_dots tail s')
      else None
  end.

(** [model.replace(/^(\w+)\.(.+?)(-v\d+)?(:\d+)*$/, "$2")] *)
Definition deAwsify (model : string) : string :=
  let '(vendor, rest) := span_word model in
  match vendor, rest with
  | String _ _, String "." rest' =>
      let tail := Seq (opt (Seq (lit "-v") (plus digit)))
                      (Star (Seq (lit ":") (plus digit))) in
      match lazy_dots tail rest' with
      | Some group2 => group2
      | None => model
      end
  | _, _ => model
  end.

Definition getAwsBedrockModelFamily (model : string) : ModelFamily :=
  let deAwsified := deAwsify model in
  if existsb (includes model) ["claude"; "anthropic"]
  then "aws-" ++ getClaudeModelFamily deAwsified
  else if includes model "tral"
  then "aws-" ++ getMistralAIModelFamily deAwsified
  else "aws-claude".

Definition getGcpModelFamily (model : string) : ModelFamily :=
  if includes model "opus" then "gcp-claude-opus" else "gcp-claude".

Definition getAzureOpenAIModelFamily (model : string)
    (defaultFamily : ModelFamily) : ModelFamily :=
  let modified :=
    replace (replace model "gpt-35-turbo" "gpt-3.5-turbo") "azure-" "" in
  match first_match OPENAI_MODEL_FAMILY_MAP modified with
  | Some family => "azure-" ++ family
  | None => defaultFamily
  end.

(** The part of the Express request that [getModelFamilyForRequest] reads
    and writes. *)
Record Request : Type := mkRequest {
  modelFamily : option ModelFamily;   (* [req.modelFamily], the memo *)
  body_model : option string;         (* [req.body.model] *)
  service : LLMService;               (* [req.service] *)
  outboundApi : APIFormat;            (* [req.outboundApi] *)
}.

(** JavaScript truthiness of an optional string. *)
Definition truthy (o : option string) : bool :=
  match o with
  | Some (String _ _) => true
  | _ => false
  end.

(** The family computed below the memo test.  In the [openai] case the
    source has a second [if (req.service === "xai")] after the first
    [break]; control never reaches it, so it has no counterpart here. *)
Definition computeModelFamily (req : Request) : ModelFamily :=
  let model := default "gpt-3.5-turbo" (body_model req) in
  match service req with
  | aws => getAwsBedrockModelFamily model
  | gcp => getGcpModelFamily model
  | azure => getAzureOpenAIModelFamily model "azure-gpt4"
  | qwen => "qwen"
  | _ =>
      match outboundApi req with
      | api_anthropic_chat | api_anthropic_text => getClaudeModelFamily model
      | api_openai | api_openai_text | api_openai_image =>
          match service req with
          | deepseek => "deepseek"
          | _ => getOpenAIModelFamily model "gpt4"
          end
      | api_google_ai => getGoogleAIModelFamily model
      | api_mistral_ai | api_mistral_text => getMistralAIModelFamily model
      | api_openai_responses => getOpenAIModelFamily model "gpt4"
      end
  end.

(** [getModelFamilyForRequest(req)]: the returned family and the request
    with the memo written. *)
Definition getModelFamilyForRequest (req : Request) : ModelFamily * Request :=
  if truthy (modelFamily req) then (default "" (modelFamily req), req)
  else
    let family := computeModelFamily req in
    (family,
     {| modelFamily := Some family; body_model := body_model req;
        service := service req; outboundApi := outboundApi req |}).

(** ** Properties of the registry *)

Section ModelsFacts.

(** [first_match] returns a family of the table. *)
Lemma first_match_In table model family :
  first_match table model = Some family -> In family (map snd table).
Proof.
  induction table as [|[re f] rest IH]; simpl; [discriminate|].
  destruct (test re model); intros H.
  - left. congruence.
  - right. auto.
Qed.

(** A pattern is dead on subjects that start with [c1 c2] when it is
    anchored at the start and its second derivative is [Void]. *)
Definition dead_on (c1 c2 : ascii) (p : pattern) : bool :=
  bol p && negb (nullable (body p)) && negb (nullable (deriv c1 (body p)))
  && match deriv c2 (deriv c1 (body p)) with Void => true | _ => false end.

Lemma dead_on_test c1 c2 p s :
  dead_on c1 c2 p = true -> test p (String c1 (String c2 s)) = false.
Proof.
  unfold dead_on. intros H.
  apply andb_prop in H as [H H3]. apply andb_prop in H as [H H2].
  apply andb_prop in H as [H0 H1].
  apply negb_true_iff in H1. apply negb_true_iff in H2.
  rewrite (test_bol_cons p c1 _ H0 H1).
  rewrite (test_bol_cons (Pattern true (deriv c1 (body p)) (eol p)) c2 s eq_refl H2).
  simpl.
  destruct (deriv c2 (deriv c1 (body p))); try discriminate.
  apply test_bol_Void.
Qed.

Lemma first_match_dead c1 c2 table s :
  forallb (fun e => dead_on c1 c2 (fst e)) table = true ->
  first_match table (String c1 (String c2 s)) = None.
Proof.
  induction table as [|[re f] rest IH]; simpl; [reflexivity|].
  intros H. apply andb_prop in H as [Hd Hr].
  rewrite (dead_on_test _ _ _ _ Hd). auto.
Qed.

(** No OpenAI pattern matches an identifier that starts with ["gr"]. *)
Lemma openai_table_dead_on_gr :
  forallb (fun e => dead_on "g" "r" (fst e)) OPENAI_MODEL_FAMILY_MAP = true.
Proof. vm_compute. reflexivity. Qed.

Lemma getOpenAIModelFamily_grok (model : string) (d : ModelFamily) :
  startsWith model "grok" = true -> getOpenAIModelFamily model d = d.
Proof.
  intros H. apply startsWith_split in H as [t ->].
  unfold getOpenAIModelFamily.
  change ("grok" ++ t) with (String "g" (String "r" ("ok" ++ t))).
  now rewrite (first_match_dead "g" "r" _ _ openai_table_dead_on_gr).
Qed.

Lemma openai_families_not_xai :
  forallb (fun f => negb (String.eqb f "xai")) (map snd OPENAI_MODEL_FAMILY_MAP)
  = true.
Proof. vm_compute. reflexivity. Qed.

Lemma getOpenAIModelFamily_not_xai (model : string) :
  getOpenAIModelFamily model "gpt4" <> "xai".
Proof.
  unfold getOpenAIModelFamily.
  destruct (first_match OPENAI_MODEL_FAMILY_MAP model) as [f|] eqn:E;
    [|discriminate].
  apply first_match_In in E.
  pose proof openai_families_not_xai as H.
  rewrite forallb_forall in H. specialize (H f E).
  apply negb_true_iff in H. intros ->. discriminate.
Qed.

Example family_grok3 : getOpenAIModelFamily "grok-3" "gpt4" = "gpt4".
Proof. vm_compute. reflexivity. Qed.

Example family_gpt4o : getOpenAIModelFamily "gpt-4o-2024-08-06" "gpt4" = "gpt4o".
Proof. vm_compute. reflexivity. Qed.

Example family_bedrock :
  getAwsBedrockModelFamily "anthropic.claude-3-opus-20240229-v1:0"
  = "aws-claude-opus".
Proof. vm_compute. reflexivity. Qed.

(** C8. For a request of service ["xai"] with outbound API ["openai"]
    whose family is not yet resolved, [getModelFamilyForRequest] returns
    [getOpenAIModelFamily(req.body.model)]; that family is never ["xai"],
    it is the default ["gpt4"] for every model name that starts with
    ["grok"], it is written to [req.modelFamily], and a later call on the
    same request returns it again. *)
Theorem xai_openai_request_family (req : Request) :
  service req = xai ->
  outboundApi req = api_openai ->
  truthy (modelFamily req) = false ->
  let model := default "gpt-3.5-turbo" (body_model req) in
  let out := getModelFamilyForRequest req in
  fst out = getOpenAIModelFamily model "gpt4"
  /\ fst out <> "xai"
  /\ (startsWith model "grok" = true -> fst out = "gpt4")
  /\ modelFamily (snd out) = Some (fst out)
  /\ fst (getModelFamilyForRequest (snd out)) = fst out.
Proof.
  intros Hs Ha Hm. unfold getModelFamilyForRequest.
  rewrite Hm. simpl. unfold computeModelFamily. rewrite Hs, Ha.
  set (model := default "gpt-3.5-turbo" (body_model req)).
  pose proof (getOpenAIModelFamily_not_xai model) as Hx.
  repeat split; auto.
  - apply getOpenAIModelFamily_grok.
  - destruct (getOpenAIModelFamily model "gpt4") eqn:E; simpl; [|reflexivity].
    unfold getOpenAIModelFamily in E.
    destruct (first_match OPENAI_MODEL_FAMILY_MAP model) as [f|] eqn:F;
      [|discriminate].
    apply first_match_In in F. subst f. vm_compute in F.
    repeat (destruct F as [F|F]; [discriminate|]). contradiction.
Qed.

Lemma xai_openai_request_family_witness :
  fst (getModelFamilyForRequest (mkRequest None (Some "grok-3") xai api_openai))
  = "gpt4".
Proof.
  destruct (xai_openai_request_family
              (mkRequest None (Some "grok-3") xai api_openai)
              eq_refl eq_refl eq_refl) as (_ & _ & H & _).
  apply H. reflexivity.
Defined.

End ModelsFacts.

End Models.

(* ===================================================================== *)
(** * Context-size validation
      ([proxy/middleware/request/preprocessors/validate-context-size.ts]) *)
(* ===================================================================== *)

Module ValidateContextSize.
Import Js Models.
Open Scope Z_scope.

(** The two limits read from the deployment configuration
    ([MAX_CONTEXT_TOKENS_OPENAI], [MAX_CONTEXT_TOKENS_ANTHROPIC]); [0]
    stands for a limit that is zero or not set. *)
Record Config : Type := mkConfig {
  maxContextTokensAnthropic : Z;
  maxContextTokensOpenAI : Z;
}.

Definition GOOGLE_AI_MAX_CONTEXT : Z := 84000.
Definition MISTRAL_AI_MAX_CONTENT : Z := 131072.
Definition MAX_SAFE_INTEGER : Z := 9007199254740991.

(** The fields of the request that the preprocessor reads.  The token
    counts are [None] when the token counter has not set them. *)
Record Request : Type := mkRequest {
  promptTokens : option Z;
  outputTokens : option Z;
  model : string;                    (* [req.body.model] *)
  outboundApi : APIFormat;
  userIsSpecial : bool;              (* [req.user?.type === "special"] *)
}.

(** What is written to [req.tokenizerInfo] on success. *)
Record TokenizerInfo : Type := mkInfo {
  prompt_tokens : Z;
  completion_tokens : Z;
  max_model_tokens : Z;
  max_proxy_tokens : Z;
}.

Inductive Error : Type :=
| MissingTokenCounts                       (* [assertRequestHasTokenCounts] *)
| ContextTooLarge (finalMax contextTokens : Z).

Inductive Outcome : Type :=
| Validated (info : TokenizerInfo)
| Skipped                                  (* the [openai-image] return *)
| Thrown (e : Error).

(** [assertRequestHasTokenCounts]: both counts are integers [>= 1]. *)
Definition assertRequestHasTokenCounts (req : Request) : option (Z * Z) :=
  match promptTokens req, outputTokens req with
  | Some p, Some o => if (1 <=? p) && (1 <=? o) then Some (p, o) else None
  | _, _ => None
  end.

(** The [switch] on [req.outboundApi]; [None] is the early [return]. *)
Definition deploymentLimit (cfg : Config) (api : APIFormat) : option Z :=
  match api with
  | api_openai | api_openai_text | api_openai_responses =>
      Some (maxContextTokensOpenAI cfg)
  | api_anthropic_chat | api_anthropic_text =>
      Some (maxContextTokensAnthropic cfg)
  | api_google_ai => Some GOOGLE_AI_MAX_CONTEXT
  | api_mistral_ai | api_mistral_text => Some MISTRAL_AI_MAX_CONTENT
  | api_openai_image => None
  end.

(** [proxyMax] after [proxyMax ||= Number.MAX_SAFE_INTEGER] and the
    override for special users. *)
Definition effectiveProxyMax (limit : Z) (special : bool) : Z :=
  let proxyMax := if limit =? 0 then MAX_SAFE_INTEGER else limit in
  if special then MAX_SAFE_INTEGER else proxyMax.

Definition date_opt : regex := opt dash_date.

(** The [if]/[else if] chain that chooses [modelMax], in source order. *)
Definition MODEL_MAX_TABLE : list (pattern * Z) :=
  [ (anywhere (seqs [lit "gpt-3"; dot; lit "5-turbo-16k"]), 16384);
    (at_start (lit "gpt-4o"), 128000);
    (at_start (seqs [lit "gpt-4"; dot; lit "5"]), 128000);
    (whole (seqs [lit "gpt-4.1"; date_opt]), 1000000);
    (whole (seqs [lit "gpt-4.1-mini"; date_opt]), 1000000);
    (whole (seqs [lit "gpt-4.1-nano"; date_opt]), 1000000);
    (at_start (lit "chatgpt-4o"), 128000);
    (at_end (seqs [lit "gpt-4-turbo"; date_opt]), 131072);
    (at_end (seqs [lit "gpt-4-turbo"; opt (lit "-preview")]), 131072);
    (at_end (seqs [lit "gpt-4-"; Alt (lit "0125") (lit "1106");
                   opt (lit "-preview")]), 131072);
    (whole (seqs [lit "gpt-4"; opt (Seq (lit "-") (rep 4 digit));
                  lit "-vision"; opt (lit "-preview")]), 131072);
    (whole (seqs [lit "o3-mini"; date_opt]), 200000);
    (whole (seqs [lit "o3"; date_opt]), 200000);
    (whole (seqs [lit "o4-mini"; date_opt]), 200000);
    (whole (seqs [lit "codex-mini"; opt (Alt (lit "-latest") dash_date)]),
     200000);
    (whole (seqs [lit "o1"; date_opt]), 200000);
    (whole (seqs [lit "o1-mini"; date_opt]), 128000);
    (whole (seqs [lit "o1-pro"; date_opt]), 200000);
    (whole (seqs [lit "o3-pro"; date_opt]), 200000);
    (whole (seqs [lit "o1-preview"; date_opt]), 128000);
    (anywhere (seqs [lit "gpt-3"; dot; lit "5-turbo"]), 16384);
    (anywhere (lit "gpt-4-32k"), 32768);
    (anywhere (lit "gpt-4"), 8192);
    (at_start (seqs [lit "claude-"; opt (lit "instant-"); lit "v1";
                     opt (Seq (lit ".") digit); lit "-100k"]), 100000);
    (whole (seqs [lit "claude-"; opt (lit "instant-"); lit "v1";
                  opt (Seq (lit ".") digit)]), 9000);
    (at_start (lit "claude-2.0"), 100000);
    (at_start (lit "claude-2"), 200000);
    (at_start (lit "claude-3"), 200000);
    (at_start (seqs [lit "claude-"; Alt (lit "sonnet") (lit "opus"); lit "-4"]),
     200000);
    (at_start (lit "gemini-"), 1024000);
    (at_start (lit "anthropic.claude-3"), 200000);
    (at_start (seqs [lit "anthropic.claude-"; Alt (lit "sonnet") (lit "opus");
                     lit "-4"]), 200000);
    (at_start (seqs [lit "anthropic.claude-v2:"; digit]), 200000);
    (at_start (lit "anthropic.claude"), 100000);
    (at_start (lit "deepseek"), 64000);
    (at_start (lit "kimi-k2"), 131000);
    (anywhere (lit "moonshot"), 200000);
    (anywhere (seqs [lit "command"; Star (Cls (CUnion CWord (COne "-")));
                     lit "-03-202"; digit]), 256000);
    (* [model.match(/command/) || model.match(/cohere/)] *)
    (anywhere (lit "command"), 128000);
    (anywhere (lit "cohere"), 128000);
    (at_start (lit "grok-4"), 256000);
    (at_start (lit "grok"), 128000);
    (at_start (lit "magistral"), 40000);
    (anywhere (lit "tral"), MISTRAL_AI_MAX_CONTENT) ].

Fixpoint first_limit (table : list (pattern * Z)) (m : string) : option Z :=
  match table with
  | [] => None
  | (re, n) :: rest => if test re m then Some n else first_limit rest m
  end.

(** [modelMax]; unknown models get the 200k limit of the final [else]. *)
Definition modelMax (m : string) : Z :=
  default 200000 (first_limit MODEL_MAX_TABLE m).

(** [validateContextSize(req)] *)
Definition validateContextSize (cfg : Config) (req : Request) : Outcome :=
  match assertRequestHasTokenCounts req with
  | None => Thrown MissingTokenCounts
  | Some (promptTokens, outputTokens) =>
      let contextTokens := promptTokens + outputTokens in
      match deploymentLimit cfg (outboundApi req) with
      | None => Skipped
      | Some limit =>
          let proxyMax := effectiveProxyMax limit (userIsSpecial req) in
          let modelMax := modelMax (model req) in
          let finalMax := Z.min proxyMax modelMax in
          if contextTokens <=? finalMax
          then Validated (mkInfo promptTokens outputTokens modelMax proxyMax)
          else Thrown (ContextTooLarge finalMax contextTokens)
      end
  end.

(** ** The bound that validation enforces *)



Definition special_request : Request :=
  {| promptTokens := Some 50000; outputTokens := Some 1000;
     model := "gpt-4o"; outboundApi := api_openai; userIsSpecial := true |}.

Definition image_request : Request :=
  {| promptTokens := Some 1000000; outputTokens := Some 1000;
     model := "dall-e-3"; outboundApi := api_openai_image;
     userIsSpecial := false |}.

Definition small_deployment : Config :=
  {| maxContextTokensAnthropic := 32768; maxContextTokensOpenAI := 32768 |}.


Example image_request_is_not_validated :
  validateContextSize small_deployment image_request = Skipped.
Proof. reflexivity. Qed.




End ValidateContextSize.

(* ===================================================================== *)
(** * Arrays of records: [find] followed by a mutation *)
(* ===================================================================== *)

Module Arr.

Section ModifyFirst.

Context {A : Type}.

(** [const x = xs.find(p); if (x) mutate(x)]: the first element that
    satisfies [p] is replaced by its image under [f]; the array is
    otherwise untouched, and unchanged when no element satisfies [p]. *)
Fixpoint modify_first (p : A -> bool) (f : A -> A) (xs : list A) : list A :=
  match xs with
  | [] => []
  | x :: xs' => if p x then f x :: xs' else x :: modify_first p f xs'
  end.

Variable p : A -> bool.
Variables f g : A -> A.

Lemma modify_first_none xs : find p xs = None -> modify_first p f xs = xs.
Proof.
  induction xs as [|x xs IH]; simpl; [reflexivity|].
  destruct (p x); [discriminate|]. intros H. now rewrite IH.
Qed.

Lemma modify_first_head x xs :
  p x = true -> modify_first p f (x :: xs) = f x :: xs.
Proof. simpl. now intros ->. Qed.

Lemma modify_first_length xs : length (modify_first p f xs) = length xs.
Proof.
  induction xs as [|x xs IH]; simpl; [reflexivity|].
  destruct (p x); simpl; congruence.
Qed.

Lemma modify_first_Forall (P : A -> Prop) xs :
  (forall x, p x = true -> P x -> P (f x)) ->
  Forall P xs -> Forall P (modify_first p f xs).
Proof.
  intros Hf. induction 1 as [|x xs Hx Hxs IH]; simpl; [constructor|].
  destruct (p x) eqn:E; constructor; auto.
Qed.

(** The element at a position after the mutation is the old one or its
    image. *)
Lemma modify_first_lookup xs (i : nat) x :
  modify_first p f xs !! i = Some x ->
  exists y, xs !! i = Some y /\ (x = y \/ x = f y).
Proof.
  revert i. induction xs as [|x0 xs IH]; intros i; simpl; [discriminate|].
  destruct (p x0).
  - destruct i as [|i]; simpl; intros H.
    + injection H as <-. eauto.
    + eauto.
  - destruct i as [|i]; simpl; intros H.
    + injection H as <-. eauto.
    + apply IH in H. exact H.
Qed.

(** Two mutations of the element found by the same test fuse when the
    first one keeps the test true. *)
Lemma modify_first_fuse xs :
  (forall x, p x = true -> p (g x) = true) ->
  modify_first p f (modify_first p g xs) = modify_first p (fun x => f (g x)) xs.
Proof.
  intros Hg. induction xs as [|x xs IH]; simpl; [reflexivity|].
  destruct (p x) eqn:E; simpl.
  - now rewrite (Hg x E).
  - rewrite E. now rewrite IH.
Qed.

Lemma find_modify_first xs r :
  find p xs = Some r -> p (f r) = true ->
  find p (modify_first p f xs) = Some (f r).
Proof.
  induction xs as [|x xs IH]; simpl; [discriminate|].
  destruct (p x) eqn:E; simpl.
  - intros H Hf. injection H as ->. now rewrite Hf.
  - rewrite E. exact IH.
Qed.

Lemma modify_first_map {B : Type} (h : A -> B) xs :
  (forall x, h (f x) = h x) -> map h (modify_first p f xs) = map h xs.
Proof.
  intros Hf. induction xs as [|x xs IH]; simpl; [reflexivity|].
  destruct (p x); simpl; [now rewrite Hf | now rewrite IH].
Qed.

End ModifyFirst.

End Arr.

(* ===================================================================== *)
(** * The Moonshot key provider and the key pool
      ([shared/key-management/moonshot/provider.ts],
       [shared/key-management/key-pool.ts]) *)
(* ===================================================================== *)

Module KeyPool.
Import Models Arr.
Open Scope Z_scope.

(** Exceptions that the modelled functions can raise. *)
Inductive Exn : Type :=
| NoKeysAvailable        (* [new Error("No Moonshot keys available")] *)
| TypeError.             (* a property access on [undefined] *)

Inductive Result (A : Type) : Type :=
| Ok (a : A)
| Throw (e : Exn).
Arguments Ok {A} a.
Arguments Throw {A} e.

Record TokenUsage : Type := mkUsage { input : Z; output : Z }.

(** [MoonshotKey] (the fields of [Key] and [isOverQuota]). *)
Record MoonshotKey : Type := mkKey {
  key : string;
  modelFamilies : list ModelFamily;
  isDisabled : bool;
  isRevoked : bool;
  promptCount : Z;
  lastUsed : Z;
  lastChecked : Z;
  hash : string;
  rateLimitedAt : Z;
  rateLimitedUntil : Z;
  tokenUsage : gmap string TokenUsage;
  isOverQuota : bool;
}.

(** [Partial<MoonshotKey>]: each field may be present or absent. *)
Record Patch : Type := mkPatch {
  p_key : option string;
  p_modelFamilies : option (list ModelFamily);
  p_isDisabled : option bool;
  p_isRevoked : option bool;
  p_promptCount : option Z;
  p_lastUsed : option Z;
  p_lastChecked : option Z;
  p_hash : option string;
  p_rateLimitedAt : option Z;
  p_rateLimitedUntil : option Z;
  p_tokenUsage : option (gmap string TokenUsage);
  p_isOverQuota : option bool;
}.

(** [Object.assign(key, update)] *)
Definition assign (k : MoonshotKey) (p : Patch) : MoonshotKey :=
  {| key := default (key k) (p_key p);
     modelFamilies := default (modelFamilies k) (p_modelFamilies p);
     isDisabled := default (isDisabled k) (p_isDisabled p);
     isRevoked := default (isRevoked k) (p_isRevoked p);
     promptCount := default (promptCount k) (p_promptCount p);
     lastUsed := default (lastUsed k) (p_lastUsed p);
     lastChecked := default (lastChecked k) (p_lastChecked p);
     hash := default (hash k) (p_hash p);
     rateLimitedAt := default (rateLimitedAt k) (p_rateLimitedAt p);
     rateLimitedUntil := default (rateLimitedUntil k) (p_rateLimitedUntil p);
     tokenUsage := default (tokenUsage k) (p_tokenUsage p);
     isOverQuota := default (isOverQuota k) (p_isOverQuota p) |}.

Definition has_hash (h : string) (k : MoonshotKey) : bool := String.eqb (hash k) h.

Definition RATE_LIMIT_LOCKOUT : Z := 2000.
Definition KEY_REUSE_DELAY : Z := 500.

Section Provider.

(** [hashKey]: SHA-256 of the secret, hex encoded (from Node's [crypto]). *)
Variable hashKey : string -> string.

(** The constructor: one record per non-empty entry of the comma-separated
    [config.moonshotKey], already split and trimmed here. *)
Definition newKey (secret : string) : MoonshotKey :=
  {| key := secret; modelFamilies := ["moonshot"];
     isDisabled := false; isRevoked := false;
     promptCount := 0; lastUsed := 0; lastChecked := 0;
     hash := hashKey secret;
     rateLimitedAt := 0; rateLimitedUntil := 0;
     tokenUsage := ∅; isOverQuota := false |}.

Definition construct (secrets : list string) : list MoonshotKey :=
  map newKey (List.filter (fun s => negb (String.eqb s "")) secrets).

End Provider.

(** The writes of [throttle(hash)] at time [now] on the record it
    finds. *)
Definition throttleKey (now : Z) (k : MoonshotKey) : MoonshotKey :=
  let currentRateLimit := rateLimitedUntil k in
  let nextRateLimit := now + KEY_REUSE_DELAY in
  assign k {| p_key := None; p_modelFamilies := None; p_isDisabled := None;
              p_isRevoked := None; p_promptCount := None; p_lastUsed := None;
              p_lastChecked := None; p_hash := None;
              p_rateLimitedAt := Some now;
              p_rateLimitedUntil := Some (Z.max currentRateLimit nextRateLimit);
              p_tokenUsage := None; p_isOverQuota := None |}.

(** [throttle(hash)]: the non-null assertion on the [find] makes the
    read of [key.rateLimitedUntil] a [TypeError] for a hash that no record
    has. *)
Definition throttle (h : string) (now : Z) (ks : list MoonshotKey)
  : Result (list MoonshotKey) :=
  match find (has_hash h) ks with
  | None => Throw TypeError
  | Some _ => Ok (modify_first (has_hash h) (throttleKey now) ks)
  end.

(** Positions in [this.keys] of the records that pass the filter
    [!k.isDisabled]; [availableKeys[i]] is the record at the [i]-th of
    these positions. *)
Fixpoint enabled_positions (i : nat) (ks : list MoonshotKey) : list nat :=
  match ks with
  | [] => []
  | k :: ks' =>
      if isDisabled k then enabled_positions (S i) ks'
      else i :: enabled_positions (S i) ks'
  end.

Definition availableKeys (ks : list MoonshotKey) : list MoonshotKey :=
  List.filter (fun k => negb (isDisabled k)) ks.

(** [Math.floor(Math.random() * n)] for a draw [rnd] of [Math.random()],
    taken as a rational (the floating-point product agrees with it for
    pools of any realistic size); [None] when the result is not an index
    below [n]. *)
Definition random_index (rnd : Q) (n : nat) : option nat :=
  let i := Qfloor (rnd * inject_Z (Z.of_nat n)) in
  if (0 <=? i) && (i <? Z.of_nat n) then Some (Z.to_nat i) else None.

Definition setLastUsed (now : Z) (k : MoonshotKey) : MoonshotKey :=
  assign k {| p_key := None; p_modelFamilies := None; p_isDisabled := None;
              p_isRevoked := None; p_promptCount := None;
              p_lastUsed := Some now;
              p_lastChecked := None; p_hash := None; p_rateLimitedAt := None;
              p_rateLimitedUntil := None; p_tokenUsage := None;
              p_isOverQuota := None |}.

(** [get(model)].  [rnd] is the value of [Math.random()], [now] the clock
    read by [get] and [now'] the clock read by [throttle].  The result is
    the value copy [{ ...key }] and the array after the mutations. *)
Definition get (model : string) (rnd : Q) (now now' : Z) (ks : list MoonshotKey)
  : Result MoonshotKey * list MoonshotKey :=
  let positions := enabled_positions 0 ks in
  match positions with
  | [] => (Throw NoKeysAvailable, ks)
  | _ =>
      match random_index rnd (length positions) with
      | None => (Throw TypeError, ks)
      | Some i =>
          match positions !! i with
          | None => (Throw TypeError, ks)
          | Some pos =>
              let ks1 := alter (setLastUsed now) pos ks in
              match ks1 !! pos with
              | None => (Throw TypeError, ks)
              | Some selected =>
                  match throttle (hash selected) now' ks1 with
                  | Throw e => (Throw e, ks1)
                  | Ok ks2 =>
                      match ks2 !! pos with
                      | Some copy => (Ok copy, ks2)
                      | None => (Throw TypeError, ks2)
                      end
                  end
              end
          end
      end
  end.

(** [disable(key)] of the provider. *)
Definition provider_disable (h : string) (ks : list MoonshotKey)
  : list MoonshotKey :=
  modify_first (has_hash h)
    (fun k => assign k {| p_key := None; p_modelFamilies := None;
                          p_isDisabled := Some true; p_isRevoked := None;
                          p_promptCount := None; p_lastUsed := None;
                          p_lastChecked := None; p_hash := None;
                          p_rateLimitedAt := None; p_rateLimitedUntil := None;
                          p_tokenUsage := None; p_isOverQuota := None |}) ks.

(** [update(hash, update)] *)
Definition update (h : string) (p : Patch) (ks : list MoonshotKey)
  : list MoonshotKey :=
  modify_first (has_hash h) (fun k => assign k p) ks.

(** [available()] *)
Definition available (ks : list MoonshotKey) : nat :=
  length (availableKeys ks).

(** [incrementUsage(keyHash, modelFamily, usage)] *)
Definition incrementUsage (h : string) (family : ModelFamily) (usage : TokenUsage)
    (ks : list MoonshotKey) : list MoonshotKey :=
  modify_first (has_hash h)
    (fun k =>
       let current := default (mkUsage 0 0) (tokenUsage k !! family) in
       let usage' := mkUsage (input current + input usage)
                             (output current + output usage) in
       assign k {| p_key := None; p_modelFamilies := None; p_isDisabled := None;
                   p_isRevoked := None;
                   p_promptCount := Some (promptCount k + 1);
                   p_lastUsed := None; p_lastChecked := None; p_hash := None;
                   p_rateLimitedAt := None; p_rateLimitedUntil := None;
                   p_tokenUsage := Some (<[family := usage']> (tokenUsage k));
                   p_isOverQuota := None |}) ks.

(** [markRateLimited(keyHash)] at time [now]; the non-null assertion on the
    [find] makes an unknown hash a [TypeError]. *)
Definition markRateLimited (h : string) (now : Z) (ks : list MoonshotKey)
  : Result (list MoonshotKey) :=
  match find (has_hash h) ks with
  | None => Throw TypeError
  | Some _ =>
      Ok (modify_first (has_hash h)
            (fun k =>
               assign k {| p_key := None; p_modelFamilies := None;
                           p_isDisabled := None; p_isRevoked := None;
                           p_promptCount := None; p_lastUsed := None;
                           p_lastChecked := None; p_hash := None;
                           p_rateLimitedAt := Some now;
                           p_rateLimitedUntil := Some (now + RATE_LIMIT_LOCKOUT);
                           p_tokenUsage := None; p_isOverQuota := None |}) ks)
  end.

(** The patch that [recheck] applies to every key. *)
Definition recheck_patch : Patch :=
  {| p_key := None; p_modelFamilies := None;
     p_isDisabled := Some false; p_isRevoked := None;
     p_promptCount := None; p_lastUsed := None;
     p_lastChecked := Some 0; p_hash := None;
     p_rateLimitedAt := None; p_rateLimitedUntil := None;
     p_tokenUsage := None; p_isOverQuota := Some false |}.

(** [recheck()].  [hasChecker] says whether [init] created the checker and
    [checkKeys] is [config.checkKeys].  The loop calls
    [this.update(key.hash, ...)] for every record in turn; the checks it
    then starts are asynchronous and report back through [update] later. *)
Definition recheck (hasChecker checkKeys : bool) (ks : list MoonshotKey)
  : list MoonshotKey :=
  if negb hasChecker || negb checkKeys then ks
  else fold_left (fun acc h => update h recheck_patch acc) (map hash ks) ks.

(** ** [KeyPool], restricted to the Moonshot provider *)

Inductive Reason : Type := quota | revoked.

Definition is_revoked (r : Reason) : bool :=
  match r with revoked => true | quota => false end.
Definition is_quota (r : Reason) : bool :=
  match r with quota => true | revoked => false end.

Definition patch_isRevoked (b : bool) : Patch :=
  {| p_key := None; p_modelFamilies := None;
     p_isDisabled := None; p_isRevoked := Some b;
     p_promptCount := None; p_lastUsed := None;
     p_lastChecked := None; p_hash := None;
     p_rateLimitedAt := None; p_rateLimitedUntil := None;
     p_tokenUsage := None; p_isOverQuota := None |}.

Definition patch_isOverQuota (b : bool) : Patch :=
  {| p_key := None; p_modelFamilies := None;
     p_isDisabled := None; p_isRevoked := None;
     p_promptCount := None; p_lastUsed := None;
     p_lastChecked := None; p_hash := None;
     p_rateLimitedAt := None; p_rateLimitedUntil := None;
     p_tokenUsage := None; p_isOverQuota := Some b |}.

(** [KeyPool.disable(key, reason)]: the provider's [disable], then the two
    [update] calls (Moonshot is one of the providers that keep
    [isOverQuota]). *)
Definition disable (k : MoonshotKey) (reason : Reason) (ks : list MoonshotKey)
  : list MoonshotKey :=
  let ks1 := provider_disable (hash k) ks in
  let ks2 := update (hash k) (patch_isRevoked (is_revoked reason)) ks1 in
  update (hash k) (patch_isOverQuota (is_quota reason)) ks2.

(** [KeyPool.recheck(service)] *)
Definition pool_recheck (hasChecker checkKeys : bool) (ks : list MoonshotKey)
  : list MoonshotKey :=
  if negb checkKeys then ks else recheck hasChecker checkKeys ks.

(** ** Facts about [Object.assign] *)

Lemma default_twice {A : Type} (x : A) (o : option A) :
  default (default x o) o = default x o.
Proof. destruct o; reflexivity. Qed.

Lemma assign_twice k p : assign (assign k p) p = assign k p.
Proof. unfold assign; simpl. f_equal; apply default_twice. Qed.

Lemma has_hash_assign h k p :
  p_hash p = None -> has_hash h (assign k p) = has_hash h k.
Proof. unfold has_hash, assign; simpl. now intros ->. Qed.

(** [throttle] finds the record whose hash it is given by [get]. *)
Lemma throttle_lookup ks (pos : nat) sel now :
  ks !! pos = Some sel ->
  throttle (hash sel) now ks
  = Ok (modify_first (has_hash (hash sel)) (throttleKey now) ks).
Proof.
  intros H. unfold throttle.
  destruct (find (has_hash (hash sel)) ks) eqn:E; [reflexivity|].
  assert (Hin : In sel ks)
    by (apply list_elem_of_In; eapply list_elem_of_lookup_2; exact H).
  pose proof (find_none _ _ E sel Hin) as Hf.
  unfold has_hash in Hf. rewrite String.eqb_refl in Hf. discriminate Hf.
Qed.

(** ** The invariant [isRevoked => isDisabled] *)

Definition revoked_implies_disabled (k : MoonshotKey) : Prop :=
  isRevoked k = true -> isDisabled k = true.

Definition pool_ok (ks : list MoonshotKey) : Prop :=
  Forall revoked_implies_disabled ks.

Section Invariant.

Variable hashKey : string -> string.

Lemma construct_ok secrets : pool_ok (construct hashKey secrets).
Proof.
  unfold pool_ok, construct. apply List.Forall_forall. intros k Hk.
  apply in_map_iff in Hk as (s & <- & _). intros H. discriminate H.
Qed.

(** [KeyPool.disable] is one mutation of the first record with the hash. *)
Lemma disable_fused k reason ks :
  disable k reason ks =
  modify_first (has_hash (hash k))
    (fun r => assign (assign (assign r
        {| p_key := None; p_modelFamilies := None;
           p_isDisabled := Some true; p_isRevoked := None;
           p_promptCount := None; p_lastUsed := None;
           p_lastChecked := None; p_hash := None;
           p_rateLimitedAt := None; p_rateLimitedUntil := None;
           p_tokenUsage := None; p_isOverQuota := None |})
        (patch_isRevoked (is_revoked reason)))
        (patch_isOverQuota (is_quota reason))) ks.
Proof.
  unfold disable, update, provider_disable.
  rewrite (modify_first_fuse (has_hash (hash k))).
  - rewrite (modify_first_fuse (has_hash (hash k))); [reflexivity|].
    intros r Hr. rewrite !has_hash_assign; auto.
  - intros r Hr. rewrite has_hash_assign; auto.
Qed.

Lemma disable_ok k reason ks : pool_ok ks -> pool_ok (disable k reason ks).
Proof.
  intros H. rewrite disable_fused. apply modify_first_Forall; [|exact H].
  intros r _ _ _. reflexivity.
Qed.

(** After [KeyPool.disable] the first record with the hash is disabled,
    and revoked exactly when the reason is [revoked]. *)
Lemma disable_flags k reason ks r :
  find (has_hash (hash k)) ks = Some r ->
  exists r', find (has_hash (hash k)) (disable k reason ks) = Some r'
    /\ isDisabled r' = true
    /\ isRevoked r' = is_revoked reason
    /\ isOverQuota r' = is_quota reason.
Proof.
  rewrite disable_fused.
  induction ks as [|k0 ks IH]; simpl; [discriminate|].
  destruct (has_hash (hash k) k0) eqn:E; simpl.
  - intros _. rewrite !has_hash_assign by reflexivity. rewrite E.
    eexists; split; [reflexivity|]. simpl. auto.
  - rewrite E. exact IH.
Qed.

Lemma get_ok model rnd now now' ks :
  pool_ok ks -> pool_ok (snd (get model rnd now now' ks)).
Proof.
  intros H. unfold get.
  destruct (enabled_positions 0 ks) as [|p0 ps] eqn:Ep; [exact H|].
  destruct (random_index rnd _) as [i|]; [|exact H].
  destruct (_ !! i) as [pos|]; [|exact H].
  assert (H1 : pool_ok (alter (setLastUsed now) pos ks)).
  { apply Forall_alter; [exact H|]. intros x _ Hx. exact Hx. }
  destruct (alter (setLastUsed now) pos ks !! pos) as [sel|] eqn:Es;
    [|exact H].
  rewrite (throttle_lookup _ _ _ now' Es).
  assert (H2 : pool_ok (modify_first (has_hash (hash sel)) (throttleKey now')
                          (alter (setLastUsed now) pos ks))).
  { apply modify_first_Forall; [|exact H1]. intros x _ Hx. exact Hx. }
  destruct (modify_first _ _ _ !! pos); exact H2.
Qed.

Lemma markRateLimited_ok h now ks ks' :
  pool_ok ks -> markRateLimited h now ks = Ok ks' -> pool_ok ks'.
Proof.
  unfold markRateLimited. intros H.
  destruct (find (has_hash h) ks); [|discriminate].
  intros E. injection E as <-.
  apply modify_first_Forall; [|exact H]. intros x _ Hx. exact Hx.
Qed.

Lemma incrementUsage_ok h family usage ks :
  pool_ok ks -> pool_ok (incrementUsage h family usage ks).
Proof.
  intros H. apply modify_first_Forall; [|exact H]. intros x _ Hx. exact Hx.
Qed.

(** [update] keeps the invariant when the patch leaves both flags alone. *)
Lemma update_ok h p ks :
  p_isDisabled p = None -> p_isRevoked p = None ->
  pool_ok ks -> pool_ok (update h p ks).
Proof.
  intros Hd Hr H. apply modify_first_Forall; [|exact H].
  intros x _ Hx. unfold revoked_implies_disabled, assign. simpl.
  rewrite Hd, Hr. exact Hx.
Qed.

(** C5. The failing run: a pool built from one configured, non-empty
    secret, in which the key is disabled with reason [revoked] (the
    invariant holds there), and then rechecked with key checking on.
    [recheck] clears [isDisabled] and leaves [isRevoked], so the stored
    record is revoked and not disabled: [isRevoked => isDisabled] is
    broken. *)
Theorem recheck_breaks_revoked_implies_disabled (c : ascii) (secret : string) :
  let ks0 := construct hashKey [String c secret] in
  let ks1 := disable (newKey hashKey (String c secret)) revoked ks0 in
  let ks2 := pool_recheck true true ks1 in
  pool_ok ks0 /\ pool_ok ks1
  /\ map (fun k => (isRevoked k, isDisabled k)) ks1 = [(true, true)]
  /\ map (fun k => (isRevoked k, isDisabled k)) ks2 = [(true, false)]
  /\ ~ pool_ok ks2.
Proof.
  intros ks0 ks1 ks2.
  set (k := newKey hashKey (String c secret)) in *.
  assert (E0 : ks0 = [k]) by reflexivity.
  assert (Hk : has_hash (hash k) k = true) by apply String.eqb_refl.
  assert (E1 : map (fun k => (isRevoked k, isDisabled k)) ks1 = [(true, true)]).
  { subst ks1. rewrite E0, disable_fused.
    rewrite (modify_first_head _ _ k [] Hk). reflexivity. }
  assert (E2 : map (fun k => (isRevoked k, isDisabled k)) ks2 = [(true, false)]).
  { subst ks2 ks1. rewrite E0, disable_fused.
    rewrite (modify_first_head _ _ k [] Hk).
    unfold pool_recheck, recheck. cbn [negb orb map fold_left]. unfold update.
    rewrite modify_first_head; [reflexivity|]. apply String.eqb_refl. }
  split; [apply construct_ok|].
  split; [apply disable_ok, construct_ok|].
  split; [exact E1|]. split; [exact E2|].
  intros Hok. destruct ks2 as [|r [|]]; try discriminate.
  injection E2 as Hr Hd. apply Forall_inv in Hok.
  rewrite (Hok Hr) in Hd. discriminate.
Qed.

End Invariant.

(** ** [update] applied twice *)

Definition hash_count (h : string) (ks : list MoonshotKey) : nat :=
  length (List.filter (has_hash h) ks).

Lemma hash_count_zero h ks : hash_count h ks = 0%nat -> find (has_hash h) ks = None.
Proof.
  unfold hash_count. induction ks as [|k ks IH]; simpl; [reflexivity|].
  destruct (has_hash h k); simpl; [discriminate|exact IH].
Qed.

Lemma update_unknown h p ks : find (has_hash h) ks = None -> update h p ks = ks.
Proof. apply modify_first_none. Qed.

(** The pool of the counterexample: the same secret configured twice gives
    two records with one hash. *)
Definition twin (secret h : string) : MoonshotKey :=
  {| key := secret; modelFamilies := ["moonshot"];
     isDisabled := false; isRevoked := false;
     promptCount := 0; lastUsed := 0; lastChecked := 0; hash := h;
     rateLimitedAt := 0; rateLimitedUntil := 0;
     tokenUsage := ∅; isOverQuota := false |}.

Definition rehash_patch (h : string) : Patch :=
  {| p_key := None; p_modelFamilies := None;
     p_isDisabled := None; p_isRevoked := None;
     p_promptCount := None; p_lastUsed := None;
     p_lastChecked := None; p_hash := Some h;
     p_rateLimitedAt := None; p_rateLimitedUntil := None;
     p_tokenUsage := None; p_isOverQuota := None |}.

(** C9, as stated, fails: with two records of hash ["h1"] and a patch that
    sets [hash], the first [update] renames the first record and the second
    [update] finds and renames the other one. *)
Lemma update_twice_differs :
  let ks := [twin "sk-1" "h1"; twin "sk-1" "h1"] in
  find (has_hash "h1") ks <> None
  /\ update "h1" (rehash_patch "h2") ks = [twin "sk-1" "h2"; twin "sk-1" "h1"]
  /\ update "h1" (rehash_patch "h2") (update "h1" (rehash_patch "h2") ks)
     = [twin "sk-1" "h2"; twin "sk-1" "h2"]
  /\ update "h1" (rehash_patch "h2") (update "h1" (rehash_patch "h2") ks)
     <> update "h1" (rehash_patch "h2") ks.
Proof.
  simpl. repeat split; try discriminate.
Qed.

(** C9, amended. [update(h, p)] twice leaves the pool as one [update(h, p)]
    does, provided the patch does not move the record to another hash
    ([p] has no [hash], or sets it to [h]) or at most one record has hash
    [h]; and an [update] with a hash that no record has leaves the pool
    unchanged. *)
Theorem update_idempotent (h : string) (p : Patch) (ks : list MoonshotKey) :
  (p_hash p = None \/ p_hash p = Some h \/ (hash_count h ks <= 1)%nat ->
   update h p (update h p ks) = update h p ks)
  /\ (find (has_hash h) ks = None -> update h p ks = ks).
Proof.
  split; [|apply update_unknown].
  unfold update. induction ks as [|k ks IH]; intros H; simpl; [reflexivity|].
  destruct (has_hash h k) eqn:E; simpl.
  - destruct (has_hash h (assign k p)) eqn:E'.
    + now rewrite assign_twice.
    + destruct H as [H|[H|H]].
      * rewrite has_hash_assign in E' by exact H. congruence.
      * unfold has_hash, assign in E'. simpl in E'. rewrite H in E'.
        simpl in E'. rewrite String.eqb_refl in E'. discriminate.
      * unfold hash_count in H. simpl in H. rewrite E in H. simpl in H.
        f_equal. apply modify_first_none, hash_count_zero.
        unfold hash_count. lia.
  - rewrite E. f_equal. apply IH.
    destruct H as [H|[H|H]]; auto.
    right; right. unfold hash_count in *. simpl in H. now rewrite E in H.
Qed.

Lemma update_idempotent_witness :
  let ks := [twin "sk-1" "h1"; twin "sk-2" "h2"] in
  update "h1" recheck_patch (update "h1" recheck_patch ks)
  = update "h1" recheck_patch ks
  /\ update "h3" recheck_patch ks = ks.
Proof.
  intros ks.
  destruct (update_idempotent "h1" recheck_patch ks) as [H1 _].
  destruct (update_idempotent "h3" recheck_patch ks) as [_ H2].
  split; [apply H1; left; reflexivity | apply H2; reflexivity].
Defined.

(** ** What [get] returns *)

Lemma enabled_positions_spec ks : forall n i pos,
  enabled_positions n ks !! i = Some pos ->
  exists j k0, pos = (n + j)%nat /\ ks !! j = Some k0
    /\ isDisabled k0 = false /\ availableKeys ks !! i = Some k0.
Proof.
  induction ks as [|k ks IH]; intros n i pos; simpl; [discriminate|].
  destruct (isDisabled k) eqn:E; simpl.
  - intros H. apply IH in H as (j & k0 & -> & Hj & Hd & Ha).
    exists (S j), k0. repeat split; auto; lia.
  - destruct i as [|i]; simpl.
    + intros H. injection H as <-. exists 0%nat, k.
      repeat split; auto; lia.
    + intros H. apply IH in H as (j & k0 & -> & Hj & Hd & Ha).
      exists (S j), k0. repeat split; auto; lia.
Qed.

Lemma enabled_positions_length ks : forall n,
  length (enabled_positions n ks) = available ks.
Proof.
  unfold available, availableKeys.
  induction ks as [|k ks IH]; intros n; simpl; [reflexivity|].
  destruct (isDisabled k); simpl; auto.
Qed.

(** A draw in [[0, 1)] gives an index below [n]. *)
Lemma random_index_in_range (rnd : Q) (n : nat) :
  (0 <= rnd)%Q -> (rnd < 1)%Q -> (0 < n)%nat ->
  exists i, random_index rnd n = Some i /\ (i < n)%nat.
Proof.
  intros H0 H1 Hn. unfold random_index.
  set (x := (rnd * inject_Z (Z.of_nat n))%Q).
  assert (Hpos : (0 < inject_Z (Z.of_nat n))%Q).
  { change 0%Q with (inject_Z 0). rewrite <- Zlt_Qlt. lia. }
  assert (Hx0 : (0 <= x)%Q).
  { unfold x. apply Qmult_le_0_compat; [exact H0|]. now apply Qlt_le_weak. }
  assert (Hx1 : (x < inject_Z (Z.of_nat n))%Q).
  { unfold x. rewrite <- (Qmult_1_l (inject_Z (Z.of_nat n))) at 2.
    apply Qmult_lt_compat_r; assumption. }
  assert (Hf0 : 0 <= Qfloor x).
  { change 0 with (Qfloor 0). now apply Qfloor_resp_le. }
  assert (Hf1 : Qfloor x < Z.of_nat n).
  { rewrite Zlt_Qlt. eapply Qle_lt_trans; [apply Qfloor_le|exact Hx1]. }
  exists (Z.to_nat (Qfloor x)).
  replace (0 <=? Qfloor x) with true by (symmetry; apply Z.leb_le; lia).
  replace (Qfloor x <? Z.of_nat n) with true by (symmetry; apply Z.ltb_lt; lia).
  split; [reflexivity|lia].
Qed.

(** For a draw of [Math.random()] in [[0, 1)], [get] fails with "No
    Moonshot keys available" exactly when no record passes the filter
    [!isDisabled], and then leaves the pool alone; otherwise it returns a
    value copy of the record at index [floor(rnd * n)] of the [n] records
    that are not disabled, in pool order. *)
Lemma get_spec model (rnd : Q) (now now' : Z) ks :
  (0 <= rnd)%Q -> (rnd < 1)%Q ->
  let out := get model rnd now now' ks in
  match fst out with
  | Ok copy =>
      exists i k0,
        random_index rnd (available ks) = Some i
        /\ availableKeys ks !! i = Some k0
        /\ In k0 ks /\ isDisabled k0 = false
        /\ key copy = key k0 /\ hash copy = hash k0
        /\ isDisabled copy = false /\ lastUsed copy = now
        /\ In copy (snd out)
  | Throw e => e = NoKeysAvailable /\ availableKeys ks = [] /\ snd out = ks
  end.
Proof.
  intros H0 H1. unfold get.
  pose proof (enabled_positions_length ks 0) as Hlen.
  destruct (enabled_positions 0 ks) as [|p0 ps] eqn:Ep.
  - simpl. repeat split; auto.
    unfold available in Hlen. simpl in Hlen.
    destruct (availableKeys ks); [reflexivity|discriminate].
  - assert (Hn : (0 < length (p0 :: ps))%nat) by (simpl; lia).
    destruct (random_index_in_range rnd _ H0 H1 Hn) as (i & Hi & Hlt).
    rewrite Hi.
    destruct (lookup_lt_is_Some_2 _ _ Hlt) as [pos Hpos]. rewrite Hpos.
    rewrite <- Ep in Hpos.
    destruct (enabled_positions_spec ks 0 i pos Hpos)
      as (j & k0 & Hj & Hk0 & Hd & Ha).
    simpl in Hj. subst j. clear Hn.
    assert (E1 : alter (setLastUsed now) pos ks !! pos = Some (setLastUsed now k0)).
    { rewrite list_lookup_alter. destruct (decide (pos = pos)); [|congruence].
      now rewrite Hk0. }
    rewrite E1, (throttle_lookup _ _ _ now' E1).
    set (ks1 := alter (setLastUsed now) pos ks) in *.
    set (ks2 := modify_first (has_hash (hash (setLastUsed now k0)))
                  (throttleKey now') ks1).
    assert (Hl2 : (pos < length ks2)%nat).
    { unfold ks2. rewrite modify_first_length.
      apply lookup_lt_Some in E1. exact E1. }
    destruct (lookup_lt_is_Some_2 _ _ Hl2) as [copy Hc]. rewrite Hc. simpl.
    exists i, k0. rewrite <- Hlen.
    assert (Hin0 : In k0 ks).
    { apply list_elem_of_In. eapply list_elem_of_lookup_2. exact Hk0. }
    assert (Hin : In copy ks2).
    { apply list_elem_of_In. eapply list_elem_of_lookup_2. exact Hc. }
    unfold ks2 in Hc.
    apply modify_first_lookup in Hc as (y & Hy & Hcopy).
    rewrite E1 in Hy. injection Hy as <-.
    destruct Hcopy as [-> | ->]; simpl; repeat split; auto.
Qed.

(** ** [get] against the selection policy of the specification *)



Definition recent_key : MoonshotKey :=
  {| key := "sk-1"; modelFamilies := ["moonshot"];
     isDisabled := false; isRevoked := false;
     promptCount := 7; lastUsed := 900; lastChecked := 0; hash := "h1";
     rateLimitedAt := 0; rateLimitedUntil := 0;
     tokenUsage := ∅; isOverQuota := false |}.

Definition idle_key : MoonshotKey :=
  {| key := "sk-2"; modelFamilies := ["moonshot"];
     isDisabled := false; isRevoked := false;
     promptCount := 1; lastUsed := 100; lastChecked := 0; hash := "h2";
     rateLimitedAt := 0; rateLimitedUntil := 0;
     tokenUsage := ∅; isOverQuota := false |}.





(** C2. The failing run: in a pool of two fresh keys, ["h1"] is marked
    rate-limited at time [t], which sets [rateLimitedUntil] to
    [t + RATE_LIMIT_LOCKOUT]; a [get] with the draw [0] at any later time,
    in particular inside the lockout, returns a copy of that same key,
    because the filter of [get] only reads [isDisabled]. *)
Theorem get_returns_rate_limited_key (t now now' : Z) :
  let ks := [twin "sk-1" "h1"; twin "sk-2" "h2"] in
  exists ks1 limited copy,
    markRateLimited "h1" t ks = Ok ks1
    /\ find (has_hash "h1") ks1 = Some limited
    /\ rateLimitedAt limited = t
    /\ rateLimitedUntil limited = t + RATE_LIMIT_LOCKOUT
    /\ fst (get "moonshot-v1-8k" 0 now now' ks1) = Ok copy
    /\ key copy = "sk-1" /\ hash copy = "h1"
    /\ rateLimitedUntil copy = Z.max (t + RATE_LIMIT_LOCKOUT) (now' + KEY_REUSE_DELAY).
Proof.
  intros ks. eexists. eexists. eexists.
  split; [reflexivity|]. split; [reflexivity|].
  repeat split; reflexivity.
Qed.

Example get_inside_lockout :
  exists ks1 copy,
    markRateLimited "h1" 1000 [twin "sk-1" "h1"; twin "sk-2" "h2"] = Ok ks1
    /\ fst (get "moonshot-v1-8k" 0 1500 1500 ks1) = Ok copy
    /\ hash copy = "h1" /\ rateLimitedUntil copy = 3000.
Proof. eexists. eexists. repeat split; reflexivity. Qed.

End KeyPool.

(* ===================================================================== *)
(** * Upstream error handlers ([proxy/middleware/response/index.ts]) *)
(* ===================================================================== *)

Module Response.
Import Js Arr.
Open Scope Z_scope.

(** ** Keys of the other providers as JavaScript objects

    The Anthropic and Google AI providers are not among the sources; their
    key records are open objects, modelled as finite maps from property
    names to values. *)

Inductive Value : Type :=
| VBool (b : bool)
| VNum (n : Z)
| VStr (s : string)
| VStrs (l : list string).

Definition Key : Type := gmap string Value.

Definition str_prop (o : Key) (name : string) : option string :=
  match o !! name with
  | Some (VStr s) => Some s
  | _ => None
  end.


(** [k.service === service && k.hash === hash]: the provider is chosen by
    [getKeyProvider(key.service)], the record by its hash. *)
Definition same_key (service hash : option string) (k : Key) : bool :=
  bool_decide (str_prop k "service" = service)
  && bool_decide (str_prop k "hash" = hash).

(** [Object.assign(key, patch)] *)
Definition assign (k patch : Key) : Key := patch ∪ k.

Section Pool.

(** [RATE_LIMIT_LOCKOUT] of the provider of a service. *)
Variable lockout : option string -> Z.

(** Modelled from the spec: [update(hash, patch)] of a provider that is not
    among the sources is a field-wise merge into the record with that
    hash, ignored if the hash is unknown.  [KeyPool.update(key, props)]
    routes it by [key.service] and [key.hash]. *)
Definition update (key patch : Key) (pool : list Key) : list Key :=
  modify_first (same_key (str_prop key "service") (str_prop key "hash"))
    (fun k => assign k patch) pool.

(** Modelled from the spec: [markRateLimited(key)] of a provider that is
    not among the sources sets [rateLimitedAt := now] and
    [rateLimitedUntil := now + RATE_LIMIT_LOCKOUT]. *)
Definition markRateLimited (key : Key) (now : Z) (pool : list Key) : list Key :=
  update key
    {[ "rateLimitedAt" := VNum now;
       "rateLimitedUntil" := VNum (now + lockout (str_prop key "service")) ]}
    pool.

Inductive Reason : Type := quota | revoked.

(** The providers for which [KeyPool.disable] also writes [isOverQuota]. *)
Definition keeps_isOverQuota (service : option string) : bool :=
  match service with
  | Some s =>
      existsb (String.eqb s)
        ["openai"; "anthropic"; "deepseek"; "xai"; "cohere"; "qwen"; "moonshot"]
  | None => false
  end.

(** Modelled from the spec: [disable(key)] of a provider that is not
    among the sources sets [isDisabled := true] on the record with the
    hash of the key. *)
Definition provider_disable (key : Key) (pool : list Key) : list Key :=
  update key {[ "isDisabled" := VBool true ]} pool.

(** [KeyPool.disable(key, reason)]: the provider's [disable], then
    [update] with [isRevoked], then, for the providers that keep it,
    [update] with [isOverQuota]. *)
Definition disable (key : Key) (reason : Reason) (pool : list Key) : list Key :=
  let pool1 := provider_disable key pool in
  let pool2 :=
    update key
      {[ "isRevoked" := VBool match reason with revoked => true | quota => false end ]}
      pool1 in
  if keeps_isOverQuota (str_prop key "service")
  then update key
         {[ "isOverQuota" := VBool match reason with quota => true | revoked => false end ]}
         pool2
  else pool2.

End Pool.

(** ** Requests and error payloads *)

(** [errorPayload.error]: the fields the handlers read, and [json], the
    text that [JSON.stringify(errorPayload.error)] gives. *)
Record ErrorBody : Type := mkError {
  status : option string;
  type : option string;
  message : option string;
  json : string;
}.

Record ErrorPayload : Type := mkPayload {
  error : option ErrorBody;
}.

Record Request : Type := mkRequest {
  req_key : option Key;              (* [req.key], a copy made by [get] *)
  body_model : option string;        (* [req.body?.model] *)
}.

(** How a handler ends. *)
Inductive Completion : Type :=
| Returned
| ThrewRetryableError (msg : string)
| ThrewTypeError.

(** What a handler leaves behind: the pool, the [proxy_note] it wrote on
    the payload, whether [reenqueueRequest(req)] was called, and how it
    ended. *)
Record Outcome : Type := mkOutcome {
  pool_after : list Key;
  proxy_note : option string;
  reenqueued : bool;
  completion : Completion;
}.

Definition quote : string := String "034" EmptyString.
Definition newline : string := String "010" EmptyString.

(** [`prompt must start with "\n\nHuman:" turn`] *)
Definition missing_preamble_prefix : string :=
  "prompt must start with " ++ quote ++ newline ++ newline ++ "Human:"
  ++ quote ++ " turn".

Definition matches_any (pats : list pattern) (s : string) : bool :=
  existsb (fun p => test p s) pats.

Definition isOverQuotaMsgs : list pattern :=
  [ anywhere (liti "usage blocked until");
    anywhere (liti "credit balance is too low");
    anywhere (liti "You will regain access on");
    anywhere (liti "reached your specified API usage limits") ].

Definition isDisabledMsgs : list pattern :=
  [ anywhere (liti "organization has been disabled");
    at_start (liti "operation not allowed");
    anywhere (liti "credential is only authorized for use with Claude Code") ].

Section Handlers.

Variable lockout : option string -> Z.

(** [keyPool.update(req.key!, props)] and its siblings read [key.service]:
    without a key they end in a [TypeError]. *)
Definition with_key (req : Request) (pool : list Key)
    (k : Key -> Outcome) : Outcome :=
  match req_key req with
  | Some key => k key
  | None => mkOutcome pool None false ThrewTypeError
  end.

(** [handleAnthropicAwsBadRequestError(req, errorPayload)] *)
Definition handleAnthropicAwsBadRequestError (req : Request)
    (errorPayload : ErrorPayload) (pool : list Key) : Outcome :=
  let msg := error errorPayload ≫= message in
  match error errorPayload, msg with
  | Some _, None =>
      (* [error?.message.startsWith]: [message] is undefined *)
      mkOutcome pool None false ThrewTypeError
  | _, _ =>
      let text := default "undefined" msg in
      let isMissingPreamble :=
        match msg with
        | Some m => startsWith m missing_preamble_prefix
        | None => false
        end in
      let isOverQuota :=
        match msg with
        | Some m => matches_any isOverQuotaMsgs m
        | None => false
        end in
      let isDisabled :=
        match msg with
        | Some m => matches_any isDisabledMsgs m
        | None => false
        end in
      if isMissingPreamble then
        with_key req pool (fun key =>
          mkOutcome (update key {[ "requiresPreamble" := VBool true ]} pool)
            None true
            (ThrewRetryableError "Claude request re-enqueued to add preamble."))
      else if isOverQuota then
        with_key req pool (fun key =>
          mkOutcome (disable key quota pool)
            (Some ("Assigned key has hit its spending limit. " ++ text))
            false Returned)
      else if isDisabled then
        with_key req pool (fun key =>
          mkOutcome (disable key revoked pool)
            (Some ("Assigned key has been disabled. (" ++ text ++ ")"))
            false Returned)
      else
        mkOutcome pool
          (Some ("Unrecognized error from the API. (" ++ text ++ ")"))
          false Returned
  end.







End Handlers.

(** ** Facts about the pool operations *)

Lemma assign_lookup_other (k patch : Key) (name : string) :
  patch !! name = None -> assign k patch !! name = k !! name.
Proof. intros H. unfold assign. now apply lookup_union_r. Qed.

Lemma assign_lookup_patch (k patch : Key) (name : string) v :
  patch !! name = Some v -> assign k patch !! name = Some v.
Proof. intros H. unfold assign. now apply lookup_union_Some_l. Qed.

Lemma same_key_assign s h (k patch : Key) :
  patch !! "service" = None -> patch !! "hash" = None ->
  same_key s h (assign k patch) = same_key s h k.
Proof.
  intros Hs Hh. unfold same_key, str_prop.
  now rewrite !assign_lookup_other by assumption.
Qed.

(** What [update] does to the record it finds, for a patch that carries
    neither [service] nor [hash]. *)
Lemma update_found (key patch : Key) pool r :
  patch !! "service" = None -> patch !! "hash" = None ->
  let mine := same_key (str_prop key "service") (str_prop key "hash") in
  find mine pool = Some r ->
  find mine (update key patch pool) = Some (assign r patch).
Proof.
  intros Hs Hh mine Hr. unfold update.
  apply (find_modify_first mine (fun k => assign k patch)); [exact Hr|].
  cbv beta. unfold mine. rewrite same_key_assign by assumption.
  apply find_some in Hr. unfold mine in Hr. tauto.
Qed.

Lemma update_keeps (key patch : Key) pool (name : string) :
  patch !! name = None ->
  map (fun k => k !! name) (update key patch pool)
  = map (fun k => k !! name) pool.
Proof.
  intros H. unfold update. apply modify_first_map.
  intros k. now apply assign_lookup_other.
Qed.

(** ** The missing-preamble error of Anthropic *)

Definition anthropic_key : Key :=
  {[ "service" := VStr "anthropic"; "hash" := VStr "a1";
     "modelFamilies" := VStrs ["claude"; "claude-opus"];
     "isDisabled" := VBool false; "isRevoked" := VBool false;
     "requiresPreamble" := VBool false ]}.

Definition missing_preamble_payload : ErrorPayload :=
  mkPayload (Some (mkError None (Some "invalid_request_error")
                     (Some (missing_preamble_prefix ++ " after system prompt"))
                     "{}")).

(** C7. When the message of the 400 error starts with
    [prompt must start with "\n\nHuman:" turn], the handler calls
    [keyPool.update(req.key, { requiresPreamble: true })], re-enqueues the
    request and ends with the retryable error: the record of the assigned
    key gets [requiresPreamble = true] and keeps every other property, and
    no record of the pool changes its [isDisabled]. *)
Theorem missing_preamble_marks_key_and_requeues
    (req : Request) (errorPayload : ErrorPayload) (pool : list Key)
    (key : Key) (err : ErrorBody) (m : string) :
  req_key req = Some key ->
  error errorPayload = Some err ->
  message err = Some m ->
  startsWith m missing_preamble_prefix = true ->
  let out := handleAnthropicAwsBadRequestError req errorPayload pool in
  let mine := same_key (str_prop key "service") (str_prop key "hash") in
  completion out
  = ThrewRetryableError "Claude request re-enqueued to add preamble."
  /\ reenqueued out = true
  /\ (forall r, find mine pool = Some r ->
        exists r', find mine (pool_after out) = Some r'
          /\ r' !! "requiresPreamble" = Some (VBool true)
          /\ forall name, name <> "requiresPreamble" -> r' !! name = r !! name)
  /\ map (fun k => k !! "isDisabled") (pool_after out)
     = map (fun k => k !! "isDisabled") pool
  /\ map (fun k => k !! "isRevoked") (pool_after out)
     = map (fun k => k !! "isRevoked") pool.
Proof.
  intros Hk He Hm Hp out mine. subst out mine.
  unfold handleAnthropicAwsBadRequestError, with_key.
  rewrite He. simpl. rewrite Hm, Hp, Hk. simpl.
  repeat split.
  - intros r Hr. eexists. split.
    + apply update_found; [reflexivity|reflexivity|exact Hr].
    + split.
      * apply assign_lookup_patch. reflexivity.
      * intros name Hn. apply assign_lookup_other.
        now apply lookup_singleton_ne.
  - apply update_keeps. reflexivity.
  - apply update_keeps. reflexivity.
Qed.

Lemma missing_preamble_marks_key_and_requeues_witness :
  let out := handleAnthropicAwsBadRequestError
               (mkRequest (Some anthropic_key) (Some "claude-2.1"))
               missing_preamble_payload [anthropic_key] in
  reenqueued out = true
  /\ map (fun k => k !! "isDisabled") (pool_after out) = [Some (VBool false)].
Proof.
  intros out.
  destruct (missing_preamble_marks_key_and_requeues
              (mkRequest (Some anthropic_key) (Some "claude-2.1"))
              missing_preamble_payload [anthropic_key] anthropic_key
              (mkError None (Some "invalid_request_error")
                 (Some (missing_preamble_prefix ++ " after system prompt")) "{}")
              (missing_preamble_prefix ++ " after system prompt")
              eq_refl eq_refl eq_refl eq_refl) as (_ & H1 & _ & H2 & _).
  subst out. split; [exact H1|]. rewrite H2. reflexivity.
Defined.

(** ** The per-family quota error of Google AI *)













End Response.

(* ===================================================================== *)
(** * The SSE message transformer
      ([proxy/middleware/response/streaming/sse-message-transformer.ts]) *)
(* ===================================================================== *)

Module Sse.
Import Js Models.
Open Scope Z_scope.

(** Modelled from the spec: the event types are declared outside the
    sources; an event is a record with the properties of an OpenAI
    [chat.completion.chunk], and events of other shapes have no [object]. *)
Record Delta : Type := mkDelta {
  role : option string;
  content : option string;
}.

Record Choice : Type := mkChoice {
  index : Z;
  delta : Delta;
  finish_reason : option string;
}.

Record Event : Type := mkEvent {
  id : string;
  object : option string;
  created : Z;
  model : string;
  choices : list Choice;
}.

(** The streaming transformers that [getTransformer] chooses from. *)
Inductive TransformerName : Type :=
| passthroughToOpenAI
| openAITextToOpenAIChat
| anthropicV1ToOpenAI
| anthropicV2ToOpenAI
| anthropicChatToAnthropicV2
| anthropicChatToOpenAI
| googleAIToOpenAI
| mistralAIToOpenAI
| mistralTextToMistralChat.

Definition is_api (a b : APIFormat) : bool :=
  match a, b with
  | api_openai, api_openai | api_openai_text, api_openai_text
  | api_openai_image, api_openai_image
  | api_openai_responses, api_openai_responses
  | api_anthropic_chat, api_anthropic_chat
  | api_anthropic_text, api_anthropic_text
  | api_google_ai, api_google_ai
  | api_mistral_ai, api_mistral_ai | api_mistral_text, api_mistral_text => true
  | _, _ => false
  end.

(** [getTransformer(responseApi, version, requestApi = "openai")]; [None]
    is the [Error] thrown for [openai-image]. *)
Definition getTransformer (responseApi : APIFormat) (version : option string)
    (requestApi : option APIFormat) : option TransformerName :=
  let requestApi := default api_openai requestApi in
  match responseApi with
  | api_openai => Some passthroughToOpenAI
  | api_openai_text => Some openAITextToOpenAIChat
  | api_anthropic_text =>
      Some (if bool_decide (version = Some "2023-01-01")
            then anthropicV1ToOpenAI else anthropicV2ToOpenAI)
  | api_anthropic_chat =>
      Some (if is_api requestApi api_anthropic_text
            then anthropicChatToAnthropicV2 else anthropicChatToOpenAI)
  | api_google_ai => Some googleAIToOpenAI
  | api_mistral_ai => Some mistralAIToOpenAI
  | api_mistral_text =>
      Some (if is_api requestApi api_mistral_ai
            then mistralTextToMistralChat else mistralAIToOpenAI)
  | api_openai_image => None
  | api_openai_responses => Some passthroughToOpenAI
  end.

(** [eventIsOpenAIEvent] *)
Definition eventIsOpenAIEvent (event : Event) : bool :=
  bool_decide (object event = Some "chat.completion.chunk").

Definition initial_delta : Delta :=
  {| role := Some "assistant"; content := Some "" |}.

(** [createInitialMessage] *)
Definition createInitialMessage (event : Event) : Event :=
  {| id := id event; object := object event; created := created event;
     model := model event;
     choices :=
       map (fun choice =>
              {| index := index choice; delta := initial_delta;
                 finish_reason := finish_reason choice |})
           (choices event) |}.

Section Transformer.

(** The aggregation state that the transformers thread through. *)
Variable State : Type.

(** The argument and the result of a [StreamingCompletionTransformer]. *)
Record Params : Type := mkParams {
  data : string;
  p_lastPosition : Z;
  p_index : nat;
  fallbackId : string;
  fallbackModel : string;
  p_state : option State;
}.

Record Transformed : Type := mkTransformed {
  event : option Event;
  position : Z;
  state : option State;
}.

(** The transformers themselves are outside the sources: [apply name
    params] is the result of the function of that name, [None] when it
    throws. *)
Variable apply : TransformerName -> Params -> option Transformed.

(** The fields of [SSEMessageTransformer]. *)
Record Transformer : Type := mkTransformer {
  lastPosition : Z;
  transformState : option State;
  msgCount : nat;
  inputFormat : APIFormat;
  transformFn : TransformerName;
  t_fallbackId : string;
  t_fallbackModel : string;
}.

(** The constructor; [None] when [getTransformer] throws. *)
Definition construct (requestedModel requestId : string)
    (inputFormat : APIFormat) (inputApiVersion : option string)
    (outputFormat : option APIFormat) : option Transformer :=
  match getTransformer inputFormat inputApiVersion outputFormat with
  | Some fn =>
      Some {| lastPosition := 0; transformState := None; msgCount := 0;
              inputFormat := inputFormat; transformFn := fn;
              t_fallbackId := requestId; t_fallbackModel := requestedModel |}
  | None => None
  end.

(** How [_transform] calls back. *)
Inductive Callback : Type :=
| Done
| Failed (lastEvent : string).

(** What one call of [_transform] emits: the ["originalMessage"] events,
    the events pushed downstream, and the callback. *)
Record Emitted : Type := mkEmitted {
  originalMessages : list string;
  pushed : list Event;
  callback : Callback;
}.

(** The argument that [_transform] hands to [transformFn]. *)
Definition params_of (t : Transformer) (chunk : string) : Params :=
  {| data := chunk; p_lastPosition := lastPosition t;
     p_index := msgCount t;
     fallbackId := t_fallbackId t; fallbackModel := t_fallbackModel t;
     p_state := transformState t |}.

(** [this.msgCount++] *)
Definition counted (t : Transformer) : Transformer :=
  {| lastPosition := lastPosition t; transformState := transformState t;
     msgCount := S (msgCount t);
     inputFormat := inputFormat t; transformFn := transformFn t;
     t_fallbackId := t_fallbackId t; t_fallbackModel := t_fallbackModel t |}.

(** [this.lastPosition = newPosition; this.transformState = state] *)
Definition advance (t : Transformer) (result : Transformed) : Transformer :=
  {| lastPosition := position result; transformState := state result;
     msgCount := S (msgCount t);
     inputFormat := inputFormat t; transformFn := transformFn t;
     t_fallbackId := t_fallbackId t; t_fallbackModel := t_fallbackModel t |}.

(** [_transform(chunk, _encoding, callback)] *)
Definition _transform (t : Transformer) (chunk : string)
  : Transformer * Emitted :=
  let originalMessage := chunk in
  match apply (transformFn t) (params_of t chunk) with
  | None => (counted t, mkEmitted [] [] (Failed chunk))
  | Some result =>
      let t' := advance t result in
      if is_api (inputFormat t') api_openai && (msgCount t' <=? 1)%nat
         && includes originalMessage "prompt_filter_results"
      then (t', mkEmitted [] [] Done)
      else
        match event result with
        | None => (t', mkEmitted [originalMessage] [] Done)
        | Some transformedMessage =>
            if (msgCount t' =? 1)%nat && eventIsOpenAIEvent transformedMessage
            then (t', mkEmitted [originalMessage]
                        [createInitialMessage transformedMessage;
                         transformedMessage] Done)
            else (t', mkEmitted [originalMessage] [transformedMessage] Done)
        end
  end.

(** The events pushed downstream for a sequence of upstream chunks; the
    stream ends at the first failure. *)
Fixpoint run (t : Transformer) (chunks : list string) : list Event :=
  match chunks with
  | [] => []
  | chunk :: rest =>
      let '(t', out) := _transform t chunk in
      match callback out with
      | Done => (pushed out ++ run t' rest)%list
      | Failed _ => pushed out
      end
  end.

(** The events that the transformer function alone gives for the chunks,
    nothing synthesized and nothing dropped. *)
Fixpoint transformed (t : Transformer) (chunks : list string) : list Event :=
  match chunks with
  | [] => []
  | chunk :: rest =>
      match apply (transformFn t) (params_of t chunk) with
      | None => []
      | Some result =>
          (match event result with Some ev => [ev] | None => [] end
           ++ transformed (advance t result) rest)%list
      end
  end.

(** ** The first-message rule *)

Lemma createInitialMessage_choices (ev : Event) :
  Forall (fun c => delta c = initial_delta) (choices (createInitialMessage ev))
  /\ map index (choices (createInitialMessage ev)) = map index (choices ev)
  /\ object (createInitialMessage ev) = object ev
  /\ id (createInitialMessage ev) = id ev
  /\ model (createInitialMessage ev) = model ev.
Proof.
  unfold createInitialMessage; simpl. repeat split.
  - induction (choices ev); simpl; constructor; auto.
  - induction (choices ev); simpl; congruence.
Qed.

(** After the first chunk nothing is synthesized and nothing is dropped. *)
Lemma later_chunks_are_plain (chunks : list string) : forall t,
  (1 <= msgCount t)%nat -> run t chunks = transformed t chunks.
Proof.
  induction chunks as [|chunk rest IH]; intros t Ht; simpl; [reflexivity|].
  unfold _transform.
  destruct (apply (transformFn t) (params_of t chunk)) as [result|];
    [|reflexivity].
  assert (H1 : (msgCount (advance t result) <=? 1)%nat = false).
  { apply Nat.leb_gt. simpl. lia. }
  assert (H2 : (msgCount (advance t result) =? 1)%nat = false).
  { apply Nat.eqb_neq. simpl. lia. }
  rewrite H1, H2, andb_false_r. simpl.
  assert (Hn : (1 <= msgCount (advance t result))%nat) by (simpl; lia).
  destruct (event result); simpl; now rewrite IH.
Qed.

(** C6, amended. On a fresh transformer, if the upstream format is
    [openai] and the first chunk contains [prompt_filter_results], the
    chunk is dropped: nothing is pushed and no ["originalMessage"] is
    emitted.  Otherwise an initial chunk, every choice of which has
    [delta = {role: "assistant", content: ""}], is synthesized exactly when
    the first chunk transforms to an event whose [object] is
    ["chat.completion.chunk"], and it is pushed right before that event,
    whatever the upstream dialect.  Every later chunk contributes its
    transformed event and nothing else. *)
Theorem first_message_rule (t : Transformer) (chunk : string)
    (rest : list string) (result : Transformed) :
  msgCount t = 0%nat ->
  apply (transformFn t) (params_of t chunk) = Some result ->
  let dropped :=
    is_api (inputFormat t) api_openai && includes chunk "prompt_filter_results" in
  let first :=
    if dropped then []
    else match event result with
         | None => []
         | Some ev =>
             if eventIsOpenAIEvent ev then [createInitialMessage ev; ev]
             else [ev]
         end in
  pushed (snd (_transform t chunk)) = first
  /\ (dropped = true -> snd (_transform t chunk) = mkEmitted [] [] Done)
  /\ run t (chunk :: rest) = (first ++ transformed (advance t result) rest)%list
  /\ (forall ev, In (createInitialMessage ev) first ->
        Forall (fun c => delta c = initial_delta)
               (choices (createInitialMessage ev))).
Proof.
  intros H0 Ha dropped first.
  assert (Hstep : _transform t chunk
                  = (advance t result,
                     if dropped then mkEmitted [] [] Done
                     else mkEmitted [chunk] first Done)).
  { unfold _transform. rewrite Ha. subst first dropped. simpl.
    rewrite H0. simpl. rewrite andb_true_r.
    destruct (is_api (inputFormat t) api_openai
              && includes chunk "prompt_filter_results"); [reflexivity|].
    destruct (event result) as [ev|]; [|reflexivity].
    destruct (eventIsOpenAIEvent ev); reflexivity. }
  assert (Hpushed : pushed (snd (_transform t chunk)) = first).
  { rewrite Hstep. simpl. subst first. destruct dropped; reflexivity. }
  split; [exact Hpushed|]. split; [|split].
  - intros Hd. rewrite Hstep. simpl. now rewrite Hd.
  - change (run t (chunk :: rest))
      with (let '(t', out) := _transform t chunk in
            match callback out with
            | Done => (pushed out ++ run t' rest)%list
            | Failed _ => pushed out
            end).
    rewrite Hstep.
    assert (Hc : callback (if dropped then mkEmitted [] [] Done
                           else mkEmitted [chunk] first Done) = Done)
      by (destruct dropped; reflexivity).
    rewrite Hc. rewrite Hstep in Hpushed. simpl in Hpushed. rewrite Hpushed.
    f_equal. apply later_chunks_are_plain. simpl. lia.
  - intros ev _. apply createInitialMessage_choices.
Qed.

End Transformer.

Arguments mkParams {State}.
Arguments data {State}.
Arguments mkTransformed {State}.
Arguments event {State}.
Arguments position {State}.
Arguments state {State}.
Arguments mkTransformer {State}.
Arguments lastPosition {State}.
Arguments transformState {State}.
Arguments msgCount {State}.
Arguments inputFormat {State}.
Arguments transformFn {State}.
Arguments construct {State}.
Arguments _transform {State}.
Arguments run {State}.
Arguments transformed {State}.
Arguments params_of {State}.
Arguments advance {State}.

(** ** Two concrete streams *)

Definition q (s : string) : string := String "034" s ++ String "034" "".

Definition role_event : Event :=
  {| id := "chatcmpl-1"; object := Some "chat.completion.chunk";
     created := 1700000000; model := "gpt-4o";
     choices := [mkChoice 0 initial_delta None] |}.

Definition hello_event : Event :=
  {| id := "msg-1"; object := Some "chat.completion.chunk";
     created := 1700000000; model := "claude-3-5-sonnet-20241022";
     choices := [mkChoice 0 (mkDelta None (Some "Hel")) None] |}.

(** The first event of an OpenAI upstream: the role-only chunk. *)
Definition role_chunk : string :=
  "data: {" ++ q "object" ++ ":" ++ q "chat.completion.chunk" ++ ","
  ++ q "choices" ++ ":[{" ++ q "delta" ++ ":{" ++ q "role" ++ ":"
  ++ q "assistant" ++ "," ++ q "content" ++ ":" ++ q "" ++ "}}]}".

Definition message_start_chunk : string :=
  "event: message_start" ++ String "010" ("data: {" ++ q "type" ++ ":"
  ++ q "message_start" ++ "}").

Definition content_delta_chunk : string :=
  "event: content_block_delta" ++ String "010" ("data: {" ++ q "type" ++ ":"
  ++ q "content_block_delta" ++ "," ++ q "text" ++ ":" ++ q "Hel" ++ "}").

(** The transformer functions on the chunks above: the passthrough gives
    the upstream chunk as an event; the Anthropic transformer gives no
    event for [message_start] and a content chunk for
    [content_block_delta]. *)
Definition on_examples (name : TransformerName) (p : Params unit)
  : option (Transformed unit) :=
  match name with
  | passthroughToOpenAI =>
      if String.eqb (data p) role_chunk
      then Some (mkTransformed (Some role_event) (-1) None)
      else Some (mkTransformed None (-1) None)
  | anthropicChatToOpenAI =>
      if String.eqb (data p) content_delta_chunk
      then Some (mkTransformed (Some hello_event) (-1) None)
      else Some (mkTransformed None (-1) None)
  | _ => None
  end.

Definition fresh (upstream : APIFormat) (fn : TransformerName)
  : Transformer unit :=
  {| lastPosition := 0; transformState := None; msgCount := 0;
     inputFormat := upstream; transformFn := fn;
     t_fallbackId := "req-1"; t_fallbackModel := "gpt-4o" |}.

(** C6, as stated, fails in both directions.  An OpenAI upstream emits the
    role-only first event itself, and the transformer still synthesizes
    one before it, so the client gets two.  An Anthropic upstream does not
    emit it, its first chunk transforms to no event, and nothing is
    synthesized before the first content event. *)
Lemma initial_chunk_not_tied_to_upstream_dialect :
  construct (State := unit) "gpt-4o" "req-1" api_openai None None
  = Some (fresh api_openai passthroughToOpenAI)
  /\ Forall (fun c => delta c = initial_delta) (choices role_event)
  /\ run on_examples (fresh api_openai passthroughToOpenAI) [role_chunk]
     = [createInitialMessage role_event; role_event]
  /\ createInitialMessage role_event = role_event
  /\ construct (State := unit) "gpt-4o" "req-1" api_anthropic_chat None (Some api_openai)
     = Some (fresh api_anthropic_chat anthropicChatToOpenAI)
  /\ run on_examples (fresh api_anthropic_chat anthropicChatToOpenAI)
       [message_start_chunk; content_delta_chunk]
     = [hello_event]
  /\ ~ Forall (fun c => delta c = initial_delta) (choices hello_event).
Proof.
  split; [reflexivity|]. split; [repeat constructor|].
  split; [vm_compute; reflexivity|]. split; [reflexivity|].
  split; [reflexivity|]. split; [vm_compute; reflexivity|].
  intros H. apply Forall_inv in H. discriminate H.
Qed.

Lemma first_message_rule_witness :
  run on_examples (fresh api_openai passthroughToOpenAI)
      [role_chunk; "data: [DONE]"]
  = [createInitialMessage role_event; role_event].
Proof.
  destruct (first_message_rule unit on_examples
              (fresh api_openai passthroughToOpenAI) role_chunk
              ["data: [DONE]"]
              (mkTransformed (Some role_event) (-1) None)
              eq_refl eq_refl) as (_ & _ & H & _).
  rewrite H. vm_compute. reflexivity.
Defined.

End Sse.

(* ===================================================================== *)
(** * The cached info document ([service-info.ts]) *)
(* ===================================================================== *)

Module ServiceInfo.
Open Scope Z_scope.

Definition CACHE_TTL : Z := 2000.

Section BuildInfo.

(** What the document is computed from: the key pool, the queue
    statistics, the configuration and the process uptime, as they stand
    when [buildInfo] runs. *)
Variable World : Type.

(** [ServiceInfo], the document. *)
Variable Info : Type.

(** The body of [buildInfo] below the cache test: the document for
    [baseUrl] and [forAdmin] in a given world.  It reads the key pool, the
    queue and the configuration through helpers of other modules, and
    neither it nor its helpers assign [cacheTime]. *)
Variable compute : World -> string -> bool -> Info.

(** The module variables [cachedInfo] and [cacheTime]. *)
Record Cache : Type := mkCache {
  cachedInfo : option Info;
  cacheTime : Z;
}.

(** [let cachedInfo; let cacheTime = 0;] *)
Definition initial : Cache := {| cachedInfo := None; cacheTime := 0 |}.

(** [buildInfo(baseUrl, forAdmin)] at time [now]: the value returned
    ([None] for [undefined]) and the module variables after the call.  The
    only assignment of the function is the one to [cachedInfo]. *)
Definition buildInfo (baseUrl : string) (forAdmin : bool) (now : Z)
    (w : World) (c : Cache) : option Info * Cache :=
  if cacheTime c + CACHE_TTL >? now then (cachedInfo c, c)
  else
    let info := compute w baseUrl forAdmin in
    (Some info, {| cachedInfo := Some info; cacheTime := cacheTime c |}).

(** The states of the module variables that calls of [buildInfo] reach. *)
Inductive reachable : Cache -> Prop :=
| reach_initial : reachable initial
| reach_call baseUrl forAdmin now w c :
    reachable c -> reachable (snd (buildInfo baseUrl forAdmin now w c)).

Lemma cacheTime_never_set (c : Cache) : reachable c -> cacheTime c = 0.
Proof.
  induction 1 as [|baseUrl forAdmin now w c Hc IH]; [reflexivity|].
  unfold buildInfo. destruct (cacheTime c + CACHE_TTL >? now); simpl; exact IH.
Qed.

(** From 2 s after the epoch on, every call computes a fresh document. *)
Lemma buildInfo_always_recomputes baseUrl forAdmin now w c :
  reachable c -> CACHE_TTL <= now ->
  fst (buildInfo baseUrl forAdmin now w c) = Some (compute w baseUrl forAdmin).
Proof.
  intros Hc Hnow. unfold buildInfo. rewrite (cacheTime_never_set c Hc).
  replace (0 + CACHE_TTL >? now) with false; [reflexivity|].
  symmetry. rewrite Z.gtb_ltb. apply Z.ltb_ge. lia.
Qed.

(** C10. The failing run: a first call at [t0 = 1700000000000] ms computes
    and stores a document; a second call 500 ms later, well inside the
    2000 ms of [CACHE_TTL], with the world changed in between, does not
    return the stored document but computes a new one, because
    [cacheTime] is still [0]. *)
Theorem buildInfo_recomputes_within_ttl (w0 w1 : World) (baseUrl : string)
    (forAdmin : bool) :
  let t0 := 1700000000000 in
  let t := t0 + 500 in
  let first := buildInfo baseUrl forAdmin t0 w0 initial in
  let second := buildInfo baseUrl forAdmin t w1 (snd first) in
  fst first = Some (compute w0 baseUrl forAdmin)
  /\ cachedInfo (snd first) = Some (compute w0 baseUrl forAdmin)
  /\ cacheTime (snd first) = 0
  /\ t < t0 + CACHE_TTL
  /\ fst second = Some (compute w1 baseUrl forAdmin)
  /\ cachedInfo (snd second) = Some (compute w1 baseUrl forAdmin).
Proof. cbv zeta. unfold buildInfo, CACHE_TTL. simpl. repeat split. Qed.

End BuildInfo.

(** With the number of prompts served as the world and as the document,
    the second call returns 12, not the 10 stored half a second before. *)
Example buildInfo_serves_new_count :
  let first := buildInfo Z Z (fun w _ _ => w) "https://proxy" false
                 1700000000000 10 (initial Z) in
  let second := buildInfo Z Z (fun w _ _ => w) "https://proxy" false
                  1700000000500 12 (snd first) in
  cachedInfo Z (snd first) = Some 10 /\ fst second = Some 12.
Proof. split; reflexivity. Qed.

End ServiceInfo.

(* ===================================================================== *)
(** * The registry of model families
      ([shared/models.ts]) *)
(* ===================================================================== *)

Module ModelFamilies.
Import Js Models.

(** [MODEL_FAMILIES] *)
Definition MODEL_FAMILIES : list ModelFamily :=
  [ "qwen"; "cohere"; "xai"; "deepseek"; "turbo"; "gpt4"; "gpt4-32k";
    "gpt4-turbo"; "gpt4o"; "gpt45"; "gpt41"; "gpt41-mini"; "gpt41-nano";
    "o1"; "o1-mini"; "o1-pro"; "o3-pro"; "o3-mini"; "o3"; "o4-mini";
    "codex-mini"; "dall-e"; "gpt-image"; "claude"; "claude-opus";
    "gemini-flash"; "gemini-pro"; "gemini-ultra"; "mistral-tiny";
    "mistral-small"; "mistral-medium"; "mistral-large"; "aws-claude";
    "aws-claude-opus"; "aws-mistral-tiny"; "aws-mistral-small";
    "aws-mistral-medium"; "aws-mistral-large"; "gcp-claude";
    "gcp-claude-opus"; "azure-turbo"; "azure-gpt4"; "azure-gpt4-32k";
    "azure-gpt4-turbo"; "azure-gpt4o"; "azure-gpt45"; "azure-gpt41";
    "azure-gpt41-mini"; "azure-gpt41-nano"; "azure-dall-e"; "azure-o1";
    "azure-o1-mini"; "azure-o1-pro"; "azure-o3-pro"; "azure-o3-mini";
    "azure-o3"; "azure-o4-mini"; "azure-codex-mini"; "azure-gpt-image" ].

(** [MODEL_FAMILY_SERVICE], in source order. *)
Definition MODEL_FAMILY_SERVICE : list (ModelFamily * LLMService) :=
  [ ("qwen", qwen); ("cohere", cohere); ("xai", xai); ("deepseek", deepseek);
    ("turbo", openai); ("gpt4", openai); ("gpt4-turbo", openai);
    ("gpt4-32k", openai); ("gpt4o", openai); ("gpt45", openai);
    ("gpt41", openai); ("gpt41-mini", openai); ("gpt41-nano", openai);
    ("o1", openai); ("o1-mini", openai); ("o1-pro", openai);
    ("o3-pro", openai); ("o3-mini", openai); ("o3", openai);
    ("o4-mini", openai); ("codex-mini", openai); ("dall-e", openai);
    ("gpt-image", openai); ("claude", anthropic); ("claude-opus", anthropic);
    ("aws-claude", aws); ("aws-claude-opus", aws); ("aws-mistral-tiny", aws);
    ("aws-mistral-small", aws); ("aws-mistral-medium", aws);
    ("aws-mistral-large", aws); ("gcp-claude", gcp); ("gcp-claude-opus", gcp);
    ("azure-turbo", azure); ("azure-gpt4", azure); ("azure-gpt4-32k", azure);
    ("azure-gpt4-turbo", azure); ("azure-gpt4o", azure); ("azure-gpt45", azure);
    ("azure-gpt41", azure); ("azure-gpt41-mini", azure);
    ("azure-gpt41-nano", azure); ("azure-dall-e", azure); ("azure-o1", azure);
    ("azure-o1-mini", azure); ("azure-o1-pro", azure); ("azure-o3-pro", azure);
    ("azure-o3-mini", azure); ("azure-o3", azure); ("azure-o4-mini", azure);
    ("azure-codex-mini", azure); ("azure-gpt-image", azure);
    ("gemini-flash", google_ai); ("gemini-pro", google_ai);
    ("gemini-ultra", google_ai); ("mistral-tiny", mistral_ai);
    ("mistral-small", mistral_ai); ("mistral-medium", mistral_ai);
    ("mistral-large", mistral_ai) ].

(** [MODEL_FAMILIES.includes(modelFamily)]: [assertIsKnownModelFamily]
    throws exactly when this is [false]. *)
Definition isKnownModelFamily (modelFamily : string) : bool :=
  existsb (String.eqb modelFamily) MODEL_FAMILIES.

(** [MODEL_FAMILY_SERVICE[family]] *)
Fixpoint serviceOfFamily_in (table : list (ModelFamily * LLMService))
    (family : ModelFamily) : option LLMService :=
  match table with
  | [] => None
  | (f, s) :: rest =>
      if String.eqb f family then Some s else serviceOfFamily_in rest family
  end.

Definition serviceOfFamily (family : ModelFamily) : option LLMService :=
  serviceOfFamily_in MODEL_FAMILY_SERVICE family.

(** A known family that [MODEL_FAMILY_SERVICE] gives to service [s]. *)
Definition known_as (s : LLMService) (f : ModelFamily) : Prop :=
  isKnownModelFamily f = true /\ serviceOfFamily f = Some s.

Lemma known_as_In (s : LLMService) (l : list ModelFamily) (f : ModelFamily) :
  Forall (known_as s) l -> In f l -> known_as s f.
Proof. intros H Hin. rewrite List.Forall_forall in H. now apply H. Qed.

Lemma known_openai model : known_as openai (getOpenAIModelFamily model "gpt4").
Proof.
  unfold getOpenAIModelFamily.
  destruct (first_match OPENAI_MODEL_FAMILY_MAP model) as [f|] eqn:E;
    [|split; vm_compute; reflexivity].
  apply first_match_In in E.
  apply (known_as_In openai (map snd OPENAI_MODEL_FAMILY_MAP)); [|exact E].
  unfold OPENAI_MODEL_FAMILY_MAP. cbn [map snd].
  repeat (apply Forall_cons; split; [split; vm_compute; reflexivity|]).
  apply Forall_nil_2.
Qed.

Lemma known_azure model :
  known_as azure (getAzureOpenAIModelFamily model "azure-gpt4").
Proof.
  unfold getAzureOpenAIModelFamily.
  destruct (first_match OPENAI_MODEL_FAMILY_MAP _) as [f|] eqn:E;
    [|split; vm_compute; reflexivity].
  apply first_match_In in E.
  apply (known_as_In azure
           (map (fun f => "azure-" ++ f) (map snd OPENAI_MODEL_FAMILY_MAP)));
    [|now apply in_map].
  unfold OPENAI_MODEL_FAMILY_MAP. cbn [map snd].
  repeat (apply Forall_cons; split; [split; vm_compute; reflexivity|]).
  apply Forall_nil_2.
Qed.

Lemma known_claude model : known_as anthropic (getClaudeModelFamily model).
Proof.
  unfold getClaudeModelFamily.
  destruct (includes model "opus"); split; vm_compute; reflexivity.
Qed.

Lemma known_gcp model : known_as gcp (getGcpModelFamily model).
Proof.
  unfold getGcpModelFamily.
  destruct (includes model "opus"); split; vm_compute; reflexivity.
Qed.

Lemma known_google model : known_as google_ai (getGoogleAIModelFamily model).
Proof.
  unfold getGoogleAIModelFamily.
  destruct (includes model "ultra" && negb (includes model "imagen"));
    [split; vm_compute; reflexivity|].
  destruct (includes model "flash"); split; vm_compute; reflexivity.
Qed.

Lemma one_of_In s l : one_of s l = true -> In s l.
Proof.
  unfold one_of. intros H. apply existsb_exists in H as (x & Hx & E).
  apply String.eqb_eq in E. now subst.
Qed.

Lemma getMistralAIModelFamily_cases model :
  In (getMistralAIModelFamily model)
     ["mistral-tiny"; "mistral-small"; "mistral-medium"; "mistral-large"].
Proof.
  unfold getMistralAIModelFamily.
  set (pruned := strip_suffix mistral_version_suffix model).
  destruct (one_of pruned _) eqn:E; [exact (one_of_In _ _ E)|].
  repeat match goal with
         | |- context [if one_of pruned ?l then _ else _] =>
             destruct (one_of pruned l)
         end; cbn [In]; auto 6.
Qed.

Lemma known_mistral model : known_as mistral_ai (getMistralAIModelFamily model).
Proof.
  pose proof (getMistralAIModelFamily_cases model) as H. cbn [In] in H.
  destruct H as [<-|[<-|[<-|[<-|[]]]]]; split; vm_compute; reflexivity.
Qed.

Lemma known_aws model : known_as aws (getAwsBedrockModelFamily model).
Proof.
  unfold getAwsBedrockModelFamily.
  destruct (existsb (includes model) ["claude"; "anthropic"]).
  - unfold getClaudeModelFamily.
    destruct (includes (deAwsify model) "opus"); split; vm_compute; reflexivity.
  - destruct (includes model "tral"); [|split; vm_compute; reflexivity].
    pose proof (getMistralAIModelFamily_cases (deAwsify model)) as H.
    cbn [In] in H.
    destruct H as [<-|[<-|[<-|[<-|[]]]]]; split; vm_compute; reflexivity.
Qed.

(** X1. The queue partition of a request.  When [req.modelFamily] is not
    yet set, [getModelFamilyForRequest] returns a family that
    [assertIsKnownModelFamily] accepts, whatever the model name is, and
    [MODEL_FAMILY_SERVICE] gives that family to the service of the request
    for AWS, GCP, Azure and Qwen, to DeepSeek for a DeepSeek request in an
    OpenAI chat, text or image format, and otherwise to the service that
    owns the outbound format: OpenAI, Anthropic, Google AI or Mistral, and
    never xAI or Cohere. *)
Theorem requested_family_is_known (req : Request) :
  truthy (modelFamily req) = false ->
  let family := fst (getModelFamilyForRequest req) in
  isKnownModelFamily family = true
  /\ serviceOfFamily family
     = Some match service req with
            | aws => aws
            | gcp => gcp
            | azure => azure
            | qwen => qwen
            | other =>
                match outboundApi req with
                | api_anthropic_chat | api_anthropic_text => anthropic
                | api_openai | api_openai_text | api_openai_image =>
                    match other with deepseek => deepseek | _ => openai end
                | api_openai_responses => openai
                | api_google_ai => google_ai
                | api_mistral_ai | api_mistral_text => mistral_ai
                end
            end.
Proof.
  intros Hm family. subst family. unfold getModelFamilyForRequest.
  rewrite Hm. cbn [fst]. unfold computeModelFamily.
  set (model := default "gpt-3.5-turbo" (body_model req)).
  destruct (service req); destruct (outboundApi req); cbv iota;
    lazymatch goal with
    | |- context [getAwsBedrockModelFamily] => apply known_aws
    | |- context [getGcpModelFamily] => apply known_gcp
    | |- context [getAzureOpenAIModelFamily] => apply known_azure
    | |- context [getClaudeModelFamily] => apply known_claude
    | |- context [getOpenAIModelFamily] => apply known_openai
    | |- context [getGoogleAIModelFamily] => apply known_google
    | |- context [getMistralAIModelFamily] => apply known_mistral
    | _ => split; vm_compute; reflexivity
    end.
Qed.

Lemma requested_family_is_known_witness :
  serviceOfFamily
    (fst (getModelFamilyForRequest
            (mkRequest None (Some "anthropic.claude-3-opus-20240229-v1:0") aws
               api_anthropic_chat)))
  = Some aws.
Proof.
  apply (requested_family_is_known
           (mkRequest None (Some "anthropic.claude-3-opus-20240229-v1:0") aws
              api_anthropic_chat)).
  reflexivity.
Defined.

(** ** Azure deployment names *)

Lemma replace_absent (s pat rep : string) :
  includes s pat = false -> replace s pat rep = s.
Proof.
  induction s as [|c s IH].
  - change (includes "" pat) with (String.prefix pat "" || false).
    intros H. apply orb_false_elim in H as [H _].
    change (replace "" pat rep)
      with (if String.prefix pat "" then rep ++ drop (String.length pat) ""
            else ""). now rewrite H.
  - change (includes (String c s) pat)
      with (String.prefix pat (String c s) || includes s pat).
    intros H. apply orb_false_elim in H as [Hp Hi].
    change (replace (String c s) pat rep)
      with (if String.prefix pat (String c s)
            then rep ++ drop (String.length pat) (String c s)
            else String c (replace s pat rep)).
    rewrite Hp. now rewrite IH.
Qed.

Lemma replace_unfold (s pat rep : string) :
  replace s pat rep
  = if String.prefix pat s then rep ++ drop (String.length pat) s
    else match s with
         | EmptyString => EmptyString
         | String c s' => String c (replace s' pat rep)
         end.
Proof. destruct s; reflexivity. Qed.

Lemma drop_append (pat s : string) : drop (String.length pat) (pat ++ s) = s.
Proof. induction pat as [|c pat IH]; [reflexivity|exact IH]. Qed.

Lemma replace_at_head (pat s rep : string) :
  replace (pat ++ s) pat rep = rep ++ s.
Proof.
  rewrite replace_unfold.
  replace (String.prefix pat (pat ++ s)) with true
    by (symmetry; apply prefix_iff; eauto).
  now rewrite drop_append.
Qed.

(** A pattern anchored at the start is dead on every subject that starts
    with [w] when its derivatives along [w] end in [Void] and, unless the
    pattern is also anchored at the end, never accept on the way. *)
Fixpoint dead_along (w : string) (r : regex) (e : bool) : bool :=
  match w with
  | EmptyString => match r with Void => true | _ => false end
  | String c w' => (e || negb (nullable r)) && dead_along w' (deriv c r) e
  end.

Lemma dead_along_test w : forall r e s,
  dead_along w r e = true -> test (Pattern true r e) (w ++ s) = false.
Proof.
  induction w as [|c w IH]; intros r e s H.
  - simpl in H. destruct r; try discriminate. apply test_bol_Void.
  - simpl in H. apply andb_prop in H as [Hn Hd].
    rewrite append_cons. specialize (IH _ _ s Hd).
    unfold test in *. simpl in *. destruct e; simpl in *; [exact IH|].
    rewrite IH. apply negb_true_iff in Hn. now rewrite Hn.
Qed.

Definition dead_pattern (w : string) (p : pattern) : bool :=
  bol p && dead_along w (body p) (eol p).

Lemma first_match_skip w s (pre rest : list (pattern * ModelFamily)) :
  forallb (fun e => dead_pattern w (fst e)) pre = true ->
  first_match (pre ++ rest)%list (w ++ s) = first_match rest (w ++ s).
Proof.
  induction pre as [|[p f] pre IH]; simpl; [reflexivity|].
  intros H. apply andb_prop in H as [Hd Hr].
  unfold dead_pattern in Hd. apply andb_prop in Hd as [Hb Hd]. simpl in Hb, Hd.
  destruct p as [b r e]. simpl in *. subst b.
  rewrite (dead_along_test w r e s Hd). now apply IH.
Qed.

Lemma first_match_cons p f rest s :
  first_match ((p, f) :: rest) s
  = if test p s then Some f else first_match rest s.
Proof. reflexivity. Qed.

Lemma test_at_start_prefix r w rest :
  accepts r w = true -> test (Pattern true r false) (w ++ rest) = true.
Proof.
  intros H. apply test_spec. exists "", w, rest.
  rewrite append_nil_l. repeat split; try discriminate.
  now apply accepts_lang.
Qed.

(** X2. Azure deployment names.  [addAzureKey] prefixes the model with
    ["azure-"]; for such a name that does not contain ["gpt-35-turbo"],
    [getAzureOpenAIModelFamily] returns ["azure-"] followed by the family
    that [getOpenAIModelFamily] gives the unprefixed name.  Azure's
    spelling ["gpt-35-turbo"] at the head of the deployment name is read
    as ["gpt-3.5-turbo"], so every such deployment is in the family
    ["azure-turbo"]. *)
Theorem azure_family_follows_openai :
  (forall model,
     includes model "gpt-35-turbo" = false ->
     getAzureOpenAIModelFamily ("azure-" ++ model) "azure-gpt4"
     = "azure-" ++ getOpenAIModelFamily model "gpt4")
  /\ (forall rest,
        getAzureOpenAIModelFamily ("azure-gpt-35-turbo" ++ rest) "azure-gpt4"
        = "azure-turbo"
        /\ getOpenAIModelFamily ("gpt-3.5-turbo" ++ rest) "gpt4" = "turbo").
Proof.
  split.
  - intros model H. unfold getAzureOpenAIModelFamily, getOpenAIModelFamily.
    assert (E1 : replace ("azure-" ++ model) "gpt-35-turbo" "gpt-3.5-turbo"
                 = "azure-" ++ model).
    { apply replace_absent.
      change (includes ("azure-" ++ model) "gpt-35-turbo")
        with (includes model "gpt-35-turbo"). exact H. }
    rewrite E1, replace_at_head, append_nil_l.
    destruct (first_match OPENAI_MODEL_FAMILY_MAP model); reflexivity.
  - intros rest.
    assert (E : first_match OPENAI_MODEL_FAMILY_MAP ("gpt-3.5-turbo" ++ rest)
                = Some "turbo").
    { change OPENAI_MODEL_FAMILY_MAP
        with (firstn 16 OPENAI_MODEL_FAMILY_MAP
              ++ skipn 16 OPENAI_MODEL_FAMILY_MAP)%list.
      change ("gpt-3.5-turbo" ++ rest) with ("gpt-3" ++ (".5-turbo" ++ rest)).
      rewrite first_match_skip by (vm_compute; reflexivity).
      set (table := skipn 16 OPENAI_MODEL_FAMILY_MAP).
      vm_compute in table. subst table.
      rewrite first_match_cons.
      change ("gpt-3" ++ (".5-turbo" ++ rest)) with ("gpt-3.5-turbo" ++ rest).
      rewrite test_at_start_prefix by (vm_compute; reflexivity).
      reflexivity. }
    split.
    + unfold getAzureOpenAIModelFamily.
      change (replace ("azure-gpt-35-turbo" ++ rest) "gpt-35-turbo"
                "gpt-3.5-turbo")
        with ("azure-" ++ replace ("gpt-35-turbo" ++ rest) "gpt-35-turbo"
                            "gpt-3.5-turbo").
      rewrite replace_at_head, replace_at_head, append_nil_l.
      now rewrite E.
    + unfold getOpenAIModelFamily. now rewrite E.
Qed.

End ModelFamilies.

(* ===================================================================== *)
(** * The window of a model
      ([proxy/middleware/request/preprocessors/validate-context-size.ts]) *)
(* ===================================================================== *)

Module ContextWindow.
Import Js Models ValidateContextSize.
Open Scope Z_scope.

(** ** The model windows *)

Lemma first_limit_In table m n :
  first_limit table m = Some n -> In n (map snd table).
Proof.
  induction table as [|[re k] rest IH]; simpl; [discriminate|].
  destruct (test re m); [intros [= <-]; now left|auto].
Qed.

Lemma modelMax_range (m : string) : 8192 <= modelMax m <= 1024000.
Proof.
  unfold modelMax.
  destruct (first_limit MODEL_MAX_TABLE m) as [n|] eqn:E; simpl; [|lia].
  apply first_limit_In in E.
  assert (H : Forall (fun n => 8192 <= n <= 1024000) (map snd MODEL_MAX_TABLE)).
  { unfold MODEL_MAX_TABLE, MISTRAL_AI_MAX_CONTENT. simpl map.
    repeat (apply List.Forall_cons; [lia|]). apply List.Forall_nil. }
  rewrite List.Forall_forall in H. now apply H.
Qed.

(** X3. Whatever the model name, the deployment limits and the type of the
    user, a request that [validateContextSize] validates has token counts
    of at least 1 whose sum is within the window of its model, and that
    window is between 8192 and 1024000 tokens: no context of more than
    1024000 tokens is ever validated, not even for a special user. *)
Theorem validated_context_fits_a_model_window (cfg : Config) (req : Request)
    (info : TokenizerInfo) :
  validateContextSize cfg req = Validated info ->
  promptTokens req = Some (prompt_tokens info)
  /\ outputTokens req = Some (completion_tokens info)
  /\ 1 <= prompt_tokens info /\ 1 <= completion_tokens info
  /\ max_model_tokens info = modelMax (model req)
  /\ prompt_tokens info + completion_tokens info <= max_model_tokens info
  /\ prompt_tokens info + completion_tokens info <= max_proxy_tokens info
  /\ 8192 <= max_model_tokens info <= 1024000.
Proof.
  unfold validateContextSize, assertRequestHasTokenCounts.
  destruct (promptTokens req) as [p|]; [|discriminate].
  destruct (outputTokens req) as [o|]; [|discriminate].
  destruct (Z.leb_spec 1 p) as [Hp|]; [|discriminate].
  destruct (Z.leb_spec 1 o) as [Ho|]; [|discriminate].
  simpl.
  destruct (deploymentLimit cfg (outboundApi req)) as [limit|]; [|discriminate].
  cbv zeta.
  destruct (Z.leb_spec (p + o)
              (Z.min (effectiveProxyMax limit (userIsSpecial req))
                 (modelMax (model req)))) as [Hle|]; [|discriminate].
  intros [= <-]. simpl.
  pose proof (modelMax_range (model req)).
  repeat split; auto; lia.
Qed.

Lemma validated_context_fits_a_model_window_witness :
  prompt_tokens (mkInfo 50000 1000 128000 MAX_SAFE_INTEGER)
  + completion_tokens (mkInfo 50000 1000 128000 MAX_SAFE_INTEGER)
  <= max_model_tokens (mkInfo 50000 1000 128000 MAX_SAFE_INTEGER).
Proof.
  destruct (validated_context_fits_a_model_window small_deployment
              special_request (mkInfo 50000 1000 128000 MAX_SAFE_INTEGER))
    as (_ & _ & _ & _ & _ & H & _).
  - vm_compute. reflexivity.
  - exact H.
Defined.

End ContextWindow.

(* ===================================================================== *)
(** * The Moonshot key pool at work
      ([shared/key-management/moonshot/provider.ts], [shared/key-management/key-pool.ts]) *)
(* ===================================================================== *)

Module MoonshotPool.
Import Js Models Arr KeyPool.
Open Scope Z_scope.

(** ** What [get] leaves alone *)

Lemma alter_map {B : Type} (proj : MoonshotKey -> B) (f : MoonshotKey -> MoonshotKey)
    (ks : list MoonshotKey) :
  (forall k, proj (f k) = proj k) ->
  forall pos, map proj (alter f pos ks) = map proj ks.
Proof.
  intros Hf. induction ks as [|k ks IH]; intros [|pos]; simpl; try reflexivity.
  - now rewrite Hf.
  - f_equal. apply IH.
Qed.

Lemma Forall2_same (R : MoonshotKey -> MoonshotKey -> Prop)
    (ks : list MoonshotKey) :
  (forall k, R k k) -> Forall2 R ks ks.
Proof. intros Hr. induction ks; constructor; auto. Qed.

Lemma alter_Forall2 (R : MoonshotKey -> MoonshotKey -> Prop)
    (f : MoonshotKey -> MoonshotKey) (ks : list MoonshotKey) :
  (forall k, R k k) -> (forall k, R k (f k)) ->
  forall pos, Forall2 R ks (alter f pos ks).
Proof.
  intros Hr Hf. induction ks as [|k ks IH]; intros [|pos]; simpl;
    constructor; auto using Forall2_same.
  apply IH.
Qed.

Lemma modify_first_Forall2 (R : MoonshotKey -> MoonshotKey -> Prop)
    (p : MoonshotKey -> bool) (f : MoonshotKey -> MoonshotKey)
    (ks : list MoonshotKey) :
  (forall k, R k k) -> (forall k, R k (f k)) ->
  Forall2 R ks (modify_first p f ks).
Proof.
  intros Hr Hf. induction ks as [|k ks IH]; simpl; [constructor|].
  destruct (p k); constructor; auto using Forall2_same.
Qed.

Lemma get_map {B : Type} (proj : MoonshotKey -> B) model rnd now now' ks :
  (forall t k, proj (setLastUsed t k) = proj k) ->
  (forall t k, proj (throttleKey t k) = proj k) ->
  map proj (snd (get model rnd now now' ks)) = map proj ks.
Proof.
  intros H1 H2. unfold get.
  destruct (enabled_positions 0 ks) as [|p0 ps]; [reflexivity|].
  destruct (random_index rnd _) as [i|]; [|reflexivity].
  destruct (_ !! i) as [pos|]; [|reflexivity].
  destruct (alter (setLastUsed now) pos ks !! pos) as [sel|] eqn:Es;
    [|reflexivity].
  rewrite (throttle_lookup _ _ _ now' Es).
  assert (E : map proj (modify_first (has_hash (hash sel)) (throttleKey now')
                          (alter (setLastUsed now) pos ks))
              = map proj ks).
  { rewrite modify_first_map by apply H2. apply alter_map. apply H1. }
  destruct (modify_first _ _ _ !! pos); exact E.
Qed.

Lemma available_map ks :
  available ks = length (List.filter negb (map isDisabled ks)).
Proof.
  unfold available, availableKeys.
  induction ks as [|k ks IH]; simpl; [reflexivity|].
  destruct (isDisabled k); simpl; congruence.
Qed.

Lemma lockout_chain (R : MoonshotKey -> MoonshotKey -> Prop)
    (l1 l2 l3 : list MoonshotKey) :
  (forall a b c, R a b -> R b c -> R a c) ->
  Forall2 R l1 l2 -> Forall2 R l2 l3 -> Forall2 R l1 l3.
Proof.
  intros Ht H12. revert l3.
  induction H12 as [|a b l1 l2 Hab _ IH]; intros l3 H23;
    inversion H23; subst; constructor; eauto.
Qed.

Definition lockout_kept (a b : MoonshotKey) : Prop :=
  rateLimitedUntil a <= rateLimitedUntil b.

Lemma get_lockout_kept model rnd now now' ks :
  Forall2 lockout_kept ks (snd (get model rnd now now' ks)).
Proof.
  assert (Hrefl : forall l, Forall2 lockout_kept l l).
  { intros l. apply Forall2_same. intros k. unfold lockout_kept. lia. }
  unfold get.
  destruct (enabled_positions 0 ks) as [|p0 ps]; [apply Hrefl|].
  destruct (random_index rnd _) as [i|]; [|apply Hrefl].
  destruct (_ !! i) as [pos|]; [|apply Hrefl].
  destruct (alter (setLastUsed now) pos ks !! pos) as [sel|] eqn:Es;
    [|apply Hrefl].
  rewrite (throttle_lookup _ _ _ now' Es).
  assert (E : Forall2 lockout_kept ks
                (modify_first (has_hash (hash sel)) (throttleKey now')
                   (alter (setLastUsed now) pos ks))).
  { apply lockout_chain with (l2 := alter (setLastUsed now) pos ks).
    - intros a b c Hab Hbc. unfold lockout_kept in *. lia.
    - apply alter_Forall2; intros k; unfold lockout_kept; simpl; lia.
    - apply modify_first_Forall2; intros k; unfold lockout_kept; simpl; lia. }
  destruct (modify_first _ _ _ !! pos); exact E.
Qed.

(** X4. [get] only writes [lastUsed], [rateLimitedAt] and
    [rateLimitedUntil]: whatever it returns, the records of the pool keep
    their order, secrets, hashes, families, flags, counters and usage, no
    lockout gets shorter, and the number of available keys is the same. *)
Theorem get_frame model (rnd : Q) (now now' : Z) ks :
  let ks' := snd (get model rnd now now' ks) in
  map key ks' = map key ks
  /\ map hash ks' = map hash ks
  /\ map modelFamilies ks' = map modelFamilies ks
  /\ map isDisabled ks' = map isDisabled ks
  /\ map isRevoked ks' = map isRevoked ks
  /\ map isOverQuota ks' = map isOverQuota ks
  /\ map promptCount ks' = map promptCount ks
  /\ map lastChecked ks' = map lastChecked ks
  /\ map tokenUsage ks' = map tokenUsage ks
  /\ Forall2 (fun k k' => rateLimitedUntil k <= rateLimitedUntil k') ks ks'
  /\ available ks' = available ks.
Proof.
  intros ks'. subst ks'.
  repeat (split; [apply get_map; reflexivity|]).
  split; [apply get_lockout_kept|].
  rewrite !available_map. f_equal. f_equal. apply get_map; reflexivity.
Qed.

(** ** [get] and [available] *)

(** X5. For a draw of [Math.random()] in [[0, 1)], [get] throws exactly when
    [available()] is 0, the error is then "No Moonshot keys available" and
    the pool is untouched; when [available()] is positive [get] returns a
    copy of a key that is not disabled, and it never ends in a
    [TypeError]. *)
Theorem get_fails_iff_none_available model (rnd : Q) (now now' : Z) ks :
  (0 <= rnd)%Q -> (rnd < 1)%Q ->
  let out := get model rnd now now' ks in
  (available ks = 0%nat <-> fst out = Throw NoKeysAvailable)
  /\ (available ks = 0%nat -> snd out = ks)
  /\ ((0 < available ks)%nat <->
      exists copy, fst out = Ok copy /\ isDisabled copy = false)
  /\ fst out <> Throw TypeError.
Proof.
  intros H0 H1 out. subst out.
  pose proof (get_spec model rnd now now' ks H0 H1) as H. cbv zeta in H.
  unfold available.
  destruct (fst (get model rnd now now' ks)) as [copy|e] eqn:E.
  - destruct H as (i & k0 & Hi & Hk & _ & _ & _ & _ & Hd & _).
    apply lookup_lt_Some in Hk.
    repeat split; try discriminate; try lia; eauto.
  - destruct H as (-> & Ha & Hs). rewrite Ha. simpl.
    repeat split; auto; try lia; try discriminate.
    intros (copy & Hc & _). discriminate.
Qed.

Lemma get_fails_iff_none_available_witness :
  fst (get "moonshot-v1-8k" (1 # 2) 1000 1000 []) = Throw NoKeysAvailable
  /\ exists copy,
       fst (get "moonshot-v1-8k" (1 # 2) 1000 1000 [recent_key; idle_key])
       = Ok copy.
Proof.
  assert (Hlo : (0 <= 1 # 2)%Q) by (unfold Qle; simpl; lia).
  assert (Hhi : (1 # 2 < 1)%Q) by (unfold Qlt; simpl; lia).
  split.
  - apply (get_fails_iff_none_available "moonshot-v1-8k" (1 # 2) 1000 1000 []
             Hlo Hhi). reflexivity.
  - destruct (get_fails_iff_none_available "moonshot-v1-8k" (1 # 2) 1000 1000
                [recent_key; idle_key] Hlo Hhi) as (_ & _ & H & _).
    destruct H as [H _]. destruct H as (copy & Hc & _).
    + vm_compute. lia.
    + exists copy. exact Hc.
Defined.

(** ** A disabled key is out of rotation *)

(** The calls that the proxy makes on the provider after construction. *)
Inductive Op : Type :=
| OpGet (model : string) (rnd : Q) (now now' : Z)
| OpMarkRateLimited (h : string) (now : Z)
| OpIncrementUsage (h : string) (family : ModelFamily) (usage : TokenUsage)
| OpDisable (k : MoonshotKey) (reason : Reason)
| OpRecheck (hasChecker checkKeys : bool).

(** The pool after a call; a call that throws leaves the pool as it
    was. *)
Definition run_op (op : Op) (ks : list MoonshotKey) : list MoonshotKey :=
  match op with
  | OpGet model rnd now now' => snd (get model rnd now now' ks)
  | OpMarkRateLimited h now =>
      match markRateLimited h now ks with
      | Ok ks' => ks'
      | Throw _ => ks
      end
  | OpIncrementUsage h family usage => incrementUsage h family usage ks
  | OpDisable k reason => disable k reason ks
  | OpRecheck hasChecker checkKeys => pool_recheck hasChecker checkKeys ks
  end.

Definition run_ops (ops : list Op) (ks : list MoonshotKey) : list MoonshotKey :=
  fold_left (fun acc op => run_op op acc) ops ks.

Definition is_recheck (op : Op) : bool :=
  match op with OpRecheck _ _ => true | _ => false end.

Lemma modify_first_unique_hash h (f : MoonshotKey -> MoonshotKey) ks x :
  (hash_count h ks <= 1)%nat ->
  (forall k, hash (f k) = hash k) ->
  In x (modify_first (has_hash h) f ks) -> has_hash h x = true ->
  exists y, In y ks /\ x = f y.
Proof.
  intros Hc Hf. unfold hash_count in Hc.
  induction ks as [|k ks IH]; simpl in *; [contradiction|].
  destruct (has_hash h k) eqn:E; simpl in *.
  - intros [<-|Hin] Hx; [eauto|].
    exfalso. assert (Hz : List.filter (has_hash h) ks = []).
    { destruct (List.filter (has_hash h) ks); [reflexivity|simpl in Hc; lia]. }
    assert (Hin' : In x (List.filter (has_hash h) ks))
      by (apply filter_In; auto).
    rewrite Hz in Hin'. contradiction.
  - intros [<-|Hin] Hx; [congruence|].
    destruct (IH Hc Hin Hx) as (y & Hy & ->). eauto.
Qed.

(** No record with the hash [h] is in rotation. *)
Definition out_of_rotation (h : string) (k : MoonshotKey) : Prop :=
  hash k = h -> isDisabled k = true.

Lemma get_Forall (P : MoonshotKey -> Prop) model rnd now now' ks :
  (forall t k, P k -> P (setLastUsed t k)) ->
  (forall t k, P k -> P (throttleKey t k)) ->
  Forall P ks -> Forall P (snd (get model rnd now now' ks)).
Proof.
  intros Hs Ht H. unfold get.
  destruct (enabled_positions 0 ks) as [|p0 ps]; [exact H|].
  destruct (random_index rnd _) as [i|]; [|exact H].
  destruct (_ !! i) as [pos|]; [|exact H].
  assert (H1 : Forall P (alter (setLastUsed now) pos ks)).
  { apply Forall_alter; [exact H|]. intros x _ Hx. now apply Hs. }
  destruct (alter (setLastUsed now) pos ks !! pos) as [sel|] eqn:Es;
    [|exact H].
  rewrite (throttle_lookup _ _ _ now' Es).
  assert (H2 : Forall P (modify_first (has_hash (hash sel)) (throttleKey now')
                           (alter (setLastUsed now) pos ks))).
  { apply modify_first_Forall; [|exact H1]. intros x _ Hx. now apply Ht. }
  destruct (modify_first _ _ _ !! pos); exact H2.
Qed.

Lemma disable_out_of_rotation k reason ks :
  (hash_count (hash k) ks <= 1)%nat ->
  Forall (out_of_rotation (hash k)) (disable k reason ks).
Proof.
  intros Hu. apply List.Forall_forall. intros x Hin Hx.
  rewrite disable_fused in Hin.
  apply modify_first_unique_hash in Hin as (y & _ & ->); auto.
  unfold has_hash. rewrite Hx. apply String.eqb_refl.
Qed.

Lemma run_op_out_of_rotation h op ks :
  is_recheck op = false ->
  Forall (out_of_rotation h) ks -> Forall (out_of_rotation h) (run_op op ks).
Proof.
  intros Hop H.
  destruct op as [model rnd now now'|h' now|h' family usage|k reason|c c'];
    simpl; try discriminate.
  - apply get_Forall; [| |exact H]; intros t x Hx; exact Hx.
  - unfold markRateLimited. destruct (find (has_hash h') ks); [|exact H].
    apply modify_first_Forall; [|exact H]. intros x _ Hx. exact Hx.
  - apply modify_first_Forall; [|exact H]. intros x _ Hx. exact Hx.
  - rewrite disable_fused. apply modify_first_Forall; [|exact H].
    intros x _ _ _. reflexivity.
Qed.

Lemma run_ops_out_of_rotation h ops : forall ks,
  forallb (fun op => negb (is_recheck op)) ops = true ->
  Forall (out_of_rotation h) ks -> Forall (out_of_rotation h) (run_ops ops ks).
Proof.
  unfold run_ops. induction ops as [|op ops IH]; intros ks Hops H; [exact H|].
  cbn [forallb] in Hops. apply andb_prop in Hops as [Hop Hops].
  cbn [fold_left]. apply IH; [exact Hops|].
  apply run_op_out_of_rotation; [|exact H]. now apply negb_true_iff.
Qed.

Lemma get_skips_out_of_rotation h model (rnd : Q) (now now' : Z) ks copy :
  (0 <= rnd)%Q -> (rnd < 1)%Q ->
  Forall (out_of_rotation h) ks ->
  fst (get model rnd now now' ks) = Ok copy ->
  hash copy <> h.
Proof.
  intros H0 H1 Hout Hget.
  pose proof (get_spec model rnd now now' ks H0 H1) as H.
  cbv zeta in H. rewrite Hget in H.
  destruct H as (i & k0 & _ & _ & Hin & Hd & _ & Hh & _).
  intros Heq. rewrite Hh in Heq.
  rewrite List.Forall_forall in Hout.
  rewrite (Hout k0 Hin Heq) in Hd. discriminate Hd.
Qed.

(** X6. [KeyPool.disable(key, reason)] takes a key out of rotation until
    the next recheck.  On a pool in which at most one record has the hash
    of [key], after the call and after any further calls of [get],
    [markRateLimited], [incrementUsage] and [KeyPool.disable], a copy that
    [get] hands out has another hash.  (A recheck puts the key back, and
    with the same secret configured twice the second record stays in
    rotation.) *)
Theorem disabled_key_is_not_returned model (rnd : Q) (now now' : Z)
    (k : MoonshotKey) (reason : Reason) ks (ops : list Op) copy :
  (0 <= rnd)%Q -> (rnd < 1)%Q ->
  (hash_count (hash k) ks <= 1)%nat ->
  forallb (fun op => negb (is_recheck op)) ops = true ->
  fst (get model rnd now now' (run_ops ops (disable k reason ks))) = Ok copy ->
  hash copy <> hash k.
Proof.
  intros H0 H1 Hu Hops Hget.
  apply (get_skips_out_of_rotation (hash k) model rnd now now'
           (run_ops ops (disable k reason ks)) copy H0 H1); [|exact Hget].
  apply run_ops_out_of_rotation; [exact Hops|].
  now apply disable_out_of_rotation.
Qed.

Lemma disabled_key_is_not_returned_witness :
  exists copy,
    fst (get "moonshot-v1-8k" 0 1000 1000
           (run_ops [OpGet "moonshot-v1-8k" 0 400 400;
                     OpMarkRateLimited "h2" 500;
                     OpIncrementUsage "h1" "moonshot" (mkUsage 10 20)]
              (disable recent_key quota [recent_key; idle_key]))) = Ok copy
    /\ hash copy <> "h1".
Proof.
  eexists. split; [vm_compute; reflexivity|].
  apply (disabled_key_is_not_returned "moonshot-v1-8k" 0 1000 1000
           recent_key quota [recent_key; idle_key]
           [OpGet "moonshot-v1-8k" 0 400 400;
            OpMarkRateLimited "h2" 500;
            OpIncrementUsage "h1" "moonshot" (mkUsage 10 20)]).
  - unfold Qle; simpl; lia.
  - unfold Qlt; simpl; lia.
  - vm_compute. lia.
  - reflexivity.
  - vm_compute. reflexivity.
Defined.

(** ** What [recheck] does to the pool *)

Definition patched (p : Patch) (hs : list string) (k : MoonshotKey) : MoonshotKey :=
  if existsb (String.eqb (hash k)) hs then assign k p else k.

Lemma update_unique_hash h p ks :
  NoDup (map hash ks) -> p_hash p = None ->
  update h p ks = map (patched p [h]) ks.
Proof.
  intros Hn Hp. unfold update, patched.
  induction ks as [|k ks IH]; simpl; [reflexivity|].
  inversion Hn as [|? ? Hk Hn']; subst.
  unfold has_hash at 1. destruct (String.eqb_spec (hash k) h) as [E|E]; simpl.
  - f_equal. clear IH. symmetry.
    rewrite <- (map_id ks) at 2. apply map_ext_in. intros x Hx.
    destruct (String.eqb_spec (hash x) h) as [E'|E']; simpl; [|reflexivity].
    exfalso. apply Hk. rewrite E, <- E'. apply list_elem_of_In. now apply in_map.
  - f_equal. now apply IH.
Qed.

Lemma map_hash_patched p hs ks :
  p_hash p = None -> map hash (map (patched p hs) ks) = map hash ks.
Proof.
  intros Hp. rewrite map_map. apply map_ext. intros k. unfold patched.
  destruct (existsb _ hs); [|reflexivity]. unfold assign. simpl. now rewrite Hp.
Qed.

Lemma fold_update_unique_hash p hs : forall ks,
  NoDup (map hash ks) -> p_hash p = None ->
  fold_left (fun acc h => update h p acc) hs ks = map (patched p hs) ks.
Proof.
  induction hs as [|h hs IH]; intros ks Hn Hp; simpl.
  - unfold patched. simpl. now rewrite map_id.
  - rewrite update_unique_hash by assumption.
    rewrite IH; [|now rewrite map_hash_patched|assumption].
    rewrite map_map. apply map_ext. intros k. unfold patched. simpl.
    rewrite orb_false_r.
    destruct (String.eqb (hash k) h) eqn:E; simpl.
    + replace (hash (assign k p)) with (hash k)
        by (unfold assign; simpl; now rewrite Hp).
      destruct (existsb _ hs); [apply assign_twice|reflexivity].
    + reflexivity.
Qed.

(** X7. [recheck()] puts every key back into rotation.  With the checker
    created and key checking on, and no hash occurring twice, every record
    of the pool gets [isDisabled = false], [isOverQuota = false] and
    [lastChecked = 0] and keeps its other fields, so [available()] is then
    the size of the pool.  Without the checker, or with key checking off,
    [recheck()] changes nothing. *)
Theorem recheck_reenables_every_key (hasChecker checkKeys : bool)
    (ks : list MoonshotKey) :
  (hasChecker && checkKeys = false -> recheck hasChecker checkKeys ks = ks)
  /\ (NoDup (map hash ks) ->
      recheck true true ks = map (fun k => assign k recheck_patch) ks
      /\ Forall (fun k => isDisabled k = false /\ isOverQuota k = false
                          /\ lastChecked k = 0) (recheck true true ks)
      /\ map (fun k => (key k, hash k, modelFamilies k, isRevoked k,
                        promptCount k, lastUsed k, rateLimitedAt k,
                        rateLimitedUntil k, tokenUsage k)) (recheck true true ks)
         = map (fun k => (key k, hash k, modelFamilies k, isRevoked k,
                          promptCount k, lastUsed k, rateLimitedAt k,
                          rateLimitedUntil k, tokenUsage k)) ks
      /\ available (recheck true true ks) = length ks).
Proof.
  split.
  - unfold recheck. destruct hasChecker, checkKeys; simpl; intros H;
      try discriminate; reflexivity.
  - intros Hn.
    assert (E : recheck true true ks = map (fun k => assign k recheck_patch) ks).
    { unfold recheck. simpl.
      rewrite fold_update_unique_hash by (assumption || reflexivity).
      apply map_ext_in. intros k Hk. unfold patched.
      replace (existsb (String.eqb (hash k)) (map hash ks)) with true;
        [reflexivity|].
      symmetry. apply existsb_exists. exists (hash k).
      split; [now apply in_map | apply String.eqb_refl]. }
    rewrite E. split; [reflexivity|]. split; [|split].
    + apply List.Forall_forall. intros k Hk.
      apply in_map_iff in Hk as (k0 & <- & _). simpl. auto.
    + rewrite map_map. reflexivity.
    + rewrite available_map, map_map. simpl. clear Hn E.
      induction ks as [|k ks IH]; simpl; [reflexivity|]. now rewrite IH.
Qed.

Lemma recheck_reenables_every_key_witness :
  recheck false true [recent_key] = [recent_key]
  /\ available (recheck true true
                  (disable idle_key revoked [recent_key; idle_key])) = 2%nat.
Proof.
  split.
  - destruct (recheck_reenables_every_key false true [recent_key]) as [H _].
    apply H. reflexivity.
  - destruct (recheck_reenables_every_key true true
                (disable idle_key revoked [recent_key; idle_key])) as [_ H].
    destruct H as (_ & _ & _ & H).
    + apply NoDup_ListNoDup. vm_compute.
      repeat constructor; simpl; intuition discriminate.
    + rewrite H. reflexivity.
Defined.

(** ** A hash that no record has *)

(** X8. A hash that no record has.  [markRateLimited(hash)] and
    [throttle(hash)] succeed exactly when some record has the hash and
    throw a [TypeError] otherwise (the non-null assertion on the [find],
    then a property of [undefined]); [incrementUsage], the provider's
    [disable] and [KeyPool.disable] take an unknown hash silently and
    leave the pool as it is. *)
Theorem unknown_hash_throws_or_is_ignored (h : string) (now : Z)
    (ks : list MoonshotKey) :
  (find (has_hash h) ks = None <-> markRateLimited h now ks = Throw TypeError)
  /\ (find (has_hash h) ks = None <-> throttle h now ks = Throw TypeError)
  /\ (find (has_hash h) ks <> None <->
      exists ks', markRateLimited h now ks = Ok ks')
  /\ (find (has_hash h) ks <> None <-> exists ks', throttle h now ks = Ok ks')
  /\ (find (has_hash h) ks = None ->
      (forall family usage, incrementUsage h family usage ks = ks)
      /\ provider_disable h ks = ks
      /\ forall k reason, hash k = h -> disable k reason ks = ks).
Proof.
  unfold markRateLimited, throttle.
  destruct (find (has_hash h) ks) as [r|] eqn:E.
  - split; [split; discriminate|]. split; [split; discriminate|].
    split; [split; [eauto|discriminate]|].
    split; [split; [eauto|discriminate]|discriminate].
  - split; [split; reflexivity|]. split; [split; reflexivity|].
    split; [split; [congruence|intros [ks' H]; discriminate]|].
    split; [split; [congruence|intros [ks' H]; discriminate]|].
    intros _. repeat split.
    + intros family usage. now apply modify_first_none.
    + now apply modify_first_none.
    + intros k reason <-. rewrite disable_fused. now apply modify_first_none.
Qed.

Lemma unknown_hash_throws_or_is_ignored_witness :
  markRateLimited "h9" 1000 [recent_key; idle_key] = Throw TypeError
  /\ throttle "h9" 1000 [recent_key; idle_key] = Throw TypeError
  /\ incrementUsage "h9" "moonshot" (mkUsage 10 20) [recent_key; idle_key]
     = [recent_key; idle_key].
Proof.
  destruct (unknown_hash_throws_or_is_ignored "h9" 1000 [recent_key; idle_key])
    as (H1 & H2 & _ & _ & H3).
  assert (E : find (has_hash "h9") [recent_key; idle_key] = None)
    by reflexivity.
  destruct (H3 E) as (Hi & _).
  split; [now apply H1|]. split; [now apply H2|]. apply Hi.
Defined.

(** ** Usage counters add up *)

(** The usage recorded on a key for a family; a family without an entry
    counts as zero. *)
Definition usage_of (k : MoonshotKey) (family : ModelFamily) : TokenUsage :=
  default (mkUsage 0 0) (tokenUsage k !! family).

Definition sum_input (us : list TokenUsage) : Z :=
  fold_right (fun u acc => input u + acc) 0 us.
Definition sum_output (us : list TokenUsage) : Z :=
  fold_right (fun u acc => output u + acc) 0 us.

(** [incrementUsage] called once for every element of [us], in order. *)
Definition incrementUsages (h : string) (family : ModelFamily)
    (us : list TokenUsage) (ks : list MoonshotKey) : list MoonshotKey :=
  fold_left (fun acc u => incrementUsage h family u acc) us ks.

(** X9. After any sequence of [incrementUsage] calls for one hash and one
    family, the first record with that hash has its [promptCount] raised
    by the number of calls and its input and output counts for the family
    raised by the sums of the reported inputs and outputs; the counts of
    the other families, the flags and the lockout are as before. *)
Theorem incrementUsage_accumulates (h : string) (family : ModelFamily)
    (us : list TokenUsage) : forall (ks : list MoonshotKey) (r : MoonshotKey),
  find (has_hash h) ks = Some r ->
  exists r',
    find (has_hash h) (incrementUsages h family us ks) = Some r'
    /\ promptCount r' = promptCount r + Z.of_nat (length us)
    /\ input (usage_of r' family) = input (usage_of r family) + sum_input us
    /\ output (usage_of r' family) = output (usage_of r family) + sum_output us
    /\ (forall g, g <> family -> tokenUsage r' !! g = tokenUsage r !! g)
    /\ (key r', hash r', isDisabled r', isRevoked r', isOverQuota r',
        rateLimitedUntil r')
       = (key r, hash r, isDisabled r, isRevoked r, isOverQuota r,
          rateLimitedUntil r).
Proof.
  unfold incrementUsages.
  induction us as [|u us IH]; intros ks r Hr; simpl.
  - exists r. rewrite Hr. repeat split; auto; lia.
  - set (step := fun k : MoonshotKey =>
       assign k {| p_key := None; p_modelFamilies := None; p_isDisabled := None;
                   p_isRevoked := None;
                   p_promptCount := Some (promptCount k + 1);
                   p_lastUsed := None; p_lastChecked := None; p_hash := None;
                   p_rateLimitedAt := None; p_rateLimitedUntil := None;
                   p_tokenUsage :=
                     Some (<[family := mkUsage (input (usage_of k family) + input u)
                                               (output (usage_of k family) + output u)]>
                             (tokenUsage k));
                   p_isOverQuota := None |}).
    assert (Hstep : find (has_hash h) (incrementUsage h family u ks)
                    = Some (step r)).
    { unfold incrementUsage.
      apply (find_modify_first (has_hash h) step); [exact Hr|].
      apply find_some in Hr as [_ Hr]. exact Hr. }
    destruct (IH _ _ Hstep) as (r' & Hf & Hc & Hi & Ho & Hg & Hk).
    exists r'. split; [exact Hf|].
    assert (Hu : usage_of (step r) family
                 = mkUsage (input (usage_of r family) + input u)
                           (output (usage_of r family) + output u)).
    { unfold usage_of, step. simpl. now rewrite lookup_insert_eq. }
    rewrite Hu in Hi, Ho. simpl in Hi, Ho, Hc.
    repeat split; try lia.
    + intros g Hne. rewrite (Hg g Hne). unfold step. simpl.
      now apply lookup_insert_ne.
    + exact Hk.
Qed.

Lemma incrementUsage_accumulates_witness :
  exists r',
    find (has_hash "h1")
      (incrementUsages "h1" "moonshot" [mkUsage 10 20; mkUsage 5 7]
         [recent_key; idle_key]) = Some r'
    /\ promptCount r' = 9 /\ usage_of r' "moonshot" = mkUsage 15 27.
Proof.
  destruct (incrementUsage_accumulates "h1" "moonshot"
              [mkUsage 10 20; mkUsage 5 7] [recent_key; idle_key] recent_key
              eq_refl) as (r' & Hf & Hc & Hi & Ho & _).
  exists r'. split; [exact Hf|]. split; [exact Hc|].
  destruct (usage_of r' "moonshot") as [i o]. simpl in Hi, Ho.
  now rewrite Hi, Ho.
Defined.

(** ** Invariants of the pool *)

Section PoolInvariants.

Variable hashKey : string -> string.

(** What holds of every record at all times. *)
Definition well_formed (k : MoonshotKey) : Prop :=
  hash k = hashKey (key k)
  /\ modelFamilies k = ["moonshot"]
  /\ rateLimitedAt k <= rateLimitedUntil k
  /\ 0 <= promptCount k.

Lemma assign_well_formed k p :
  p_key p = None -> p_hash p = None -> p_modelFamilies p = None ->
  default (rateLimitedAt k) (p_rateLimitedAt p)
  <= default (rateLimitedUntil k) (p_rateLimitedUntil p) ->
  0 <= default (promptCount k) (p_promptCount p) ->
  well_formed k -> well_formed (assign k p).
Proof.
  intros Hk Hh Hm Hr Hc (W1 & W2 & W3 & W4).
  unfold well_formed, assign. simpl. rewrite Hk, Hh, Hm. simpl. auto.
Qed.

Lemma fold_update_Forall (P : MoonshotKey -> Prop) p hs : forall ks,
  (forall k, P k -> P (assign k p)) ->
  Forall P ks -> Forall P (fold_left (fun acc h => update h p acc) hs ks).
Proof.
  induction hs as [|h hs IH]; intros ks Hp H; simpl; [exact H|].
  apply IH; [exact Hp|]. apply modify_first_Forall; auto.
Qed.

Lemma fold_update_map {B : Type} (proj : MoonshotKey -> B) p hs : forall ks,
  (forall k, proj (assign k p) = proj k) ->
  map proj (fold_left (fun acc h => update h p acc) hs ks) = map proj ks.
Proof.
  induction hs as [|h hs IH]; intros ks Hp; simpl; [reflexivity|].
  rewrite IH by exact Hp. now apply modify_first_map.
Qed.

Lemma run_op_well_formed op ks :
  Forall well_formed ks -> Forall well_formed (run_op op ks).
Proof.
  intros H. destruct op as [model rnd now now'|h now|h family usage|k reason|c c'];
    simpl.
  - apply get_Forall; [| |exact H].
    + intros t x Hx. apply assign_well_formed; auto; simpl; apply Hx.
    + intros t x Hx. apply assign_well_formed; auto; simpl; [|apply Hx].
      unfold KEY_REUSE_DELAY. lia.
  - unfold markRateLimited. destruct (find (has_hash h) ks); [|exact H].
    apply modify_first_Forall; [|exact H]. intros x _ Hx.
    apply assign_well_formed; auto; simpl; [|apply Hx].
    unfold RATE_LIMIT_LOCKOUT. lia.
  - apply modify_first_Forall; [|exact H]. intros x _ Hx.
    apply assign_well_formed; auto; simpl; [apply Hx|].
    destruct Hx as (_ & _ & _ & Hx). lia.
  - rewrite disable_fused. apply modify_first_Forall; [|exact H].
    intros x _ Hx.
    repeat (apply assign_well_formed; auto; simpl; try apply Hx).
  - unfold pool_recheck, recheck. destruct c, c'; simpl; try exact H.
    apply fold_update_Forall; [|exact H]. intros x Hx.
    apply assign_well_formed; auto; simpl; apply Hx.
Qed.

Lemma run_op_keys op ks : map key (run_op op ks) = map key ks.
Proof.
  destruct op as [model rnd now now'|h now|h family usage|k reason|c c']; simpl.
  - apply get_map; reflexivity.
  - unfold markRateLimited. destruct (find (has_hash h) ks); [|reflexivity].
    now apply modify_first_map.
  - now apply modify_first_map.
  - rewrite disable_fused. now apply modify_first_map.
  - unfold pool_recheck, recheck. destruct c, c'; simpl; try reflexivity.
    now apply fold_update_map.
Qed.

Lemma run_op_ok op ks :
  is_recheck op = false -> pool_ok ks -> pool_ok (run_op op ks).
Proof.
  destruct op as [model rnd now now'|h now|h family usage|k reason|c c'];
    simpl; intros Hop H; try discriminate.
  - now apply get_ok.
  - destruct (markRateLimited h now ks) as [ks'|e] eqn:E; [|exact H].
    eapply markRateLimited_ok; eauto.
  - now apply incrementUsage_ok.
  - now apply disable_ok.
Qed.

(** X10. Invariants of the Moonshot pool.  In every state that the pool
    reaches from its construction through calls of [get],
    [markRateLimited], [incrementUsage], [KeyPool.disable] and
    [KeyPool.recheck], in any order and with any arguments: the pool holds
    one record per non-empty configured secret, in configuration order;
    the hash of each record is the hash of its secret; its only family is
    ["moonshot"]; [rateLimitedAt <= rateLimitedUntil]; and [promptCount]
    is not negative.  As long as no recheck is among the calls, every
    revoked key is also disabled. *)
Theorem pool_invariants (secrets : list string) (ops : list Op) :
  let ks := run_ops ops (construct hashKey secrets) in
  map key ks = List.filter (fun s => negb (String.eqb s "")) secrets
  /\ Forall well_formed ks
  /\ (forallb (fun op => negb (is_recheck op)) ops = true -> pool_ok ks).
Proof.
  intros ks. subst ks. unfold run_ops.
  assert (K0 : map key (construct hashKey secrets)
               = List.filter (fun s => negb (String.eqb s "")) secrets).
  { unfold construct. rewrite map_map. simpl. apply map_id. }
  assert (W0 : Forall well_formed (construct hashKey secrets)).
  { unfold construct. apply List.Forall_forall. intros k Hk.
    apply in_map_iff in Hk as (s & <- & _).
    unfold well_formed. simpl. repeat split; lia. }
  pose proof (construct_ok hashKey secrets) as P0.
  revert K0 W0 P0. generalize (construct hashKey secrets) as ks.
  induction ops as [|op ops IH]; intros ks K0 W0 P0; simpl; [auto|].
  assert (K1 : map key (run_op op ks)
               = List.filter (fun s => negb (String.eqb s "")) secrets)
    by now rewrite run_op_keys.
  assert (W1 : Forall well_formed (run_op op ks))
    by now apply run_op_well_formed.
  destruct (is_recheck op) eqn:E; simpl.
  - (* the invariant on revoked keys is no longer promised *)
    clear IH P0. split; [|split; [|discriminate]].
    + revert K1. generalize (run_op op ks) as ks1. clear.
      induction ops as [|op ops IH]; intros ks K; simpl; [exact K|].
      apply IH. now rewrite run_op_keys.
    + revert W1. generalize (run_op op ks) as ks1. clear.
      induction ops as [|op ops IH]; intros ks W; simpl; [exact W|].
      apply IH. now apply run_op_well_formed.
  - apply IH; auto. now apply run_op_ok.
Qed.

End PoolInvariants.

(** ** The reuse delay *)

Lemma modify_first_at (f : MoonshotKey -> MoonshotKey) ks : forall pos x,
  NoDup (map hash ks) -> ks !! pos = Some x ->
  modify_first (has_hash (hash x)) f ks = alter f pos ks.
Proof.
  induction ks as [|k ks IH]; intros pos x Hn Hx; [discriminate|].
  inversion Hn as [|? ? Hk Hn']; subst. simpl.
  destruct pos as [|pos]; simpl in *.
  - injection Hx as ->. unfold has_hash. now rewrite String.eqb_refl.
  - unfold has_hash at 1. destruct (String.eqb_spec (hash k) (hash x)) as [E|E].
    + exfalso. apply Hk. rewrite E. apply list_elem_of_In, in_map.
      apply list_elem_of_In. eapply list_elem_of_lookup_2. exact Hx.
    + f_equal. now apply IH.
Qed.

Lemma find_at ks : forall pos x,
  NoDup (map hash ks) -> ks !! pos = Some x ->
  find (has_hash (hash x)) ks = Some x.
Proof.
  induction ks as [|k ks IH]; intros pos x Hn Hx; [discriminate|].
  inversion Hn as [|? ? Hk Hn']; subst. simpl.
  destruct pos as [|pos]; simpl in *.
  - injection Hx as ->. unfold has_hash. now rewrite String.eqb_refl.
  - unfold has_hash at 1. destruct (String.eqb_spec (hash k) (hash x)) as [E|E].
    + exfalso. apply Hk. rewrite E. apply list_elem_of_In, in_map.
      apply list_elem_of_In. eapply list_elem_of_lookup_2. exact Hx.
    + eapply IH; eauto.
Qed.

(** X11. In a pool without repeated hashes, the key that [get] hands out is
    the selected record with [lastUsed] set to the clock of [get],
    [rateLimitedAt] set to the clock of [throttle], and [rateLimitedUntil]
    raised to at least [KEY_REUSE_DELAY] (500 ms) past that clock, never
    lowered; the record stored under that hash is equal to the copy
    returned. *)
Theorem get_throttles_returned_key model (rnd : Q) (now now' : Z) ks copy :
  (0 <= rnd)%Q -> (rnd < 1)%Q ->
  NoDup (map hash ks) ->
  fst (get model rnd now now' ks) = Ok copy ->
  exists k0,
    In k0 ks /\ isDisabled k0 = false
    /\ copy = throttleKey now' (setLastUsed now k0)
    /\ lastUsed copy = now
    /\ rateLimitedAt copy = now'
    /\ rateLimitedUntil copy
       = Z.max (rateLimitedUntil k0) (now' + KEY_REUSE_DELAY)
    /\ now' + KEY_REUSE_DELAY <= rateLimitedUntil copy
    /\ find (has_hash (hash copy)) (snd (get model rnd now now' ks)) = Some copy.
Proof.
  intros H0 H1 Hn. unfold get.
  pose proof (enabled_positions_length ks 0) as Hlen.
  destruct (enabled_positions 0 ks) as [|p0 ps] eqn:Ep; [discriminate|].
  assert (Hpos : (0 < length (p0 :: ps))%nat) by (simpl; lia).
  destruct (random_index_in_range rnd _ H0 H1 Hpos) as (i & Hi & Hlt).
  rewrite Hi.
  destruct (lookup_lt_is_Some_2 _ _ Hlt) as [pos Hp]. rewrite Hp.
  rewrite <- Ep in Hp.
  destruct (enabled_positions_spec ks 0 i pos Hp) as (j & k0 & Hj & Hk0 & Hd & _).
  simpl in Hj. subst j.
  set (ks1 := alter (setLastUsed now) pos ks).
  assert (E1 : ks1 !! pos = Some (setLastUsed now k0)).
  { unfold ks1. rewrite list_lookup_alter.
    destruct (decide (pos = pos)); [|congruence]. now rewrite Hk0. }
  rewrite E1, (throttle_lookup _ _ _ now' E1).
  assert (Hn1 : NoDup (map hash ks1)).
  { unfold ks1. rewrite alter_map; auto. }
  rewrite (modify_first_at (throttleKey now') ks1 pos _ Hn1 E1).
  assert (E2 : alter (throttleKey now') pos ks1 !! pos
               = Some (throttleKey now' (setLastUsed now k0))).
  { rewrite list_lookup_alter. destruct (decide (pos = pos)); [|congruence].
    now rewrite E1. }
  rewrite E2. simpl. intros Hc. injection Hc as <-.
  exists k0. repeat split; auto.
  - apply list_elem_of_In. eapply list_elem_of_lookup_2. exact Hk0.
  - simpl. unfold KEY_REUSE_DELAY. lia.
  - apply (find_at _ pos); [|exact E2].
    rewrite alter_map; auto.
Qed.

Lemma get_throttles_returned_key_witness :
  exists copy,
    fst (get "moonshot-v1-8k" 0 1000 1001 [recent_key; idle_key]) = Ok copy
    /\ rateLimitedAt copy = 1001 /\ rateLimitedUntil copy = 1501.
Proof.
  assert (Hlo : (0 <= 0)%Q) by (unfold Qle; simpl; lia).
  assert (Hhi : (0 < 1)%Q) by (unfold Qlt; simpl; lia).
  assert (Hn : NoDup (map hash [recent_key; idle_key])).
  { apply NoDup_ListNoDup. simpl.
    repeat constructor; simpl; intuition discriminate. }
  eexists. split; [vm_compute; reflexivity|].
  destruct (get_throttles_returned_key "moonshot-v1-8k" 0 1000 1001
              [recent_key; idle_key] _ Hlo Hhi Hn eq_refl)
    as (k0 & _ & _ & _ & _ & Ha & _).
  split; [exact Ha|]. reflexivity.
Defined.

End MoonshotPool.

(* ===================================================================== *)
(** * From a model name to a key provider
      ([shared/key-management/key-pool.ts]) *)
(* ===================================================================== *)

Module Routing.
Import Js Models Arr KeyPool.
Open Scope Z_scope.

(** ** Routing in [KeyPool] *)

(** [getServiceForModel(model)]; [None] stands for the thrown
    [Unknown service for model]. *)
Definition getServiceForModel (model : string) : option LLMService :=
  if startsWith model "deepseek" then Some deepseek
  else if startsWith model "gpt" || startsWith model "text-embedding-ada"
          || startsWith model "dall-e" then Some openai
  else if startsWith model "claude-" then
    if negb (includes model "@") then Some anthropic else Some gcp
  else if includes model "gemini" then Some google_ai
  else if includes model "mistral" then Some mistral_ai
  else if includes model "xai" then Some xai
  else if includes model "command" || includes model "cohere" then Some cohere
  else if includes model "qwen" then Some qwen
  else if includes model "moonshot" then Some moonshot
  else if startsWith model "anthropic.claude" then Some aws
  else if startsWith model "azure" then Some azure
  else None.

(** The head of [KeyPool.get(model, service, multimodal)]: the service
    whose provider is asked and the model name that is handed to its
    [get]; [None] when [getServiceForModel] throws. *)
Definition route (model : string) (service : option LLMService)
    (multimodal : bool) : option (LLMService * string) :=
  let model := if multimodal then model ++ "-multimodal" else model in
  match service with
  | Some s => Some (s, model)
  | None =>
      match getServiceForModel model with
      | Some s => Some (s, model)
      | None => None
      end
  end.

(** Some non-empty suffix of [kw] is a prefix of [sfx]: an occurrence of
    [kw] could then start before [sfx] and end inside it. *)
Fixpoint overlaps (kw sfx : string) : bool :=
  match kw with
  | EmptyString => false
  | String _ kw' => String.prefix kw sfx || overlaps kw' sfx
  end.

Lemma prefix_nil_r p : String.prefix p "" = match p with "" => true | _ => false end.
Proof. destruct p; reflexivity. Qed.

Lemma prefix_nil_l s : String.prefix "" s = true.
Proof. destruct s; reflexivity. Qed.

Lemma prefix_append_keep sfx : forall p m,
  overlaps p sfx = false ->
  String.prefix p (m ++ sfx) = String.prefix p m.
Proof.
  intros p m. revert p. induction m as [|c m IH]; intros p H.
  - rewrite append_nil_l, prefix_nil_r. destruct p as [|a p]; [now destruct sfx|].
    simpl in H. now apply orb_false_elim in H as [H _].
  - rewrite append_cons. destruct p as [|a p]; [reflexivity|].
    simpl. destruct (ascii_dec a c); [|reflexivity].
    apply IH. simpl in H. apply orb_false_elim in H as [_ H].
    destruct p; [reflexivity|exact H].
Qed.

Lemma includes_append_keep kw sfx m :
  overlaps kw sfx = false -> includes sfx kw = false ->
  includes (m ++ sfx) kw = includes m kw.
Proof.
  intros Ho Hi. induction m as [|c m IH].
  - rewrite append_nil_l, Hi.
    change (includes "" kw) with (String.prefix kw "" || false).
    rewrite prefix_nil_r. destruct kw; [|reflexivity].
    destruct sfx; discriminate.
  - rewrite append_cons.
    change (includes (String c (m ++ sfx)) kw)
      with (String.prefix kw (String c (m ++ sfx)) || includes (m ++ sfx) kw).
    change (includes (String c m) kw)
      with (String.prefix kw (String c m) || includes m kw).
    rewrite IH. f_equal. rewrite <- append_cons. now apply prefix_append_keep.
Qed.

Lemma prefix_cons a p c s :
  String.prefix (String a p) (String c s)
  = if Ascii.eqb a c then String.prefix p s else false.
Proof.
  simpl. destruct (ascii_dec a c) as [->|Hne].
  - now rewrite Ascii.eqb_refl.
  - apply Ascii.eqb_neq in Hne. now rewrite Hne.
Qed.

Lemma startsWith_claude_dash m :
  m <> "claude" ->
  startsWith (m ++ "-multimodal") "claude-" = startsWith m "claude-".
Proof.
  intros Hne. unfold startsWith.
  destruct m as [|c0 [|c1 [|c2 [|c3 [|c4 [|c5 [|c6 m]]]]]]];
    rewrite ?append_cons, ?append_nil_l;
    rewrite ?prefix_cons;
    repeat match goal with
           | |- context [Ascii.eqb ?a ?b] =>
               destruct (Ascii.eqb_spec a b); [subst|reflexivity]
           end;
    try reflexivity; try congruence.
  now rewrite !prefix_nil_l.
Qed.

(** X12. The [-multimodal] suffix that [KeyPool.get] appends for multimodal
    requests never changes the provider: whenever [getServiceForModel]
    knows the service of a model name it gives the suffixed name the same
    service, so a call of [KeyPool.get] that is routed without the flag is
    routed to the same provider with it, the provider getting the suffixed
    name. *)
Theorem multimodal_suffix_keeps_service (model : string)
    (service : option LLMService) (s : LLMService) :
  (getServiceForModel model = Some s ->
   getServiceForModel (model ++ "-multimodal") = Some s)
  /\ (route model service false = Some (s, model) ->
      route model service true = Some (s, model ++ "-multimodal")).
Proof.
  assert (H1 : getServiceForModel model = Some s ->
               getServiceForModel (model ++ "-multimodal") = Some s).
  { destruct (String.eqb_spec model "claude") as [->|Hne];
      [vm_compute; intros H; discriminate H|].
    unfold getServiceForModel.
    rewrite (startsWith_claude_dash model Hne). unfold startsWith.
    rewrite !(prefix_append_keep "-multimodal") by reflexivity.
    rewrite !(includes_append_keep _ "-multimodal") by reflexivity.
    auto. }
  split; [exact H1|].
  unfold route. destruct service as [t|]; [congruence|].
  destruct (getServiceForModel model) as [t|] eqn:E; [|discriminate].
  intros H. injection H as ->. now rewrite (H1 eq_refl).
Qed.

Lemma multimodal_suffix_keeps_service_witness :
  route "claude-3-opus-20240229" None true
  = Some (anthropic, "claude-3-opus-20240229-multimodal").
Proof.
  apply (multimodal_suffix_keeps_service "claude-3-opus-20240229" None anthropic).
  reflexivity.
Defined.

(** The providers that the constructor of [KeyPool] pushes, in order. *)
Definition PROVIDERS : list LLMService :=
  [ openai; anthropic; google_ai; mistral_ai; aws; gcp; azure; deepseek; xai;
    cohere; qwen; moonshot ].

Definition LLMService_eqb (a b : LLMService) : bool :=
  match a, b with
  | openai, openai | anthropic, anthropic | google_ai, google_ai
  | mistral_ai, mistral_ai | aws, aws | gcp, gcp | azure, azure
  | deepseek, deepseek | xai, xai | cohere, cohere | qwen, qwen
  | moonshot, moonshot => true
  | _, _ => false
  end.

Section PoolAvailable.

(** [provider.available()] of the provider of each service. *)
Variable providerAvailable : LLMService -> nat.

(** One step of the [reduce] in [KeyPool.available(model)]; [None] when
    [getServiceForModel] throws. *)
Definition available_step (model : string) (sum : option nat)
    (provider : LLMService) : option nat :=
  match sum with
  | None => None
  | Some n =>
      if String.eqb model "all" then Some (n + providerAvailable provider)%nat
      else
        match getServiceForModel model with
        | None => None
        | Some s =>
            Some (n + if LLMService_eqb s provider
                      then providerAvailable provider else 0)%nat
        end
  end.

(** [KeyPool.available(model = "all")] *)
Definition pool_available (model : string) : option nat :=
  fold_left (available_step model) PROVIDERS (Some 0%nat).

(** X13. [KeyPool.available(model)] is the [available()] of the one provider
    that [getServiceForModel] names for the model, and throws for a model
    of unknown service even when keys are loaded; for ["all"] it is the
    sum over the twelve providers. *)
Theorem pool_available_counts_one_provider (model : string) :
  (model <> "all" ->
   pool_available model = providerAvailable <$> getServiceForModel model)
  /\ pool_available "all"
     = Some (fold_right (fun p n => (providerAvailable p + n)%nat) 0%nat PROVIDERS).
Proof.
  split.
  - intros Hne. unfold pool_available, PROVIDERS. cbn [fold_left].
    unfold available_step.
    replace (String.eqb model "all") with false
      by (symmetry; now apply String.eqb_neq).
    destruct (getServiceForModel model) as [s|]; [|reflexivity].
    destruct s; simpl; f_equal; lia.
  - unfold pool_available, PROVIDERS. simpl. f_equal. lia.
Qed.

End PoolAvailable.

Lemma pool_available_counts_one_provider_witness :
  pool_available (fun s => match s with moonshot => 3%nat | _ => 7%nat end)
    "moonshot-v1-8k" = Some 3%nat.
Proof.
  destruct (pool_available_counts_one_provider
              (fun s => match s with moonshot => 3%nat | _ => 7%nat end)
              "moonshot-v1-8k") as [H _].
  rewrite H; [reflexivity|discriminate].
Defined.

End Routing.

(* ===================================================================== *)
(** * Upstream errors of a Moonshot request
      ([proxy/middleware/response/index.ts]) *)
(* ===================================================================== *)

Module MoonshotErrors.
Import Js Models Arr KeyPool.
Open Scope Z_scope.

(** ** Redaction of organisation ids *)

(** [/org-.{24}/] at the head of the subject. *)
Definition org_id : pattern := at_start (Seq (lit "org-") (rep 24 dot)).

(** [message.replace(/org-.{24}/gm, "org-xxxxxxxxxxxxxxxxxxx")]: the
    matches are taken from left to right without overlap; [skip] counts
    the characters of the current match that are still to be dropped. *)
Fixpoint redact_from (skip : nat) (s : string) : string :=
  match s with
  | EmptyString => EmptyString
  | String c s' =>
      match skip with
      | S k => redact_from k s'
      | O =>
          if test org_id s
          then "org-xxxxxxxxxxxxxxxxxxx" ++ redact_from 27 s'
          else String c (redact_from 0 s')
      end
  end.

Definition redactOrgId (message : string) : string := redact_from 0 message.

(** ** Requests, responses and outcomes *)

(** [errorPayload.error] *)
Record ErrorBody : Type := mkError {
  code : option string;
  type : option string;
  message : option string;
}.

(** [ProxiedErrorPayload] *)
Record ErrorPayload : Type := mkPayload {
  error : option ErrorBody;
  proxy_note : option string;
}.

(** The decoded body of the upstream response. *)
Inductive Body : Type :=
| Text (s : string)                 (* not JSON *)
| Json (payload : ErrorPayload)
| JsonNull.                         (* [typeof null === "object"] *)

(** [proxyRes] *)
Record ProxyRes : Type := mkProxyRes {
  statusCode : option Z;
  statusMessage : option string;
}.

(** The fields of the request that the handlers read and write.  [key] is
    the copy that [get] handed out. *)
Record Request : Type := mkRequest {
  key : option MoonshotKey;
  retryCount : option Z;
}.

Inductive Completion : Type :=
| Returned
| ThrewHttpError (status : Z) (msg : option string)
| ThrewRetryableError (msg : string)
| ThrewTypeError
| ThrewAssertNever.

(** What [sendProxyError] is called with. *)
Inductive Sent : Type :=
| SentNotJson (status : Z) (statusMessage parseError note : string)
| SentPayload (status : Z) (statusMessage : string) (payload : ErrorPayload).

(** What a handler leaves behind. *)
Record Outcome : Type := mkOutcome {
  pool_after : list MoonshotKey;
  retryCount_after : option Z;
  delay : option Z;                 (* the [setTimeout] that was awaited *)
  reenqueued : bool;                (* [reenqueueRequest] went through *)
  sent : option Sent;
  payload_after : option ErrorPayload;   (* the body object, as mutated *)
  completion : Completion;
}.

(** [x || d] for a number. *)
Definition num_or (x : option Z) (d : Z) : Z :=
  match x with
  | Some n => if n =? 0 then d else n
  | None => d
  end.

(** [x || d] for a string. *)
Definition str_or (x : option string) (d : string) : string :=
  match x with
  | Some (String c s) => String c s
  | _ => d
  end.

(** [errorPayload.proxy_note = note] *)
Definition with_note (p : ErrorPayload) (note : string) : ErrorPayload :=
  mkPayload (error p) (Some note).

Section Handlers.

(** Whether [reenqueueRequest(req)] goes through; it throws otherwise. *)
Variable reenqueue_ok : bool.

(** [2000 + Math.floor(Math.random() * 4000)] *)
Definition retryDelay (rnd : Q) : Z := 2000 + Qfloor (rnd * 4000).

(** [handleMoonshotRateLimitError(req, errorPayload)] at time [now] with
    the draw [rnd] of [Math.random()]. *)
Definition handleMoonshotRateLimitError (req : Request)
    (errorPayload : ErrorPayload) (now : Z) (rnd : Q) (pool : list MoonshotKey)
  : Outcome :=
  match key req with
  | None =>
      mkOutcome pool (retryCount req) None false None (Some errorPayload)
        ThrewTypeError
  | Some k =>
      match markRateLimited (hash k) now pool with
      | Throw _ =>
          mkOutcome pool (retryCount req) None false None (Some errorPayload)
            ThrewTypeError
      | Ok pool' =>
          let n := num_or (retryCount req) 0 + 1 in
          let giveUp :=
            with_note errorPayload
              "Too many requests to the Moonshot API. Please try again later." in
          if n <=? 3 then
            if reenqueue_ok then
              mkOutcome pool' (Some n) (Some (retryDelay rnd)) true None
                (Some errorPayload)
                (ThrewRetryableError
                   ("Moonshot rate-limited request re-enqueued (attempt "
                    ++ pretty n ++ "/3)."))
            else
              mkOutcome pool' (Some n) (Some (retryDelay rnd)) false None
                (Some giveUp) Returned
          else
            mkOutcome pool' (Some n) None false None (Some giveUp) Returned
      end
  end.

(** The tail of [handleUpstreamErrors]: redact, send, throw. *)
Definition sendAndThrow (status : Z) (statusMessage : string)
    (p : ErrorPayload) (pool : list MoonshotKey) (retries : option Z)
    (waited : option Z) : Outcome :=
  let p' :=
    match error p with
    | Some e =>
        match message e with
        | Some (String c m) =>
            mkPayload
              (Some (mkError (code e) (type e)
                       (Some (redactOrgId (String c m)))))
              (proxy_note p)
        | _ => p
        end
    | None => p
    end in
  mkOutcome pool retries waited false
    (Some (SentPayload status statusMessage p')) (Some p')
    (ThrewHttpError status (error p' ≫= message)).

(** [handleUpstreamErrors(proxyRes, req, res, body)] for a request whose
    key is a Moonshot key ([req.key.service === "moonshot"]). *)
Definition handleUpstreamErrors (proxyRes : ProxyRes) (req : Request)
    (body : Body) (now : Z) (rnd : Q) (pool : list MoonshotKey) : Outcome :=
  let status := num_or (statusCode proxyRes) 500 in
  let statusMessage := str_or (statusMessage proxyRes) "Internal Server Error" in
  let idle := mkOutcome pool (retryCount req) None false None in
  match key req with
  | None => idle None ThrewTypeError       (* [req.key!.service] *)
  | Some k =>
      if status <? 400 then
        idle (match body with Json p => Some p | _ => None end) Returned
      else
        match body with
        | Text s =>
            let parseError := "Expected response to be an object, got string" in
            mkOutcome pool (retryCount req) None false
              (Some (SentNotJson status statusMessage parseError
                       ("Proxy got back an error, but it was not in JSON format. This is likely a temporary problem with the upstream service. Response body: "
                        ++ substring 0 128 s)))
              None
              (ThrewHttpError status (Some parseError))
        | JsonNull => idle None ThrewTypeError   (* [errorPayload.error] on [null] *)
        | Json errorPayload =>
            let finish p := sendAndThrow status statusMessage p pool
                              (retryCount req) None in
            if status =? 400 then
              finish (with_note errorPayload
                        "The Moonshot API rejected the request. Check the error message for details.")
            else if status =? 401 then
              sendAndThrow status statusMessage
                (with_note errorPayload
                   "Assigned API key is invalid or revoked, please try again.")
                (disable k revoked pool) (retryCount req) None
            else if status =? 402 then finish errorPayload
            else if status =? 405 then finish errorPayload
            else if status =? 403 then
              mkOutcome (disable k revoked pool) (retryCount req) None false None
                (Some (with_note errorPayload
                         "Assigned API key is invalid or revoked, please try again."))
                Returned
            else if status =? 429 then
              let o := handleMoonshotRateLimitError req errorPayload now rnd pool in
              match completion o with
              | Returned =>
                  sendAndThrow status statusMessage
                    (default errorPayload (payload_after o))
                    (pool_after o) (retryCount_after o) (delay o)
              | _ => o
              end
            else if status =? 404 then idle (Some errorPayload) ThrewAssertNever
            else if status =? 503 then
              finish (with_note errorPayload
                        "Upstream service unavailable. Try again later.")
            else
              finish (with_note errorPayload
                        "Unrecognized error from upstream service.")
        end
  end.

End Handlers.

(** ** What the handlers do to the key *)

Lemma markRateLimited_found h now ks r :
  find (has_hash h) ks = Some r ->
  exists ks' r',
    markRateLimited h now ks = Ok ks'
    /\ find (has_hash h) ks' = Some r'
    /\ rateLimitedAt r' = now
    /\ rateLimitedUntil r' = now + RATE_LIMIT_LOCKOUT
    /\ (isDisabled r', isRevoked r', isOverQuota r')
       = (isDisabled r, isRevoked r, isOverQuota r).
Proof.
  intros Hr. unfold markRateLimited. rewrite Hr.
  eexists. eexists. split; [reflexivity|]. split.
  - apply find_modify_first; [exact Hr|].
    apply find_some in Hr as [_ Hr]. exact Hr.
  - simpl. auto.
Qed.

(** X14. A Moonshot key that answers 401 or 403 (with a JSON body) is taken
    out of rotation until the next recheck: [handleUpstreamErrors] disables
    it as revoked and does not re-enqueue the request, and, in a pool where
    at most one record has that hash, after any further calls of [get],
    [markRateLimited], [incrementUsage] and [KeyPool.disable] no [get]
    returns the key.  (A recheck puts the key back into rotation.) *)
Theorem rejected_key_leaves_rotation (reenqueue_ok : bool)
    (proxyRes : ProxyRes) (req : Request) (payload : ErrorPayload)
    (now : Z) (rnd : Q) (pool : list MoonshotKey) (k : MoonshotKey) :
  key req = Some k ->
  statusCode proxyRes = Some 401 \/ statusCode proxyRes = Some 403 ->
  (hash_count (hash k) pool <= 1)%nat ->
  let out := handleUpstreamErrors reenqueue_ok proxyRes req (Json payload)
               now rnd pool in
  pool_after out = disable k revoked pool
  /\ reenqueued out = false
  /\ (forall r, find (has_hash (hash k)) pool = Some r ->
        exists r', find (has_hash (hash k)) (pool_after out) = Some r'
          /\ isDisabled r' = true /\ isRevoked r' = true)
  /\ (forall (ops : list MoonshotPool.Op) model (rnd' : Q) (t t' : Z) copy,
        (0 <= rnd')%Q -> (rnd' < 1)%Q ->
        forallb (fun op => negb (MoonshotPool.is_recheck op)) ops = true ->
        fst (get model rnd' t t' (MoonshotPool.run_ops ops (pool_after out)))
        = Ok copy ->
        hash copy <> hash k).
Proof.
  intros Hk Hs Hu out.
  assert (E : pool_after out = disable k revoked pool
              /\ reenqueued out = false).
  { subst out. unfold handleUpstreamErrors. rewrite Hk.
    destruct Hs as [-> | ->]; simpl; auto. }
  destruct E as [E1 E2]. rewrite E1.
  split; [reflexivity|]. split; [exact E2|]. split.
  - intros r Hr.
    destruct (disable_flags k revoked pool r Hr) as (r' & Hf & Hd & Hrev & _).
    eauto.
  - intros ops model rnd' t t' copy H0 H1 Hops Hget.
    apply (MoonshotPool.get_skips_out_of_rotation (hash k) model rnd' t t'
             (MoonshotPool.run_ops ops (disable k revoked pool)) copy H0 H1);
      [|exact Hget].
    apply MoonshotPool.run_ops_out_of_rotation; [exact Hops|].
    now apply MoonshotPool.disable_out_of_rotation.
Qed.

Lemma rejected_key_leaves_rotation_witness :
  (exists r',
     find (has_hash "h1")
       (pool_after
          (handleUpstreamErrors true (mkProxyRes (Some 403) None)
             (mkRequest (Some recent_key) None) (Json (mkPayload None None))
             1000 0 [recent_key; idle_key])) = Some r'
     /\ isDisabled r' = true /\ isRevoked r' = true)
  /\ exists copy,
       fst (get "moonshot-v1-8k" 0 2000 2000
              (MoonshotPool.run_ops
                 [MoonshotPool.OpIncrementUsage "h1" "moonshot" (mkUsage 10 20)]
                 (pool_after
                    (handleUpstreamErrors true (mkProxyRes (Some 403) None)
                       (mkRequest (Some recent_key) None)
                       (Json (mkPayload None None))
                       1000 0 [recent_key; idle_key])))) = Ok copy
       /\ hash copy <> "h1".
Proof.
  destruct (rejected_key_leaves_rotation true (mkProxyRes (Some 403) None)
              (mkRequest (Some recent_key) None) (mkPayload None None)
              1000 0 [recent_key; idle_key] recent_key)
    as (_ & _ & H & Hout).
  - reflexivity.
  - right. reflexivity.
  - vm_compute. lia.
  - split; [apply (H recent_key); reflexivity|].
    eexists. split; [vm_compute; reflexivity|].
    apply (Hout [MoonshotPool.OpIncrementUsage "h1" "moonshot" (mkUsage 10 20)]
             "moonshot-v1-8k" 0%Q 2000 2000).
    + unfold Qle; simpl; lia.
    + unfold Qlt; simpl; lia.
    + reflexivity.
    + vm_compute. reflexivity.
Defined.

(** ** The retry budget of a rate-limited request *)

Lemma retryDelay_range (rnd : Q) :
  (0 <= rnd)%Q -> (rnd < 1)%Q -> 2000 <= retryDelay rnd < 6000.
Proof.
  intros H0 H1. unfold retryDelay.
  assert (Hlo : (0 <= rnd * 4000)%Q).
  { apply Qmult_le_0_compat; [exact H0|]. unfold Qle; simpl; lia. }
  assert (Hhi : (rnd * 4000 < 4000)%Q).
  { rewrite <- (Qmult_1_l 4000) at 2. apply Qmult_lt_compat_r; [|exact H1].
    unfold Qlt; simpl; lia. }
  assert (Hf0 : 0 <= Qfloor (rnd * 4000)).
  { change 0 with (Qfloor 0). now apply Qfloor_resp_le. }
  assert (Hf1 : Qfloor (rnd * 4000) < 4000).
  { rewrite Zlt_Qlt. eapply Qle_lt_trans; [apply Qfloor_le|exact Hhi]. }
  lia.
Qed.

(** X15. A 429 from Moonshot.  The key of the request is locked out until
    [now + RATE_LIMIT_LOCKOUT] whatever happens next, and [req.retryCount]
    goes up by one.  While the count is at most 3 and re-enqueueing goes
    through, the request is re-enqueued after a delay between 2000 and
    5999 ms, nothing is sent to the client and the handler ends with the
    retryable error; from the fourth 429 on, or when re-enqueueing fails,
    the client gets the 429 with the note "Too many requests to the
    Moonshot API". *)
Theorem moonshot_429_retry_budget (reenqueue_ok : bool) (msg : option string)
    (req : Request) (payload : ErrorPayload) (now : Z) (rnd : Q)
    (pool : list MoonshotKey) (k r : MoonshotKey) :
  key req = Some k ->
  find (has_hash (hash k)) pool = Some r ->
  (0 <= rnd)%Q -> (rnd < 1)%Q ->
  let n := num_or (retryCount req) 0 + 1 in
  let out := handleUpstreamErrors reenqueue_ok (mkProxyRes (Some 429) msg) req
               (Json payload) now rnd pool in
  retryCount_after out = Some n
  /\ (exists r',
        find (has_hash (hash k)) (pool_after out) = Some r'
        /\ rateLimitedAt r' = now
        /\ rateLimitedUntil r' = now + RATE_LIMIT_LOCKOUT
        /\ (isDisabled r', isRevoked r', isOverQuota r')
           = (isDisabled r, isRevoked r, isOverQuota r))
  /\ (n <= 3 -> reenqueue_ok = true ->
      completion out
      = ThrewRetryableError
          ("Moonshot rate-limited request re-enqueued (attempt "
           ++ pretty n ++ "/3).")
      /\ reenqueued out = true /\ sent out = None
      /\ exists d, delay out = Some d /\ 2000 <= d < 6000)
  /\ (3 < n \/ reenqueue_ok = false ->
      reenqueued out = false
      /\ exists m p,
           completion out = ThrewHttpError 429 m
           /\ sent out
              = Some (SentPayload 429 (str_or msg "Internal Server Error") p)
           /\ proxy_note p
              = Some "Too many requests to the Moonshot API. Please try again later.").
Proof.
  intros Hk Hr H0 H1 n out.
  destruct (markRateLimited_found (hash k) now pool r Hr)
    as (pool' & r' & Hm & Hf & Ha & Hu & Hflags).
  assert (E : out =
    let o := handleMoonshotRateLimitError reenqueue_ok req payload now rnd pool in
    match completion o with
    | Returned =>
        sendAndThrow 429 (str_or msg "Internal Server Error")
          (default payload (payload_after o))
          (pool_after o) (retryCount_after o) (delay o)
    | _ => o
    end).
  { subst out. unfold handleUpstreamErrors. rewrite Hk. reflexivity. }
  unfold handleMoonshotRateLimitError in E. rewrite Hk, Hm in E.
  fold n in E. cbv zeta in E.
  destruct (Z.leb_spec n 3) as [Hn|Hn]; destruct reenqueue_ok; simpl in E;
    rewrite E; simpl.
  - split; [reflexivity|]. split; [eauto 6|]. split.
    + intros _ _. repeat split. exists (retryDelay rnd).
      split; [reflexivity|]. now apply retryDelay_range.
    + intros [H|H]; [lia|discriminate].
  - split; [reflexivity|]. split; [eauto 6|]. split.
    + intros _ H. discriminate.
    + intros _. split; [reflexivity|].
      destruct (error payload) as [[c t [[|a m]|]]|]; simpl; eauto.
  - split; [reflexivity|]. split; [eauto 6|]. split.
    + intros H. lia.
    + intros _. split; [reflexivity|].
      destruct (error payload) as [[c t [[|a m]|]]|]; simpl; eauto.
  - split; [reflexivity|]. split; [eauto 6|]. split.
    + intros H. lia.
    + intros _. split; [reflexivity|].
      destruct (error payload) as [[c t [[|a m]|]]|]; simpl; eauto.
Qed.

Lemma moonshot_429_retry_budget_witness :
  retryCount_after
    (handleUpstreamErrors true (mkProxyRes (Some 429) None)
       (mkRequest (Some recent_key) (Some 2)) (Json (mkPayload None None))
       1000 (1 # 2) [recent_key; idle_key]) = Some 3.
Proof.
  destruct (moonshot_429_retry_budget true None
              (mkRequest (Some recent_key) (Some 2)) (mkPayload None None)
              1000 (1 # 2) [recent_key; idle_key] recent_key recent_key)
    as (H & _).
  - reflexivity.
  - reflexivity.
  - unfold Qle; simpl; lia.
  - unfold Qlt; simpl; lia.
  - exact H.
Defined.

(** ** Which responses end how *)

Lemma sendAndThrow_client status statusMessage p pool retries waited :
  let out := sendAndThrow status statusMessage p pool retries waited in
  exists p',
    completion out = ThrewHttpError status (error p' ≫= message)
    /\ sent out = Some (SentPayload status statusMessage p')
    /\ error p' ≫= message = redactOrgId <$> (error p ≫= message)
    /\ reenqueued out = false.
Proof.
  unfold sendAndThrow. simpl.
  destruct (error p) as [[c t [[|a m]|]]|] eqn:E; simpl;
    eexists; repeat split; simpl; try rewrite E; reflexivity.
Qed.

(** X16. How [handleUpstreamErrors] ends for a request with a Moonshot key.
    A status below 400 is left alone.  From 400 on: a body that is not
    JSON is answered with an [HttpError] of the upstream status before any
    status is looked at, so the pool is untouched even for 401, 403 and
    429; with a JSON body, 403 returns normally and 404 ends in the error
    of [assertNever], both without anything being sent; every status other
    than 403, 404 and 429 is sent to the client and rethrown as an
    [HttpError] of the same status, the message with organisation ids
    redacted; and only 401, 403 and 429 change the pool. *)
Theorem upstream_error_outcomes (reenqueue_ok : bool) (proxyRes : ProxyRes)
    (req : Request) (body : Body) (now : Z) (rnd : Q)
    (pool : list MoonshotKey) (k : MoonshotKey) :
  key req = Some k ->
  let status := num_or (statusCode proxyRes) 500 in
  let statusText := str_or (statusMessage proxyRes) "Internal Server Error" in
  let out := handleUpstreamErrors reenqueue_ok proxyRes req body now rnd pool in
  (status < 400 ->
   completion out = Returned /\ sent out = None /\ pool_after out = pool)
  /\ (400 <= status -> forall s, body = Text s ->
      completion out
      = ThrewHttpError status (Some "Expected response to be an object, got string")
      /\ pool_after out = pool /\ reenqueued out = false)
  /\ (400 <= status -> forall p, body = Json p ->
      (status = 403 -> completion out = Returned /\ sent out = None)
      /\ (status = 404 ->
          completion out = ThrewAssertNever /\ sent out = None)
      /\ (status <> 403 -> status <> 404 -> status <> 429 ->
          exists p',
            completion out = ThrewHttpError status (error p' ≫= message)
            /\ sent out = Some (SentPayload status statusText p')
            /\ error p' ≫= message = redactOrgId <$> (error p ≫= message)
            /\ reenqueued out = false)
      /\ (status <> 401 -> status <> 403 -> status <> 429 ->
          pool_after out = pool)).
Proof.
  intros Hk status statusText out. subst out.
  unfold handleUpstreamErrors. rewrite Hk. fold status statusText.
  split; [|split].
  - intros H. replace (status <? 400) with true
      by (symmetry; apply Z.ltb_lt; exact H). auto.
  - intros H s ->. replace (status <? 400) with false
      by (symmetry; apply Z.ltb_ge; exact H). auto.
  - intros H p ->. replace (status <? 400) with false
      by (symmetry; apply Z.ltb_ge; exact H).
    assert (Hsend : forall q pl,
      exists p',
        completion (sendAndThrow status statusText (with_note p q) pl
                      (retryCount req) None)
        = ThrewHttpError status (error p' ≫= message)
        /\ sent (sendAndThrow status statusText (with_note p q) pl
                   (retryCount req) None)
           = Some (SentPayload status statusText p')
        /\ error p' ≫= message = redactOrgId <$> (error p ≫= message)
        /\ reenqueued (sendAndThrow status statusText (with_note p q) pl
                         (retryCount req) None) = false)
      by (intros q pl; apply (sendAndThrow_client status statusText (with_note p q))).
    assert (Hplain :
      exists p',
        completion (sendAndThrow status statusText p pool (retryCount req) None)
        = ThrewHttpError status (error p' ≫= message)
        /\ sent (sendAndThrow status statusText p pool (retryCount req) None)
           = Some (SentPayload status statusText p')
        /\ error p' ≫= message = redactOrgId <$> (error p ≫= message)
        /\ reenqueued (sendAndThrow status statusText p pool
                         (retryCount req) None) = false)
      by apply sendAndThrow_client.
    destruct (Z.eqb_spec status 400) as [E|N400];
      [repeat split; try lia; intros; try reflexivity; apply Hsend|].
    destruct (Z.eqb_spec status 401) as [E|N401];
      [repeat split; try lia; intros; try reflexivity; apply Hsend|].
    destruct (Z.eqb_spec status 402) as [E|N402];
      [repeat split; try lia; intros; try reflexivity; apply Hplain|].
    destruct (Z.eqb_spec status 405) as [E|N405];
      [repeat split; try lia; intros; try reflexivity; apply Hplain|].
    destruct (Z.eqb_spec status 403) as [E|N403];
      [repeat split; intros; try reflexivity; lia|].
    destruct (Z.eqb_spec status 429) as [E|N429];
      [repeat split; intros; lia|].
    destruct (Z.eqb_spec status 404) as [E|N404];
      [repeat split; intros; try reflexivity; lia|].
    destruct (Z.eqb_spec status 503) as [E|N503];
      repeat split; try lia; intros; try reflexivity; apply Hsend.
Qed.

Lemma upstream_error_outcomes_witness :
  completion
    (handleUpstreamErrors true (mkProxyRes (Some 404) None)
       (mkRequest (Some recent_key) None) (Json (mkPayload None None))
       1000 0 [recent_key; idle_key]) = ThrewAssertNever.
Proof.
  destruct (upstream_error_outcomes true (mkProxyRes (Some 404) None)
              (mkRequest (Some recent_key) None) (Json (mkPayload None None))
              1000 0 [recent_key; idle_key] recent_key eq_refl)
    as (_ & _ & H).
  destruct (H ltac:(simpl; lia) (mkPayload None None) eq_refl)
    as (_ & H404 & _).
  apply H404. reflexivity.
Defined.

(** ** Redaction *)

Fixpoint all_chars (f : ascii -> bool) (s : string) : bool :=
  match s with
  | EmptyString => true
  | String c s' => f c && all_chars f s'
  end.

Lemma lang_rep_cls (p : cset) (n : nat) : forall id,
  String.length id = n -> all_chars (cset_mem p) id = true ->
  lang (rep n (Cls p)) id.
Proof.
  induction n as [|n IH]; intros [|c id] Hl Ha; simpl in *; try discriminate.
  - constructor.
  - apply andb_prop in Ha as [Hc Ha].
    change (String c id) with (String c "" ++ id).
    constructor; [now constructor|]. apply IH; [congruence|exact Ha].
Qed.

Lemma test_org_id_prefix s : test org_id s = true -> String.prefix "org-" s = true.
Proof.
  intros H. apply test_spec in H as (pre & mid & post & -> & Hm & Hb & _).
  rewrite (Hb eq_refl), append_nil_l. simpl in Hm.
  apply lang_Seq_inv in Hm as (a & b & -> & Ha & _).
  change (Seq (Cls (COne "o")) (Seq (Cls (COne "r")) (Seq (Cls (COne "g"))
            (Seq (Cls (COne "-")) Eps)))) with (lit "org-") in Ha.
  apply lit_lang in Ha as ->. apply prefix_iff. exists (b ++ post).
  reflexivity.
Qed.

Lemma test_org_id_intro id post :
  String.length id = 24%nat -> all_chars (cset_mem CAny) id = true ->
  test org_id ("org-" ++ (id ++ post)) = true.
Proof.
  intros Hl Ha. apply test_spec. exists "", ("org-" ++ id), post.
  split; [|split; [|split]].
  - rewrite append_nil_l. reflexivity.
  - change (lang (Seq (lit "org-") (rep 24 (Cls CAny))) ("org-" ++ id)).
    apply lang_seq; [now apply lit_lang|now apply lang_rep_cls].
  - reflexivity.
  - discriminate.
Qed.

Lemma redact_from_skip m post :
  redact_from (String.length m) (m ++ post) = redact_from 0 post.
Proof.
  induction m as [|c m IH]; [destruct post; reflexivity|]. exact IH.
Qed.

(** No occurrence of ["org-"] starts in [m] and ends in a text that
    itself starts with ["org-"], unless it lies in [m]. *)
Lemma prefix_org_straddle c m rest :
  String.prefix "org-" (String c m ++ ("org-" ++ rest))
  = String.prefix "org-" (String c m).
Proof.
  destruct m as [|c1 [|c2 [|c3 [|c4 m]]]]; simpl;
    repeat match goal with
           | |- context [ascii_dec ?a ?b] => destruct (ascii_dec a b); subst
           end; try reflexivity; try discriminate; try congruence.
Qed.

Lemma redact_clean s : includes s "org-" = false -> redact_from 0 s = s.
Proof.
  induction s as [|c s IH]; [reflexivity|].
  change (includes (String c s) "org-")
    with (String.prefix "org-" (String c s) || includes s "org-").
  intros H. apply orb_false_elim in H as [Hp Hi].
  change (redact_from 0 (String c s))
    with (if test org_id (String c s)
          then "org-xxxxxxxxxxxxxxxxxxx" ++ redact_from 27 s
          else String c (redact_from 0 s)).
  destruct (test org_id (String c s)) eqn:E.
  - apply test_org_id_prefix in E. congruence.
  - now rewrite IH.
Qed.

(** X17. Redaction of OpenAI organisation ids in the error message sent to
    the client: a message without ["org-"] is sent as it is; in a message
    whose first ["org-"] is followed by 24 characters on the same line,
    these 24 characters are replaced by the fixed mask, the text before is
    kept and the text after is redacted in the same way. *)
Theorem redactOrgId_masks_first_id (pre id post : string) :
  includes pre "org-" = false ->
  String.length id = 24%nat ->
  all_chars (cset_mem CAny) id = true ->
  redactOrgId pre = pre
  /\ redactOrgId (pre ++ ("org-" ++ (id ++ post)))
     = pre ++ ("org-xxxxxxxxxxxxxxxxxxx" ++ redactOrgId post).
Proof.
  intros Hpre Hl Ha. split; [now apply redact_clean|].
  unfold redactOrgId.
  induction pre as [|c pre IH].
  - rewrite !append_nil_l.
    change (redact_from 0 ("org-" ++ (id ++ post)))
      with (if test org_id ("org-" ++ (id ++ post))
            then "org-xxxxxxxxxxxxxxxxxxx" ++ redact_from 27 ("rg-" ++ (id ++ post))
            else String "o" (redact_from 0 ("rg-" ++ (id ++ post)))).
    rewrite test_org_id_intro by assumption. f_equal.
    change ("rg-" ++ (id ++ post))
      with (String "r" (String "g" (String "-" (id ++ post)))).
    change (redact_from 27 (String "r" (String "g" (String "-" (id ++ post)))))
      with (redact_from 24 (id ++ post)).
    rewrite <- Hl. apply redact_from_skip.
  - change (includes (String c pre) "org-")
      with (String.prefix "org-" (String c pre) || includes pre "org-") in Hpre.
    apply orb_false_elim in Hpre as [Hp Hi].
    rewrite (append_cons c pre ("org-" ++ (id ++ post))),
      (append_cons c pre ("org-xxxxxxxxxxxxxxxxxxx" ++ redact_from 0 post)).
    change (redact_from 0 (String c (pre ++ ("org-" ++ (id ++ post)))))
      with (if test org_id (String c (pre ++ ("org-" ++ (id ++ post))))
            then "org-xxxxxxxxxxxxxxxxxxx"
                 ++ redact_from 27 (pre ++ ("org-" ++ (id ++ post)))
            else String c (redact_from 0 (pre ++ ("org-" ++ (id ++ post))))).
    destruct (test org_id (String c (pre ++ ("org-" ++ (id ++ post))))) eqn:E.
    + apply test_org_id_prefix in E.
      rewrite <- (append_cons c pre ("org-" ++ (id ++ post))) in E.
      rewrite prefix_org_straddle in E. congruence.
    + f_equal. now apply IH.
Qed.

Lemma redactOrgId_masks_first_id_witness :
  redactOrgId "You (org-abcdefghijklmnopqrstuvwx) hit the limit"
  = "You (org-xxxxxxxxxxxxxxxxxxx) hit the limit".
Proof.
  destruct (redactOrgId_masks_first_id "You (" "abcdefghijklmnopqrstuvwx"
              ") hit the limit" eq_refl eq_refl eq_refl) as [_ H].
  exact H.
Defined.

End MoonshotErrors.

(* ===================================================================== *)
(** * Membership in an array of strings
      ([Array.prototype.includes], [Set.prototype.has]) *)
(* ===================================================================== *)

Module JsArray.

(** [l.includes(s)] *)
Definition string_in (s : string) (l : list string) : bool :=
  existsb (String.eqb s) l.

Lemma string_in_In s l : string_in s l = true <-> In s l.
Proof.
  unfold string_in. rewrite existsb_exists. split.
  - intros (x & Hx & E). apply String.eqb_eq in E. now subst.
  - intros H. exists s. split; [exact H|apply String.eqb_refl].
Qed.

End JsArray.

(* ===================================================================== *)
(** * The geoblock middleware ([geoblockMiddleware]) *)
(* ===================================================================== *)

Module Geoblock.
Import Js Models JsArray.

Record Config : Type := mkConfig {
  GEOBLOCK_ENABLED : bool;
  GEOBLOCK_ALLOWED_COUNTRIES : option (list string);
  GEOBLOCK_DB_PATH : option string;
}.

(** What [geoip.lookup(ip)] does: it throws, returns [null], or returns a
    record whose [country] may be missing. *)
Inductive Lookup : Type :=
| LookupThrows
| LookupNull
| LookupGeo (country : option string).

(** [req.ip] and [req.ips] *)
Record Request : Type := mkRequest {
  ip : option string;
  ips : list string;
}.

Inductive Outcome : Type :=
| Next                                   (* [next()] *)
| Denied (country_code : string)         (* [res.status(403).json(...)] *)
| Threw.                                 (* the exception of [geoip.lookup] *)

Section Middleware.

Variable lookup : string -> Lookup.

(** [geoblockMiddleware(req, res, next)] *)
Definition geoblockMiddleware (config : Config) (req : Request) : Outcome :=
  if negb (GEOBLOCK_ENABLED config) then Next
  else
    match ip req with
    | None | Some EmptyString => Next
    | Some clientIp =>
        (* [req.ips.includes(clientIp) && geoip.lookup(clientIp) === null],
           outside the [try] *)
        let private :=
          if string_in clientIp (ips req) then
            match lookup clientIp with
            | LookupThrows => None
            | LookupNull => Some true
            | LookupGeo _ => Some false
            end
          else Some false in
        match private with
        | None => Threw
        | Some true => Next
        | Some false =>
            (* both branches on [GEOBLOCK_DB_PATH] call [geoip.lookup] *)
            let geo :=
              if truthy (GEOBLOCK_DB_PATH config) then lookup clientIp
              else lookup clientIp in
            match geo with
            | LookupThrows => Next                       (* the [catch] *)
            | LookupNull => Next
            | LookupGeo None | LookupGeo (Some EmptyString) => Next
            | LookupGeo (Some country) =>
                let allowedCountries :=
                  default ["RU"] (GEOBLOCK_ALLOWED_COUNTRIES config) in
                if string_in country allowedCountries then Next
                else Denied country
            end
        end
    end.

(** X18. Who the geoblock turns away.  A request is answered 403 exactly
    when the geoblock is enabled, the request has a non-empty [req.ip], the
    lookup of that address gives a non-empty country, and the country is
    not in the allowed list ([RU] alone when the list is not configured; an
    empty configured list allows no country).  The exception of a failing
    lookup escapes exactly when the address is also in [req.ips]; in every
    other case, a lookup that fails or finds nothing included, the request
    goes on.  [GEOBLOCK_DB_PATH] changes none of this. *)
Theorem geoblock_denies_exactly (config : Config) (req : Request) :
  let allowed := default ["RU"] (GEOBLOCK_ALLOWED_COUNTRIES config) in
  let out := geoblockMiddleware config req in
  (forall c, out = Denied c <->
     GEOBLOCK_ENABLED config = true
     /\ c <> ""
     /\ ~ In c allowed
     /\ exists a, ip req = Some a /\ a <> "" /\ lookup a = LookupGeo (Some c))
  /\ (out = Threw <->
      GEOBLOCK_ENABLED config = true
      /\ exists a, ip req = Some a /\ a <> "" /\ In a (ips req)
                   /\ lookup a = LookupThrows)
  /\ (forall path,
        geoblockMiddleware
          (mkConfig (GEOBLOCK_ENABLED config)
             (GEOBLOCK_ALLOWED_COUNTRIES config) path) req = out).
Proof.
  intros allowed out. subst out. unfold geoblockMiddleware.
  destruct config as [en al db]. simpl in *. fold allowed.
  assert (Hdb : forall (p : option string) (x : Lookup),
            (if truthy p then x else x) = x) by (intros p x; now destruct (truthy p)).
  split; [|split].
  - intros c. destruct en; simpl;
      [|split; [discriminate|intros (H & _); discriminate]].
    destruct (ip req) as [[|a0 a]|] eqn:Eip;
      try (split; [discriminate|
                   intros (_ & _ & _ & x & [= <-] & Hx & _); congruence]).
    rewrite Hdb.
    destruct (string_in (String a0 a) (ips req)) eqn:Ein;
      destruct (lookup (String a0 a)) as [| |[[|c0 c']|]] eqn:El;
      try (split; [discriminate|
                   intros (_ & _ & _ & x & [= <-] & _ & Hx); congruence]).
    + split; [discriminate|].
      intros (_ & Hc & _ & x & [= <-] & _ & Hx). congruence.
    + destruct (string_in (String c0 c') allowed) eqn:Ea.
      * split; [discriminate|].
        intros (_ & _ & Hn & x & [= <-] & _ & Hx).
        rewrite El in Hx. injection Hx as <-.
        apply string_in_In in Ea. contradiction.
      * split.
        -- intros [= <-]. repeat split; [discriminate| |].
           ++ intros Hin. apply string_in_In in Hin. congruence.
           ++ exists (String a0 a). repeat split; [discriminate|exact El].
        -- intros (_ & _ & _ & x & [= <-] & _ & Hx).
           rewrite El in Hx. injection Hx as <-. reflexivity.
    + split; [discriminate|].
      intros (_ & Hc & _ & x & [= <-] & _ & Hx). congruence.
    + destruct (string_in (String c0 c') allowed) eqn:Ea.
      * split; [discriminate|].
        intros (_ & _ & Hn & x & [= <-] & _ & Hx).
        rewrite El in Hx. injection Hx as <-.
        apply string_in_In in Ea. contradiction.
      * split.
        -- intros [= <-]. repeat split; [discriminate| |].
           ++ intros Hin. apply string_in_In in Hin. congruence.
           ++ exists (String a0 a). repeat split; [discriminate|exact El].
        -- intros (_ & _ & _ & x & [= <-] & _ & Hx).
           rewrite El in Hx. injection Hx as <-. reflexivity.
  - destruct en; simpl; [|split; [discriminate|intros (H & _); discriminate]].
    destruct (ip req) as [[|a0 a]|] eqn:Eip;
      try (split; [discriminate|intros (_ & x & [= <-] & Hx & _); congruence]).
    rewrite Hdb.
    destruct (string_in (String a0 a) (ips req)) eqn:Ein;
      destruct (lookup (String a0 a)) as [| |[[|c0 c']|]] eqn:El;
      try (split; [discriminate|
                   intros (_ & x & [= <-] & _ & _ & Hx); congruence]);
      try (destruct (string_in (String c0 c') allowed);
           split; [discriminate| |discriminate|];
           intros (_ & x & [= <-] & _ & _ & Hx); congruence).
    + split; [|reflexivity]. intros _. split; [reflexivity|].
      exists (String a0 a). repeat split; [discriminate| |exact El].
      now apply string_in_In.
    + split; [discriminate|].
      intros (_ & x & [= <-] & _ & Hin & _).
      apply string_in_In in Hin. congruence.
  - intros path. destruct en; [|reflexivity]. simpl.
    destruct (ip req) as [[|a0 a]|]; [reflexivity| |reflexivity].
    rewrite !Hdb. reflexivity.
Qed.

End Middleware.

Lemma geoblock_denies_exactly_witness :
  geoblockMiddleware (fun _ => LookupGeo (Some "RU"))
    (mkConfig true (Some []) None) (mkRequest (Some "203.0.113.7") [])
  = Denied "RU".
Proof.
  destruct (geoblock_denies_exactly (fun _ => LookupGeo (Some "RU"))
              (mkConfig true (Some []) None)
              (mkRequest (Some "203.0.113.7") [])) as (H & _).
  apply H. repeat split; [discriminate|intros []|].
  exists "203.0.113.7". repeat split. discriminate.
Defined.

End Geoblock.

(* ===================================================================== *)
(** * The origin block ([blockZoomerOrigins]) *)
(* ===================================================================== *)

Module BlockOrigins.
Import Js Models.

Definition DISALLOWED_ORIGIN_SUBSTRINGS : list string :=
  [ "janitorai.com"; "janitor.ai"; "vip.jewproxy.tech"; "jewproxy.tech" ].

(** [req.headers.origin], [.referer], [.host] and [req.body.messages];
    the [content] of a message is [None] when it is not a string. *)
Record Request : Type := mkRequest {
  origin : option string;
  referer : option string;
  host : option string;
  messages : option (list (option string));
}.

Inductive Outcome : Type :=
| Passed
| ThrewTypeError                  (* [req.body.messages[0]] on [undefined] *)
| ThrewZoomerForbidden.

(** [a || b] for header values. *)
Definition or_else (a b : option string) : option string :=
  if truthy a then a else b.

(** [messages[0]?.content], when it is a string. *)
Definition first_content (ms : list (option string)) : option string :=
  match ms with
  | m :: _ => m
  | [] => None
  end.

(** [blockZoomerOrigins(req)] *)
Definition blockZoomerOrigins (req : Request) : Outcome :=
  match or_else (origin req) (or_else (referer req) (host req)) with
  | Some (String c o) =>
      if existsb (fun s => includes (String c o) s) DISALLOWED_ORIGIN_SUBSTRINGS
      then
        match messages req with
        | None => ThrewTypeError
        | Some ms =>
            match first_content ms with
            | Some content =>
                if String.eqb content "Just say TEST" then Passed
                else ThrewZoomerForbidden
            | None => ThrewZoomerForbidden
            end
        end
      else Passed
  | _ => Passed
  end.

Lemma append_assoc (a b c : string) : (a ++ b) ++ c = a ++ (b ++ c).
Proof.
  induction a as [|x a IH]; [now rewrite !append_nil_l|].
  rewrite !append_cons. now rewrite IH.
Qed.

Lemma includes_tail s a b : includes s (a ++ b) = true -> includes s b = true.
Proof.
  rewrite !includes_iff. intros (s1 & s2 & ->).
  exists (s1 ++ a), s2. now rewrite !append_assoc.
Qed.

(** The header that decides: the first of Origin, Referer and Host that is
    present and not empty. *)
Definition deciding_header (req : Request) : option string :=
  match origin req with
  | Some (String c s) => Some (String c s)
  | _ =>
      match referer req with
      | Some (String c s) => Some (String c s)
      | _ =>
          match host req with
          | Some (String c s) => Some (String c s)
          | _ => None
          end
      end
  end.

(** X19. [blockZoomerOrigins] looks at one header only, the first of Origin,
    Referer and Host that is present and not empty.  It lets the request
    pass unless that header contains [janitorai.com], [janitor.ai] or
    [jewproxy.tech]; then it throws the forbidden error, except that a
    request whose first message is exactly the test prompt passes and one
    whose body has no [messages] ends in a [TypeError]. *)
Theorem blockZoomerOrigins_decides_on_one_header (req : Request) :
  let blocked (h : string) :=
    includes h "janitorai.com" || includes h "janitor.ai"
    || includes h "jewproxy.tech" in
  match deciding_header req with
  | None => blockZoomerOrigins req = Passed
  | Some h =>
      (blocked h = false -> blockZoomerOrigins req = Passed)
      /\ (blocked h = true ->
          match messages req with
          | None => blockZoomerOrigins req = ThrewTypeError
          | Some ms =>
              (first_content ms = Some "Just say TEST" ->
               blockZoomerOrigins req = Passed)
              /\ (first_content ms <> Some "Just say TEST" ->
                  blockZoomerOrigins req = ThrewZoomerForbidden)
          end)
  end.
Proof.
  intros blocked.
  assert (Hsome : forall h,
            existsb (fun s => includes h s) DISALLOWED_ORIGIN_SUBSTRINGS
            = blocked h).
  { intros h. unfold DISALLOWED_ORIGIN_SUBSTRINGS, blocked.
    cbn [existsb]. rewrite orb_false_r.
    destruct (includes h "janitorai.com"); [reflexivity|].
    destruct (includes h "janitor.ai"); [reflexivity|]. cbn [orb].
    destruct (includes h "vip.jewproxy.tech") eqn:E; [|reflexivity].
    symmetry. apply (includes_tail h "vip." "jewproxy.tech"). exact E. }
  assert (Hh : or_else (origin req) (or_else (referer req) (host req))
               = match deciding_header req with
                 | Some h => Some h
                 | None => or_else (origin req) (or_else (referer req) (host req))
                 end
               /\ (deciding_header req = None ->
                   truthy (or_else (origin req)
                             (or_else (referer req) (host req))) = false)).
  { unfold deciding_header, or_else.
    destruct (origin req) as [[|c1 o]|];
      destruct (referer req) as [[|c2 r]|];
      destruct (host req) as [[|c3 h]|]; simpl; split; congruence. }
  destruct Hh as [Hh Hnone]. unfold blockZoomerOrigins.
  destruct (deciding_header req) as [h|] eqn:Ed.
  - rewrite Hh.
    assert (Hne : exists c s, h = String c s).
    { unfold deciding_header in Ed.
      destruct (origin req) as [[|c1 o]|];
        destruct (referer req) as [[|c2 r]|];
        destruct (host req) as [[|c3 x]|]; simpl in Ed;
        try discriminate; injection Ed as <-; eauto. }
    destruct Hne as (c & s & ->). rewrite Hsome. split.
    + intros ->. reflexivity.
    + intros ->. destruct (messages req) as [ms|]; [|reflexivity].
      destruct (first_content ms) as [content|]; [|split; congruence].
      destruct (String.eqb_spec content "Just say TEST") as [->|Hne];
        split; congruence.
  - specialize (Hnone eq_refl).
    destruct (or_else (origin req) (or_else (referer req) (host req)))
      as [[|c s]|]; [reflexivity|discriminate|reflexivity].
Qed.

Lemma blockZoomerOrigins_decides_on_one_header_witness :
  blockZoomerOrigins
    (mkRequest (Some "https://example.org") (Some "https://janitorai.com/chat")
       None (Some [Some "Hello"])) = Passed.
Proof.
  pose proof (blockZoomerOrigins_decides_on_one_header
                (mkRequest (Some "https://example.org")
                   (Some "https://janitorai.com/chat") None
                   (Some [Some "Hello"]))) as H.
  cbv zeta in H. change (deciding_header _) with (Some "https://example.org") in H.
  destruct H as [H _]. apply H. reflexivity.
Defined.

End BlockOrigins.

(* ===================================================================== *)
(** * Qwen: model names, the thinking switch and the model list
      ([shared/api-schemas/qwen.ts], [proxy/qwen.ts]) *)
(* ===================================================================== *)

Module Qwen.
Import Js Models JsArray.
Open Scope Z_scope.

(** ** Model names *)

(** [/-thinking$|-nonthinking$/] without its anchors. *)
Definition variant_suffix : regex := Alt (lit "-thinking") (lit "-nonthinking").

(** [s.endsWith(sfx)] *)
Fixpoint endsWith (s sfx : string) : bool :=
  String.eqb s sfx
  || match s with
     | EmptyString => false
     | String _ s' => endsWith s' sfx
     end.

Definition getBaseModelName (model : string) : string :=
  strip_suffix variant_suffix model.

Definition isQwenModel (model : string) : bool :=
  let baseModel := strip_suffix variant_suffix model in
  startsWith baseModel "qwen" || includes baseModel "qwen".

Definition isQwenThinkingModel (model : string) : bool :=
  let baseModel := strip_suffix variant_suffix model in
  if startsWith baseModel "qwen3" then true
  else String.eqb baseModel "qwen-plus-latest"
       || String.eqb baseModel "qwen-plus-2025-04-28"
       || String.eqb baseModel "qwen-turbo-latest"
       || String.eqb baseModel "qwen-turbo-2025-04-28".

Definition isQwen3Model (model : string) : bool :=
  let baseModel := strip_suffix variant_suffix model in
  startsWith baseModel "qwen3".

Definition isThinkingVariant (model : string) : bool :=
  endsWith model "-thinking".

Definition isNonThinkingVariant (model : string) : bool :=
  endsWith model "-nonthinking".

(** ** The thinking switch *)

(** The fields of [req.body] that [handleThinkingCapability] reads and
    writes; [None] is [undefined]. *)
Record Body : Type := mkBody {
  model : string;
  stream : option bool;
  enable_thinking : option bool;
  thinking_budget : option Z;
}.

Definition is_true (b : option bool) : bool :=
  match b with
  | Some true => true
  | _ => false
  end.

(** [handleThinkingCapability(req)] *)
Definition handleThinkingCapability (b : Body) : Body :=
  if isThinkingVariant (model b) then
    mkBody (getBaseModelName (model b)) (stream b) (Some true)
      (thinking_budget b)
  else if isNonThinkingVariant (model b) then
    mkBody (getBaseModelName (model b)) (stream b) (Some false)
      (thinking_budget b)
  else if isQwenThinkingModel (model b) && is_true (stream b) then
    let e1 := match enable_thinking b with
              | None => Some false
              | e => e
              end in
    let e2 := match thinking_budget b, e1 with
              | Some _, Some false => Some true
              | _, _ => e1
              end in
    mkBody (model b) (stream b) e2 (thinking_budget b)
  else if isQwenThinkingModel (model b) && negb (is_true (stream b)) then
    mkBody (model b) (stream b) (Some false) (thinking_budget b)
  else b.

(** ** The model list *)

(** A model of the list.  The fields [object] and [created] play no part
    in what follows and are left out; [thinking] is
    [capabilities.thinking]. *)
Record Model : Type := mkModel {
  id : string;
  owned_by : option string;
  display_name : option string;
  thinking : bool;
  proxy_managed : bool;
}.

Definition knownQwenModels : list string :=
  [ "qwen-max"; "qwen-max-latest"; "qwen-max-2025-01-25";
    "qwen-plus"; "qwen-plus-latest"; "qwen-plus-2025-01-25";
    "qwen-turbo"; "qwen-turbo-latest"; "qwen-turbo-2024-11-01";
    "qwen3-235b-a22b"; "qwen3-32b"; "qwen3-30b-a3b" ].

(** [isQwen3Model(id) && !isThinkingVariant(id) && !isNonThinkingVariant(id)] *)
Definition is_base_qwen3 (modelId : string) : bool :=
  isQwen3Model modelId && negb (isThinkingVariant modelId)
  && negb (isNonThinkingVariant modelId).

(** [x || d] for a string. *)
Definition str_or (x : option string) (d : string) : string :=
  match x with
  | Some (String c s) => String c s
  | _ => d
  end.

(** The model that is pushed for a known id that upstream did not list. *)
Definition pushed (modelId : string) : Model :=
  mkModel modelId (Some "qwen") None (isQwenThinkingModel modelId) false.

(** The two variants returned for a base Qwen3 model. *)
Definition variants (m : Model) : list Model :=
  [ mkModel (id m ++ "-thinking") (Some (str_or (owned_by m) "qwen"))
      (Some (str_or (display_name m) (id m) ++ " (Thinking Mode)")) true true;
    mkModel (id m ++ "-nonthinking") (Some (str_or (owned_by m) "qwen"))
      (Some (str_or (display_name m) (id m) ++ " (Standard Mode)")) true true ].

(** The callback of [originalModelsData.flatMap]. *)
Definition expand (m : Model) : list Model :=
  let m' :=
    if isQwenThinkingModel (id m)
    then mkModel (id m) (owned_by m) (display_name m) true (proxy_managed m)
    else m in
  if is_base_qwen3 (id m') then variants m' else [m'].

(** The branch for [Array.isArray(models.data)]. *)
Definition listFromUpstream (data : list Model) : list Model :=
  let existingModelIds := map id data in
  let kept :=
    List.filter
      (fun m => negb (isQwen3Model (id m)) || isThinkingVariant (id m)
                || isNonThinkingVariant (id m)) data in
  let added :=
    map pushed
      (List.filter (fun k => negb (string_in k existingModelIds))
         knownQwenModels) in
  flat_map expand (app kept added).

(** The branch for a [models.data] that is not an array. *)
Definition ownList : list Model :=
  flat_map
    (fun modelId =>
       if is_base_qwen3 modelId
       then [ mkModel (modelId ++ "-thinking") (Some "qwen")
                (Some (modelId ++ " (Thinking Mode)")) true true;
              mkModel (modelId ++ "-nonthinking") (Some "qwen")
                (Some (modelId ++ " (Standard Mode)")) true true ]
       else [ pushed modelId ])
    knownQwenModels.

(** How the request for the upstream list ends. *)
Inductive Upstream : Type :=
| NoKey                          (* [keyPool.get] throws or gives no key *)
| RequestFailed                  (* [axios.get] rejects *)
| NoData                         (* [response.data] or [.data.data] is falsy *)
| DataNotArray
| DataArray (data : list Model).

(** [modelsCache] ([None] is [null]) and [modelsCacheTime]. *)
Record Cache : Type := mkCache {
  modelsCache : option (list Model);
  modelsCacheTime : Z;
}.

(** [getModelsResponse()]: [now] is the clock at the freshness test,
    [now'] the clock when the cache is written; the result is the [data]
    of the answer, [None] for [null]. *)
Definition getModelsResponse (now now' : Z) (up : Upstream) (st : Cache)
  : option (list Model) * Cache :=
  if now - modelsCacheTime st <? 1000 * 60 then (modelsCache st, st)
  else
    match up with
    | NoKey | RequestFailed | NoData => (Some [], st)
    | DataNotArray => (Some ownList, mkCache (Some ownList) now')
    | DataArray data =>
        (Some (listFromUpstream data),
         mkCache (Some (listFromUpstream data)) now')
    end.

(** ** Variant names *)

Lemma length_append (a b : string) :
  String.length (a ++ b) = (String.length a + String.length b)%nat.
Proof.
  induction a as [|c a IH]; [now rewrite append_nil_l|].
  rewrite append_cons. simpl. now rewrite IH.
Qed.

Lemma variant_suffix_lang s :
  accepts variant_suffix s = true <-> s = "-thinking" \/ s = "-nonthinking".
Proof.
  rewrite accepts_lang. unfold variant_suffix. split.
  - intros H. apply lang_Alt_inv in H as [H|H]; apply lit_lang in H; auto.
  - intros [->| ->]; [apply lang_alt_l|apply lang_alt_r]; now apply lit_lang.
Qed.

Lemma strip_variant (base sfx : string) :
  sfx = "-thinking" \/ sfx = "-nonthinking" ->
  strip_suffix variant_suffix (base ++ sfx) = base.
Proof.
  intros Hs. induction base as [|c base IH].
  - destruct Hs as [-> | ->]; vm_compute; reflexivity.
  - rewrite append_cons.
    assert (H : accepts variant_suffix (String c (base ++ sfx)) = false).
    { apply not_true_is_false. rewrite variant_suffix_lang.
      intros [E|E]; pose proof (f_equal String.length E) as L;
        simpl in L; rewrite length_append in L.
      - destruct Hs as [-> | ->]; simpl in L; lia.
      - destruct Hs as [-> | ->]; simpl in L; [|lia].
        destruct base as [|b1 [|b2 [|b3 base]]]; simpl in L; try lia.
        cbv [String.append] in E. congruence. }
    change (strip_suffix variant_suffix (String c (base ++ sfx)))
      with (if accepts variant_suffix (String c (base ++ sfx)) then ""
            else String c (strip_suffix variant_suffix (base ++ sfx))).
    rewrite H. now rewrite IH.
Qed.

Lemma endsWith_append (base sfx : string) : endsWith (base ++ sfx) sfx = true.
Proof.
  induction base as [|c base IH].
  - rewrite append_nil_l. destruct sfx; cbn [endsWith];
      rewrite String.eqb_refl; reflexivity.
  - rewrite append_cons. cbn [endsWith]. rewrite IH. apply orb_true_r.
Qed.

Lemma endsWith_iff (s sfx : string) :
  endsWith s sfx = true <-> exists base, s = base ++ sfx.
Proof.
  split.
  - induction s as [|c s IH]; cbn [endsWith].
    + rewrite orb_false_r. intros H. apply String.eqb_eq in H. subst.
      exists "". reflexivity.
    + intros H. apply orb_true_iff in H as [H|H].
      * apply String.eqb_eq in H. exists "". now rewrite append_nil_l.
      * destruct (IH H) as [base ->]. exists (String c base). reflexivity.
  - intros [base ->]. apply endsWith_append.
Qed.

Lemma nonthinking_is_not_thinking (base : string) :
  endsWith (base ++ "-nonthinking") "-thinking" = false.
Proof.
  apply not_true_is_false. rewrite endsWith_iff. intros [b E].
  assert (L : String.length b = (String.length base + 3)%nat).
  { apply (f_equal String.length) in E. rewrite !length_append in E.
    simpl in E. lia. }
  revert b E L. induction base as [|c base IH]; intros b E L.
  - destruct b as [|b1 [|b2 [|b3 [|b4 b]]]]; simpl in L; try lia.
    cbv [String.append] in E. congruence.
  - destruct b as [|c' b]; [simpl in L; lia|].
    rewrite !append_cons in E. injection E as _ E.
    apply (IH b E). simpl in L. lia.
Qed.

Definition defined (t : option Z) : bool :=
  match t with
  | Some _ => true
  | None => false
  end.

(** X20. The thinking switch of a Qwen request.  A model name with the
    suffix [-thinking] or [-nonthinking] is sent upstream without the
    suffix, whatever stands before it, with [enable_thinking] forced to
    [true] or [false].  For any other name of a thinking-capable model,
    [enable_thinking] ends up [true] exactly when the request streams and
    the client either asked for thinking or gave a [thinking_budget]; a
    request that does not stream never thinks.  Other models are left as
    they are. *)
Theorem thinking_switch (base : string) (s e : option bool) (t : option Z) :
  handleThinkingCapability (mkBody (base ++ "-thinking") s e t)
  = mkBody base s (Some true) t
  /\ handleThinkingCapability (mkBody (base ++ "-nonthinking") s e t)
     = mkBody base s (Some false) t
  /\ (isThinkingVariant base = false -> isNonThinkingVariant base = false ->
      handleThinkingCapability (mkBody base s e t)
      = if isQwenThinkingModel base
        then mkBody base s (Some (is_true s && (is_true e || defined t))) t
        else mkBody base s e t).
Proof.
  unfold handleThinkingCapability, isThinkingVariant, isNonThinkingVariant,
    getBaseModelName. cbn [model stream enable_thinking thinking_budget].
  split; [|split].
  - rewrite endsWith_append, strip_variant by auto. reflexivity.
  - rewrite nonthinking_is_not_thinking, endsWith_append, strip_variant by auto.
    reflexivity.
  - intros -> ->. destruct (isQwenThinkingModel base); [|reflexivity].
    destruct s as [[|]|], e as [[|]|], t as [z|]; reflexivity.
Qed.

Lemma thinking_switch_witness :
  handleThinkingCapability
    (mkBody "qwen-plus-latest" (Some true) (Some false) (Some 1024))
  = mkBody "qwen-plus-latest" (Some true) (Some true) (Some 1024).
Proof.
  destruct (thinking_switch "qwen-plus-latest" (Some true) (Some false)
              (Some 1024)) as (_ & _ & H).
  rewrite H; reflexivity.
Defined.

(** ** What the model list contains *)

Lemma variant_not_base (k sfx : string) :
  sfx = "-thinking" \/ sfx = "-nonthinking" -> is_base_qwen3 (k ++ sfx) = false.
Proof.
  unfold is_base_qwen3, isThinkingVariant, isNonThinkingVariant.
  intros [-> | ->]; rewrite endsWith_append;
    [rewrite andb_false_r|rewrite andb_false_r]; reflexivity.
Qed.

Lemma expand_ids (m : Model) :
  map id (expand m)
  = if is_base_qwen3 (id m)
    then [id m ++ "-thinking"; id m ++ "-nonthinking"] else [id m].
Proof.
  unfold expand. destruct (isQwenThinkingModel (id m)); cbn [id];
    destruct (is_base_qwen3 (id m)); reflexivity.
Qed.

Lemma expand_no_base (m : Model) :
  Forall (fun x => is_base_qwen3 (id x) = false) (expand m).
Proof.
  unfold expand. destruct (isQwenThinkingModel (id m)); cbn [id];
    destruct (is_base_qwen3 (id m)) eqn:E; unfold variants; cbn [id];
    repeat constructor; try (apply variant_not_base; auto); exact E.
Qed.

Lemma expand_thinking (m : Model) :
  Forall (fun x => isQwenThinkingModel (id x) = true -> thinking x = true)
    (expand m).
Proof.
  unfold expand. destruct (isQwenThinkingModel (id m)) eqn:Et; cbn [id];
    destruct (is_base_qwen3 (id m)) eqn:E; unfold variants;
    repeat constructor; cbn [id thinking]; congruence.
Qed.

Lemma kept_ids (data : list Model) :
  Forall (fun m => is_base_qwen3 (id m) = false) data ->
  map id (flat_map expand data) = map id data.
Proof.
  induction 1 as [|m l Hm _ IH]; [reflexivity|].
  cbn [flat_map]. rewrite map_app, expand_ids, Hm, IH. reflexivity.
Qed.

Lemma added_ids (ks : list string) :
  map id (flat_map expand (map pushed ks))
  = flat_map (fun k => if is_base_qwen3 k
                       then [k ++ "-thinking"; k ++ "-nonthinking"] else [k]) ks.
Proof.
  induction ks as [|k ks IH]; [reflexivity|].
  cbn [map flat_map]. rewrite map_app, expand_ids, IH. reflexivity.
Qed.

(** X21. The Qwen model list built from the upstream list.  Its ids are the
    upstream ids that are not base Qwen3 ids, in the upstream order,
    followed by the known ids that upstream did not list, every known base
    Qwen3 id being replaced by its [-thinking] and [-nonthinking] variants.
    Hence a base Qwen3 id is never listed, and one that upstream does list
    is dropped without variants.  Every listed thinking-capable model
    carries the flag [thinking], and an upstream [data] that is not an
    array gives the list of an empty upstream list. *)
Theorem qwen_list_ids (data : list Model) :
  let missing :=
    List.filter (fun k => negb (string_in k (map id data))) knownQwenModels in
  map id (listFromUpstream data)
  = app (map id (List.filter (fun m => negb (is_base_qwen3 (id m))) data))
      (flat_map (fun k => if is_base_qwen3 k
                          then [k ++ "-thinking"; k ++ "-nonthinking"]
                          else [k]) missing)
  /\ Forall (fun m => is_base_qwen3 (id m) = false) (listFromUpstream data)
  /\ Forall (fun m => isQwenThinkingModel (id m) = true -> thinking m = true)
       (listFromUpstream data)
  /\ ownList = listFromUpstream [].
Proof.
  intros missing. unfold listFromUpstream. fold missing.
  assert (Hf : List.filter
                 (fun m => negb (isQwen3Model (id m)) || isThinkingVariant (id m)
                           || isNonThinkingVariant (id m)) data
               = List.filter (fun m => negb (is_base_qwen3 (id m))) data).
  { apply filter_ext. intros m. unfold is_base_qwen3.
    destruct (isQwen3Model (id m)), (isThinkingVariant (id m)),
      (isNonThinkingVariant (id m)); reflexivity. }
  rewrite Hf. split; [|split; [|split]].
  - rewrite flat_map_app, map_app, added_ids. f_equal.
    apply kept_ids. apply List.Forall_forall. intros m Hm.
    apply filter_In in Hm as [_ Hm]. now apply negb_true_iff.
  - apply Forall_flat_map. apply List.Forall_forall. intros m _.
    apply expand_no_base.
  - apply Forall_flat_map. apply List.Forall_forall. intros m _.
    apply expand_thinking.
  - vm_compute. reflexivity.
Qed.

(** ** The cache of the model list *)

(** X22. The Qwen model list is cached for a minute.  A call that finds the
    cache stale and gets an answer from upstream stores the list with the
    time; every call less than 60000 ms after that time returns this list,
    whatever upstream would answer now, and leaves the cache as it is.  A
    call whose request fails, or that gets no key, returns the empty list
    and stores nothing. *)
Theorem qwen_list_is_cached_for_a_minute (now now' : Z) (up : Upstream)
    (st : Cache) :
  1000 * 60 <= now - modelsCacheTime st ->
  let out := getModelsResponse now now' up st in
  match up with
  | NoKey | RequestFailed | NoData => out = (Some [], st)
  | _ =>
      modelsCacheTime (snd out) = now'
      /\ modelsCache (snd out) = fst out
      /\ fst out = Some (match up with
                         | DataArray data => listFromUpstream data
                         | _ => ownList
                         end)
      /\ forall later later' up',
           later - now' < 1000 * 60 ->
           getModelsResponse later later' up' (snd out) = (fst out, snd out)
  end.
Proof.
  intros H out.
  assert (E : out = match up with
                    | NoKey | RequestFailed | NoData => (Some [], st)
                    | DataNotArray => (Some ownList, mkCache (Some ownList) now')
                    | DataArray data =>
                        (Some (listFromUpstream data),
                         mkCache (Some (listFromUpstream data)) now')
                    end).
  { subst out. unfold getModelsResponse.
    destruct (Z.ltb_spec (now - modelsCacheTime st) (1000 * 60)); [lia|].
    reflexivity. }
  rewrite E. clear E out.
  destruct up as [| | | |data]; try reflexivity;
    cbn [fst snd modelsCache modelsCacheTime];
    (split; [reflexivity|]; split; [reflexivity|]; split; [reflexivity|]);
    intros later later' up' Hl; unfold getModelsResponse;
    cbn [modelsCache modelsCacheTime];
    destruct (Z.ltb_spec (later - now') (1000 * 60)); try lia; reflexivity.
Qed.

Lemma qwen_list_is_cached_for_a_minute_witness :
  getModelsResponse 1700000000000 1700000000100 NoKey (mkCache None 0)
  = (Some [], mkCache None 0).
Proof.
  apply (qwen_list_is_cached_for_a_minute 1700000000000 1700000000100 NoKey
           (mkCache None 0)).
  simpl. lia.
Defined.

End Qwen.

(* ===================================================================== *)
(** * Google AI: the model lists and the model of a request
      ([proxy/google-ai.ts]) *)
(* ===================================================================== *)

Module GoogleAI.
Import Js Models JsArray.
Open Scope Z_scope.

(** ** The model lists *)

(** [id.startsWith("models/") ? id.slice("models/".length) : id] *)
Definition strip_models (id : string) : string :=
  if startsWith id "models/" then drop 7 id else id.

(** [Array.from(new Set(l))]: the first occurrence of every element, in
    order. *)
Definition dedupe (l : list string) : list string :=
  fold_left (fun seen x => if string_in x seen then seen else app seen [x])
    l [].

(** The filter on the model ids of the keys. *)
Definition listed (id : string) : bool :=
  startsWith id "models/" && negb (includes id "bard").

Definition is_google_ai (s : LLMService) : bool :=
  match s with
  | google_ai => true
  | _ => false
  end.

(** The two caches of the module; a list stands for the answer that holds
    it ([data] of the OpenAI-style answer: the ids; [models] of the native
    answer: the names), [None] for [null]. *)
Record Cache : Type := mkCache {
  modelsCache : option (list string);
  modelsCacheTime : Z;
  nativeModelsCache : option (list string);
  nativeModelsCacheTime : Z;
}.

(** [getModelsResponse()]; [keys] is [keyPool.list()] with the service and
    the [modelIds] of each key, [now] the clock at the freshness test and
    [now'] the clock when the cache is written. *)
Definition getModelsResponse (now now' : Z) (googleAIKey : option string)
    (keys : list (LLMService * list string)) (st : Cache)
  : option (list string) * Cache :=
  if now - modelsCacheTime st <? 1000 * 60 then (modelsCache st, st)
  else if negb (truthy googleAIKey) then (Some [], st)
  else
    let keys := List.filter (fun k => is_google_ai (fst k)) keys in
    match keys with
    | [] =>
        (Some [],
         mkCache (Some []) now' (nativeModelsCache st) (nativeModelsCacheTime st))
    | _ =>
        let modelIds := List.filter listed (dedupe (concat (map snd keys))) in
        let models := map strip_models modelIds in
        (Some models,
         mkCache (Some models) now' (nativeModelsCache st)
           (nativeModelsCacheTime st))
    end.

Inductive Result (A : Type) : Type :=
| Returns (a : A)
| ThrowsTypeError.                   (* [openaiStyle.data] on [null] *)
Arguments Returns {A} a.
Arguments ThrowsTypeError {A}.

(** [getNativeModelsResponse()]; [t] and [t'] are its own two readings of
    the clock, [now] and [now'] those of the inner [getModelsResponse]. *)
Definition getNativeModelsResponse (t now now' t' : Z)
    (googleAIKey : option string) (keys : list (LLMService * list string))
    (st : Cache) : Result (option (list string)) * Cache :=
  if t - nativeModelsCacheTime st <? 1000 * 60
  then (Returns (nativeModelsCache st), st)
  else
    let (openaiStyle, st1) := getModelsResponse now now' googleAIKey keys st in
    match openaiStyle with
    | None => (ThrowsTypeError, st1)
    | Some data =>
        let models := map (fun id => "models/" ++ id) data in
        (Returns (Some models),
         mkCache (modelsCache st1) (modelsCacheTime st1) (Some models) t')
    end.

(** ** The model of a request *)

(** [s.split(sep)] for a separator of one character. *)
Fixpoint split (sep : ascii) (s : string) : list string :=
  match s with
  | EmptyString => [EmptyString]
  | String c s' =>
      if Ascii.eqb c sep then EmptyString :: split sep s'
      else match split sep s' with
           | h :: t => String c h :: t
           | [] => [String c EmptyString]
           end
  end.

(** [parts.pop()] *)
Definition pop (parts : list string) : option string := last parts.

(** [parts.shift()] *)
Definition shift (parts : list string) : option string := head parts.

Inductive Reassigned : Type :=
| Model (m : string)                 (* [req.body.model] afterwards *)
| ThrowsNoModel.

(** [maybeReassignModel(req)] for [req.body.model] and [req.url]. *)
Definition maybeReassignModel (bodyModel : option string) (url : string)
  : Reassigned :=
  let model :=
    if truthy bodyModel then bodyModel
    else pop (split "/" url) ≫= fun seg => shift (split ":" seg) in
  match model with
  | Some (String c m) => Model (strip_models (String c m))
  | _ => ThrowsNoModel
  end.

(** ** The ids that are listed *)

Lemma dedupe_from (l : list string) : forall seen,
  List.NoDup seen ->
  let out := fold_left
               (fun seen x => if string_in x seen then seen else app seen [x])
               l seen in
  List.NoDup out /\ forall x, In x out <-> In x seen \/ In x l.
Proof.
  induction l as [|a l IH]; intros seen Hn; cbn [fold_left].
  - split; [exact Hn|]. intros x. simpl. tauto.
  - destruct (string_in a seen) eqn:E.
    + destruct (IH seen Hn) as [H1 H2]. split; [exact H1|].
      intros x. rewrite H2. simpl. apply string_in_In in E.
      split; [tauto|]. intros [H|[<-|H]]; tauto.
    + assert (Hn' : List.NoDup (app seen [a])).
      { apply (NoDup_Add (a := a) (l := seen)).
        - rewrite <- (app_nil_r seen) at 1. apply Add_app.
        - split; [exact Hn|]. intros Hin. apply string_in_In in Hin.
          congruence. }
      destruct (IH (app seen [a]) Hn') as [H1 H2]. split; [exact H1|].
      intros x. rewrite H2, in_app_iff. simpl. tauto.
Qed.

Lemma dedupe_spec (l : list string) :
  List.NoDup (dedupe l) /\ forall x, In x (dedupe l) <-> In x l.
Proof.
  destruct (dedupe_from l [] (List.NoDup_nil _)) as [H1 H2].
  split; [exact H1|]. intros x. unfold dedupe. rewrite H2. simpl. tauto.
Qed.

Lemma drop_prefix (p t : string) : drop (String.length p) (p ++ t) = t.
Proof.
  induction p as [|c p IH]; [rewrite append_nil_l; now destruct t|].
  rewrite append_cons. exact IH.
Qed.

Lemma strip_models_prefixed (x : string) : strip_models ("models/" ++ x) = x.
Proof.
  unfold strip_models, startsWith.
  replace (String.prefix "models/" ("models/" ++ x)) with true
    by (symmetry; apply prefix_iff; now exists x).
  apply (drop_prefix "models/" x).
Qed.

Lemma listed_round_trip (id : string) :
  listed id = true -> "models/" ++ strip_models id = id.
Proof.
  unfold listed. intros H. apply andb_prop in H as [H _].
  apply prefix_iff in H as [t ->]. now rewrite strip_models_prefixed.
Qed.

Lemma names_of_listed (l : list string) :
  map (fun id => "models/" ++ id) (map strip_models (List.filter listed l))
  = List.filter listed l.
Proof.
  induction l as [|a l IH]; [reflexivity|]. cbn [List.filter].
  destruct (listed a) eqn:E; [|exact IH].
  cbn [map]. rewrite IH, (listed_round_trip a E). reflexivity.
Qed.

(** X23. The two Google AI model lists, when both caches are stale and a
    Google AI key is configured.  The native list names exactly the model
    ids of the Google AI keys that start with [models/] and do not contain
    [bard], each once, in the order of their first occurrence and under
    the names the keys carry; the OpenAI-style list has the same models
    with the prefix [models/] removed, also without duplicates. *)
Theorem google_model_lists (t now now' t' : Z) (googleAIKey : option string)
    (keys : list (LLMService * list string)) (st : Cache) :
  truthy googleAIKey = true ->
  1000 * 60 <= t - nativeModelsCacheTime st ->
  1000 * 60 <= now - modelsCacheTime st ->
  let ids :=
    List.filter listed
      (dedupe (concat (map snd (List.filter (fun k => is_google_ai (fst k))
                                  keys)))) in
  fst (getModelsResponse now now' googleAIKey keys st)
  = Some (map strip_models ids)
  /\ fst (getNativeModelsResponse t now now' t' googleAIKey keys st)
     = Returns (Some ids)
  /\ List.NoDup ids
  /\ List.NoDup (map strip_models ids)
  /\ (forall id, In id ids <->
        listed id = true
        /\ exists k, In k keys /\ fst k = google_ai /\ In id (snd k)).
Proof.
  intros Hk Ht Hn ids.
  assert (E : getModelsResponse now now' googleAIKey keys st
              = (Some (map strip_models ids),
                 mkCache (Some (map strip_models ids)) now'
                   (nativeModelsCache st) (nativeModelsCacheTime st))).
  { unfold getModelsResponse.
    destruct (Z.ltb_spec (now - modelsCacheTime st) (1000 * 60)); [lia|].
    rewrite Hk. cbn [negb]. subst ids.
    destruct (List.filter (fun k => is_google_ai (fst k)) keys); reflexivity. }
  assert (Hd : List.NoDup ids).
  { subst ids. apply List.NoDup_filter. apply dedupe_spec. }
  split; [now rewrite E|]. split; [|split; [exact Hd|split]].
  - unfold getNativeModelsResponse.
    destruct (Z.ltb_spec (t - nativeModelsCacheTime st) (1000 * 60)); [lia|].
    rewrite E. cbn [fst]. subst ids. now rewrite names_of_listed.
  - apply (NoDup_map_inv (fun id => "models/" ++ id)).
    subst ids. rewrite names_of_listed. exact Hd.
  - intros id. subst ids. rewrite filter_In.
    destruct (dedupe_spec
                (concat (map snd (List.filter (fun k => is_google_ai (fst k))
                                    keys)))) as [_ Hin].
    rewrite Hin, in_concat. split.
    + intros [(l & Hl & Hid) Hlisted]. split; [exact Hlisted|].
      apply in_map_iff in Hl as (k & <- & Hk').
      apply filter_In in Hk' as [Hk' Hs]. exists k. repeat split; auto.
      destruct (fst k); try discriminate; reflexivity.
    + intros [Hlisted (k & Hk' & Hs & Hid)]. split; [|exact Hlisted].
      exists (snd k). split; [|exact Hid].
      apply in_map. apply filter_In. split; [exact Hk'|]. now rewrite Hs.
Qed.

Lemma google_model_lists_witness :
  fst (getNativeModelsResponse 1700000000000 1700000000000 1700000000001
         1700000000002 (Some "AIza")
         [ (google_ai, ["models/gemini-pro"; "models/bard-x"; "tunedModels/a"]);
           (openai, ["models/gpt-4"]);
           (google_ai, ["models/gemini-flash"; "models/gemini-pro"]) ]
         (mkCache None 0 None 0))
  = Returns (Some ["models/gemini-pro"; "models/gemini-flash"]).
Proof.
  destruct (google_model_lists 1700000000000 1700000000000 1700000000001
              1700000000002 (Some "AIza")
              [ (google_ai, ["models/gemini-pro"; "models/bard-x"; "tunedModels/a"]);
                (openai, ["models/gpt-4"]);
                (google_ai, ["models/gemini-flash"; "models/gemini-pro"]) ]
              (mkCache None 0 None 0)) as (_ & H & _).
  - reflexivity.
  - simpl. lia.
  - simpl. lia.
  - exact H.
Defined.

(** ** The model named by the URL *)

Fixpoint has_char (c : ascii) (s : string) : bool :=
  match s with
  | EmptyString => false
  | String a s' => Ascii.eqb a c || has_char c s'
  end.

Lemma split_cons (sep : ascii) (s : string) :
  exists h t, split sep s = h :: t.
Proof.
  destruct s as [|c s]; simpl; [eauto|].
  destruct (Ascii.eqb c sep); [eauto|].
  destruct (split sep s); eauto.
Qed.

Lemma split_none (sep : ascii) (s : string) :
  has_char sep s = false -> split sep s = [s].
Proof.
  induction s as [|c s IH]; simpl; [reflexivity|].
  intros H. apply orb_false_elim in H as [Hc Hs].
  rewrite Hc, (IH Hs). reflexivity.
Qed.

Lemma split_at (sep : ascii) (a b : string) :
  split sep (a ++ String sep b) = app (split sep a) (split sep b).
Proof.
  induction a as [|c a IH].
  - rewrite append_nil_l. simpl. now rewrite Ascii.eqb_refl.
  - rewrite append_cons. simpl. rewrite IH.
    destruct (Ascii.eqb c sep); [reflexivity|].
    destruct (split_cons sep a) as (h & t & ->). reflexivity.
Qed.

(** X24. The model of a native Google AI request.  A model given in the body
    wins and loses one leading [models/]; so every name of the native
    model list leads back to the id of the OpenAI-style list.  Without a
    model in the body, the model is the text between the last [/] of the
    URL and the first [:] after it, and the request is refused when that
    text is empty. *)
Theorem model_of_a_google_request (bodyModel : option string)
    (dir m rest : string) :
  has_char "/" m = false -> has_char ":" m = false ->
  has_char "/" rest = false ->
  let url := dir ++ String "/" (m ++ String ":" rest) in
  (truthy bodyModel = false ->
   maybeReassignModel bodyModel url
   = match m with
     | EmptyString => ThrowsNoModel
     | _ => Model m
     end)
  /\ (forall x, x <> "" ->
        maybeReassignModel (Some x) url = Model (strip_models x)
        /\ maybeReassignModel (Some ("models/" ++ x)) url = Model x).
Proof.
  intros Hm1 Hm2 Hr url. split.
  - intros Hb. unfold maybeReassignModel. rewrite Hb. subst url.
    rewrite split_at. unfold pop. rewrite last_app.
    assert (Hseg : has_char "/" (m ++ String ":" rest) = false).
    { clear -Hm1 Hr. induction m as [|c m IH].
      - rewrite append_nil_l. simpl. exact Hr.
      - rewrite append_cons. simpl in *.
        apply orb_false_elim in Hm1 as [Hc Hm]. rewrite Hc. now apply IH. }
    rewrite (split_none "/" _ Hseg). cbn [last mbind option_bind].
    rewrite split_at, (split_none ":" m Hm2). cbn [app shift head].
    destruct m as [|c m]; [reflexivity|].
    unfold strip_models, startsWith.
    replace (String.prefix "models/" (String c m)) with false; [reflexivity|].
    symmetry. apply not_true_is_false. intros Hp.
    apply prefix_iff in Hp as [x Hx].
    assert (Hs : has_char "/" ("models/" ++ x) = true) by reflexivity.
    rewrite <- Hx in Hs. congruence.
  - intros x Hx. unfold maybeReassignModel.
    destruct x as [|c x]; [congruence|]. split; [reflexivity|].
    change (truthy (Some ("models/" ++ String c x))) with true. cbv iota.
    change ("models/" ++ String c x)
      with (String "m" ("odels/" ++ String c x)) at 1.
    cbv iota. f_equal.
Qed.

Lemma model_of_a_google_request_witness :
  maybeReassignModel None "/v1beta/models/gemini-2.0-flash:generateContent"
  = Model "gemini-2.0-flash".
Proof.
  destruct (model_of_a_google_request None "/v1beta/models" "gemini-2.0-flash"
              "generateContent" eq_refl eq_refl eq_refl) as [H _].
  apply H. reflexivity.
Defined.

End GoogleAI.

(* ===================================================================== *)
(** * Prompt tokens of a Mistral request
      ([proxy/middleware/request/preprocessors/count-prompt-tokens.ts]) *)
(* ===================================================================== *)

Module CountPromptTokens.
Open Scope Z_scope.

(** [msg.content]: a string, or an array of items of which the [type] is
    kept. *)
Inductive Content : Type :=
| Text (s : string)
| Parts (types : list string).

Definition TOKENS_PER_IMAGE : Z := 1200.

Definition is_image (type : string) : bool := String.eqb type "image_url".

(** [hasImageContent]; [messages] is [None] when [req.body.messages] is
    not an array. *)
Definition hasImageContent (messages : option (list Content)) : bool :=
  match messages with
  | Some ms =>
      existsb (fun c => match c with
                        | Parts types => existsb is_image types
                        | Text _ => false
                        end) ms
  | None => false
  end.

(** The [for] loop over the messages. *)
Definition imageTokens (messages : option (list Content)) : Z :=
  match messages with
  | Some ms =>
      if hasImageContent messages then
        fold_left
          (fun acc c =>
             match c with
             | Parts types =>
                 acc + Z.of_nat (length (List.filter is_image types))
                       * TOKENS_PER_IMAGE
             | Text _ => acc
             end) ms 0
      else 0
  | None => 0
  end.

(** [req.promptTokens] after [countPromptTokens] for the outbound APIs
    [mistral-ai] and [mistral-text]; [token_count] is what [countTokens]
    returned. *)
Definition mistralPromptTokens (token_count : Z)
    (messages : option (list Content)) : Z :=
  if imageTokens messages >? 0 then token_count + imageTokens messages
  else token_count.

(** The number of items of type [image_url] in all messages. *)
Definition images (messages : option (list Content)) : nat :=
  match messages with
  | Some ms =>
      length (List.filter is_image
                (concat (map (fun c => match c with
                                       | Parts types => types
                                       | Text _ => []
                                       end) ms)))
  | None => 0
  end.

Lemma image_loop (ms : list Content) : forall acc,
  fold_left
    (fun acc c =>
       match c with
       | Parts types =>
           acc + Z.of_nat (length (List.filter is_image types))
                 * TOKENS_PER_IMAGE
       | Text _ => acc
       end) ms acc
  = acc + 1200 * Z.of_nat (images (Some ms)).
Proof.
  unfold images, TOKENS_PER_IMAGE.
  induction ms as [|c ms IH]; intros acc; cbn [fold_left map concat].
  - simpl. lia.
  - rewrite IH. destruct c as [s|types]; [simpl; lia|].
    rewrite List.filter_app, length_app. lia.
Qed.

Lemma no_image (ms : list Content) :
  hasImageContent (Some ms) = false -> images (Some ms) = 0%nat.
Proof.
  unfold hasImageContent, images. induction ms as [|c ms IH]; [reflexivity|].
  cbn [existsb map concat]. intros H. apply orb_false_elim in H as [Hc Hms].
  rewrite List.filter_app, length_app, (IH Hms).
  destruct c as [s|types]; [reflexivity|].
  clear -Hc. induction types as [|x types IH]; [reflexivity|].
  cbn [existsb] in Hc. apply orb_false_elim in Hc as [Hx Hc].
  cbn [List.filter]. rewrite Hx. now apply IH.
Qed.

(** X25. For a Mistral request the prompt tokens are the count of the
    tokenizer plus 1200 for every content item of type [image_url] in the
    messages; messages with string content, and a body without a message
    array, add nothing. *)
Theorem mistral_image_tokens (token_count : Z)
    (messages : option (list Content)) :
  mistralPromptTokens token_count messages
  = token_count + 1200 * Z.of_nat (images messages).
Proof.
  unfold mistralPromptTokens.
  assert (E : imageTokens messages = 1200 * Z.of_nat (images messages)).
  { destruct messages as [ms|]; [|reflexivity]. unfold imageTokens.
    destruct (hasImageContent (Some ms)) eqn:Eh.
    - rewrite image_loop. lia.
    - rewrite (no_image ms Eh). reflexivity. }
  rewrite E. destruct (Z.gtb_spec (1200 * Z.of_nat (images messages)) 0); lia.
Qed.

End CountPromptTokens.

(* ===================================================================== *)
(** * The path of a thumbnail
      ([shared/file-storage/mirror-generated-image.ts]) *)
(* ===================================================================== *)

Module MirrorGeneratedImage.
Import Js.

(** The class [[\wd_-]]. *)
Definition ext_char : cset := CUnion CWord (COne "-").

(** [/(\.[\wd_-]+)$/i] without its anchor. *)
Definition extension : regex := Seq (lit ".") (plus (Cls ext_char)).

(** [s.replace(re, rep)] for a pattern that ends in [$]: the leftmost
    suffix in the language is replaced. *)
Fixpoint replace_suffix (r : regex) (rep s : string) : string :=
  if accepts r s then rep
  else match s with
       | EmptyString => EmptyString
       | String c s' => String c (replace_suffix r rep s')
       end.

(** The [thumbnailPath] of [createThumbnail(filepath)]. *)
Definition thumbnailPath (filepath : string) : string :=
  replace_suffix extension "_t.jpg" filepath.

Fixpoint all_in (p : cset) (s : string) : bool :=
  match s with
  | EmptyString => true
  | String c s' => cset_mem p c && all_in p s'
  end.

Lemma accepts_star_cls (p : cset) (s : string) :
  accepts (Star (Cls p)) s = all_in p s.
Proof.
  induction s as [|c s IH]; [reflexivity|].
  cbn [accepts deriv all_in]. destruct (cset_mem p c); cbn [mkSeq andb].
  - exact IH.
  - apply accepts_Void.
Qed.

Lemma accepts_plus_cls (p : cset) (s : string) :
  accepts (plus (Cls p)) s
  = match s with
    | EmptyString => false
    | String c s' => cset_mem p c && all_in p s'
    end.
Proof.
  destruct s as [|c s]; [reflexivity|].
  unfold plus. cbn [accepts deriv nullable]. destruct (cset_mem p c); simpl.
  - apply accepts_star_cls.
  - apply accepts_Void.
Qed.

Lemma accepts_extension (s : string) :
  accepts extension s
  = match s with
    | String c (String d s') =>
        Ascii.eqb c "." && cset_mem ext_char d && all_in ext_char s'
    | _ => false
    end.
Proof.
  destruct s as [|c s]; [reflexivity|].
  unfold extension, plus. cbn [accepts deriv lit nullable cset_mem andb].
  rewrite Ascii.eqb_sym.
  destruct (Ascii.eqb c "."); cbn [mkSeq mkAlt].
  - change (Seq (Cls ext_char) (Star (Cls ext_char)))
      with (plus (Cls ext_char)).
    rewrite accepts_plus_cls. destruct s; [reflexivity|].
    now rewrite andb_true_l.
  - rewrite accepts_Void. now destruct s.
Qed.

Lemma all_in_dot (a b : string) : all_in ext_char (a ++ String "." b) = false.
Proof.
  induction a as [|c a IH]; [reflexivity|].
  rewrite append_cons. cbn [all_in]. rewrite IH. apply andb_false_r.
Qed.

Fixpoint has_dot (s : string) : bool :=
  match s with
  | EmptyString => false
  | String c s' => Ascii.eqb c "." || has_dot s'
  end.

(** X26. The thumbnail of an image is written next to it: for a path that
    ends in a dot and a non-empty extension of letters, digits, [_] and
    [-], [createThumbnail] replaces that last extension by [_t.jpg] and
    keeps everything before it, dots and slashes included.  For a path
    without any dot the thumbnail path is the path of the image itself. *)
Theorem thumbnail_replaces_the_extension (stem ext : string) :
  (ext <> "" -> all_in ext_char ext = true ->
   thumbnailPath (stem ++ String "." ext) = stem ++ "_t.jpg")
  /\ (has_dot stem = false -> thumbnailPath stem = stem).
Proof.
  unfold thumbnailPath. split.
  - intros Hne Hall. induction stem as [|c stem IH].
    + rewrite !append_nil_l.
      change (replace_suffix extension "_t.jpg" (String "." ext))
        with (if accepts extension (String "." ext) then "_t.jpg"
              else String "." (replace_suffix extension "_t.jpg" ext)).
      rewrite accepts_extension. destruct ext as [|d ext]; [congruence|].
      cbn [all_in] in Hall. apply andb_prop in Hall as [H1 H2].
      now rewrite Ascii.eqb_refl, H1, H2.
    + rewrite !append_cons.
      change (replace_suffix extension "_t.jpg"
                (String c (stem ++ String "." ext)))
        with (if accepts extension (String c (stem ++ String "." ext))
              then "_t.jpg"
              else String c (replace_suffix extension "_t.jpg"
                               (stem ++ String "." ext))).
      assert (H : accepts extension (String c (stem ++ String "." ext)) = false).
      { rewrite accepts_extension.
        destruct stem as [|d stem].
        - rewrite append_nil_l. cbn [cset_mem ext_char].
          rewrite andb_false_r. reflexivity.
        - rewrite append_cons, all_in_dot. apply andb_false_r. }
      rewrite H, IH. reflexivity.
  - induction stem as [|c stem IH]; [reflexivity|].
    cbn [has_dot]. intros H. apply orb_false_elim in H as [Hc Hs].
    change (replace_suffix extension "_t.jpg" (String c stem))
      with (if accepts extension (String c stem) then "_t.jpg"
            else String c (replace_suffix extension "_t.jpg" stem)).
    rewrite accepts_extension.
    destruct stem as [|d stem]; [reflexivity|].
    rewrite Hc. cbn [andb]. now rewrite (IH Hs).
Qed.

Lemma thumbnail_replaces_the_extension_witness :
  thumbnailPath "/data/user-files/3f2a.cache/0b1e-77.png"
  = "/data/user-files/3f2a.cache/0b1e-77_t.jpg".
Proof.
  destruct (thumbnail_replaces_the_extension "/data/user-files/3f2a.cache/0b1e-77"
              "png") as [H _].
  apply H; [discriminate|reflexivity].
Defined.

End MirrorGeneratedImage.

(* ===================================================================== *)
(** * The queue estimate of the info page
      ([service-info.ts]) *)
(* ===================================================================== *)

Module QueueInfo.

(** [Math.round(x)] *)
Definition jsRound (x : Q) : Z := Qfloor (x + (1 # 2)).

(** [Math.trunc(x)] *)
Definition jsTrunc (x : Q) : Z :=
  if Qle_bool 0 x then Qfloor x else Qceiling x.

(** [x % y] on numbers. *)
Definition jsRem (x y : Q) : Q := x - y * inject_Z (jsTrunc (x / y)).

Inductive QueueTime : Type :=
| NoWait
| Seconds (sec : Z)
| MinutesSeconds (min sec : Z).

(** The numbers that [getQueueInformation] prints for a wait of [waitMs]
    milliseconds. *)
Definition queueTime (waitMs : Q) : QueueTime :=
  if Qle_bool waitMs 2000 then NoWait
  else if negb (Qle_bool 60000 waitMs)
  then Seconds (jsRound (waitMs / 1000))
  else MinutesSeconds (jsRound (waitMs / 60000))
         (jsRound (jsRem waitMs 60000 / 1000)).

(** [estimatedQueueTime] *)
Definition estimatedQueueTime (waitMs : Q) : string :=
  match queueTime waitMs with
  | NoWait => "no wait"
  | Seconds sec => pretty sec ++ "sec"
  | MinutesSeconds min sec => pretty min ++ "min, " ++ pretty sec ++ "sec"
  end.

Lemma Qfloor_eq (x : Q) (z : Z) :
  (inject_Z z <= x)%Q -> (x < inject_Z (z + 1))%Q -> Qfloor x = z.
Proof.
  intros H1 H2.
  pose proof (Qfloor_le x) as F1. pose proof (Qlt_floor x) as F2.
  assert (A : (z < Qfloor x + 1)%Z).
  { rewrite Zlt_Qlt. eapply Qle_lt_trans; eassumption. }
  assert (B : (Qfloor x < z + 1)%Z).
  { rewrite Zlt_Qlt. eapply Qle_lt_trans; eassumption. }
  lia.
Qed.

Lemma jsRound_bounds (x : Q) :
  (inject_Z (jsRound x) - (1 # 2) <= x)%Q
  /\ (x < inject_Z (jsRound x) + (1 # 2))%Q.
Proof.
  unfold jsRound.
  pose proof (Qfloor_le (x + (1 # 2))) as F1.
  pose proof (Qlt_floor (x + (1 # 2))) as F2.
  rewrite inject_Z_plus in F2. change (inject_Z 1) with 1%Q in F2.
  split; lra.
Qed.

Lemma Qle_bool_false (x y : Q) : Qle_bool x y = false -> (y < x)%Q.
Proof.
  intros H. apply Qnot_le_lt. intros Hle. apply Qle_bool_iff in Hle. congruence.
Qed.

Lemma Zle_Qlt_pred (a b : Z) :
  (inject_Z a - 1 < inject_Z b)%Q -> (a <= b)%Z.
Proof.
  intros H. apply Z.lt_succ_r. unfold Z.succ. rewrite Zlt_Qlt, inject_Z_plus.
  change (inject_Z 1) with 1%Q. lra.
Qed.

(** X27. What the queue estimate shows.  A wait of at most 2000 ms reads
    "no wait".  Below a minute the seconds shown are the wait rounded to
    the nearest second, between 2 and 60.  From a minute on the seconds
    shown are the wait beyond the last whole minute, rounded, but the
    minutes are the wait rounded to the nearest minute: they are the whole
    minutes only while the rest of the wait is under 30 s, and one more
    when it is 30 s or longer, so that a wait of 90 s reads
    "2min, 30sec". *)
Theorem queue_estimate (waitMs : Q) :
  match queueTime waitMs with
  | NoWait => (waitMs <= 2000)%Q
  | Seconds sec =>
      (2000 < waitMs)%Q /\ (waitMs < 60000)%Q
      /\ (2 <= sec <= 60)%Z
      /\ (1000 * inject_Z sec - 500 <= waitMs)%Q
      /\ (waitMs < 1000 * inject_Z sec + 500)%Q
  | MinutesSeconds min sec =>
      let whole := Qfloor (waitMs / 60000) in
      let rest := (waitMs - 60000 * inject_Z whole)%Q in
      (60000 <= waitMs)%Q
      /\ (0 <= rest)%Q /\ (rest < 60000)%Q
      /\ (0 <= sec <= 60)%Z
      /\ (1000 * inject_Z sec - 500 <= rest)%Q
      /\ (rest < 1000 * inject_Z sec + 500)%Q
      /\ ((rest < 30000)%Q -> min = whole)
      /\ ((30000 <= rest)%Q -> min = (whole + 1)%Z)
  end.
Proof.
  unfold queueTime.
  destruct (Qle_bool waitMs 2000) eqn:E2; [now apply Qle_bool_iff|].
  apply Qle_bool_false in E2.
  destruct (Qle_bool 60000 waitMs) eqn:E6; cbn [negb].
  - apply Qle_bool_iff in E6. cbv zeta.
    assert (D : (waitMs / 60000 * 60000 == waitMs)%Q) by field.
    set (d := (waitMs / 60000)%Q) in *.
    set (whole := Qfloor d).
    pose proof (Qfloor_le d) as F1.
    pose proof (Qlt_floor d) as F2.
    fold whole in F1, F2. rewrite inject_Z_plus in F2.
    change (inject_Z 1) with 1%Q in F2.
    assert (Hpos : Qle_bool 0 d = true)
      by (apply Qle_bool_iff; lra).
    assert (Hrem : (jsRem waitMs 60000
                    == waitMs - 60000 * inject_Z whole)%Q).
    { unfold jsRem, jsTrunc. fold d. rewrite Hpos. reflexivity. }
    set (rest := (waitMs - 60000 * inject_Z whole)%Q) in *.
    assert (R0 : (0 <= rest)%Q) by (unfold rest; lra).
    assert (R1 : (rest < 60000)%Q) by (unfold rest; lra).
    destruct (jsRound_bounds (jsRem waitMs 60000 / 1000)) as [S1 S2].
    set (sec := jsRound (jsRem waitMs 60000 / 1000)) in *.
    assert (D' : (jsRem waitMs 60000 / 1000 * 1000 == rest)%Q)
      by (rewrite Hrem; field).
    set (e := (jsRem waitMs 60000 / 1000)%Q) in *.
    assert (Hs0 : (0 <= sec)%Z).
    { apply Zle_Qlt_pred. change (inject_Z 0) with 0%Q. lra. }
    assert (Hs1 : (sec <= 60)%Z).
    { apply Zle_Qlt_pred. change (inject_Z 60) with 60%Q. lra. }
    unfold rest in *. clear rest.
    repeat split; try assumption; try lra.
    + intros Hlt. unfold jsRound. apply Qfloor_eq; [lra|].
      rewrite inject_Z_plus. change (inject_Z 1) with 1%Q. lra.
    + intros Hge. unfold jsRound. apply Qfloor_eq.
      * rewrite inject_Z_plus. change (inject_Z 1) with 1%Q. lra.
      * rewrite !inject_Z_plus. change (inject_Z 1) with 1%Q. lra.
  - apply Qle_bool_false in E6.
    destruct (jsRound_bounds (waitMs / 1000)) as [S1 S2].
    set (sec := jsRound (waitMs / 1000)) in *.
    assert (D : (waitMs / 1000 * 1000 == waitMs)%Q) by field.
    set (e := (waitMs / 1000)%Q) in *.
    assert (Hs0 : (2 <= sec)%Z).
    { apply Zle_Qlt_pred. change (inject_Z 2) with 2%Q. lra. }
    assert (Hs1 : (sec <= 60)%Z).
    { apply Zle_Qlt_pred. change (inject_Z 60) with 60%Q. lra. }
    repeat split; try assumption; lra.
Qed.

Example ninety_seconds : estimatedQueueTime 90000 = "2min, 30sec".
Proof. vm_compute. reflexivity. Qed.

End QueueInfo.
